(** * nio-voice-agent-sdk: session store and turn orchestration

    A shallow embedding of [packages/voice-sdk/src/VoiceAgent.ts] and
    [packages/voice-sdk/src/session/SessionManager.ts], with the types of
    [packages/voice-sdk/src/types/index.ts] and the two provider interfaces
    they use, followed by the properties of the session store and of one
    conversational turn.

    Conventions of the embedding.
    - A [Date] is its [getTime()] value, milliseconds as [Z]; every reading
      of the clock ([new Date()], [Date.now()]) is an argument [now] of the
      operation that reads it, and [randomUUID()] is an argument [uuid].
    - A quotient of two millisecond counts by 1000 is kept as the fraction
      [ms # 1000] of [Q] (the JS number is the double nearest to it).
    - A JS [Map] is a [gmap]; a value of type [any] is a [Json] tree.
    - The [ChatMessage[]] arrays are objects: the agent's history map holds
      references ([loc]) into a store of arrays, and [push] updates the
      array a reference points to, whoever else holds the reference.
      Sessions are kept by value: the store is the only holder the
      statements below look through.
    - A method that can throw runs in [Eff], a state and exception monad in
      which the state written before a throw is kept.
    - An [await] is a call: one operation runs from start to end, nothing
      interleaves with it. Providers are functions of their arguments; a
      listener returns or throws and does not call back into the agent.
    - Of [VoiceAgent], the constructor's provider factories (stubs that
      throw), [initialize], [close] and [offEvent] are left out; the agent
      is taken with its two providers in place. *)

From Stdlib Require Import ZArith.
From Stdlib Require QArith_base.
From stdpp Require Import gmap strings list fin_maps.

Local Open Scope string_scope.
Local Open Scope list_scope.

Abbreviation Q := QArith_base.Q.
Abbreviation Qmake := QArith_base.Qmake.

(* ===================================================================== *)
(** ** types/index.ts *)
(* ===================================================================== *)

(** [any]: the core threads these values through and never looks inside. *)
#[local] Unset Elimination Schemes.
Inductive Json : Type :=
| JNull
| JBool (b : bool)
| JNumber (n : Z)
| JString (s : string)
| JArray (items : list Json)
| JObject (members : list (string * Json)).
#[local] Set Elimination Schemes.

Inductive SessionStatus : Type :=
| IDLE | CONNECTING | ACTIVE | PAUSED | ENDING | ENDED | ERROR.

#[global] Instance SessionStatus_eq_dec : EqDecision SessionStatus.
Proof. solve_decision. Defined.

Record Endpointing : Type := {
  enabled : bool;
  silenceThreshold : option Z;
  endThreshold : option Z
}.

Record SessionConfig : Type := {
  config_id : option string;
  config_language : option string;
  sampleRate : option Z;
  encoding : option string;
  interruptible : option bool;
  endpointing : option Endpointing;
  config_metadata : option (gmap string Json)
}.

Record VoiceSession : Type := {
  session_id : string;
  status : SessionStatus;
  config : SessionConfig;
  startedAt : Z;
  endedAt : option Z;
  duration : option Q;
  metadata : gmap string Json
}.

Definition Buffer : Type := list Byte.byte.

Record AudioChunk : Type := {
  data : Buffer;
  timestamp : Z
}.

Record TranscriptWord : Type := {
  word : string;
  word_start : Q;
  word_end : Q;
  word_confidence : Q
}.

Record Transcript : Type := {
  text : string;
  confidence : Q;
  isFinal : bool;
  words : option (list TranscriptWord);
  transcript_language : option string;
  transcript_timestamp : Z;
  transcript_duration : option Q
}.

Inductive Role : Type := system | user | assistant | tool.

Record ChatMessage : Type := {
  role : Role;
  content : string;
  name : option string;
  toolCallId : option string
}.

Record ToolCall : Type := {
  toolCall_id : string;
  toolCall_name : string;
  arguments : gmap string Json
}.

Inductive FinishReason : Type :=
| stop | length_reached | tool_calls | content_filter.

Record Usage : Type := {
  promptTokens : Z;
  completionTokens : Z;
  totalTokens : Z
}.

Record LLMResponse : Type := {
  response_text : string;
  toolCalls : option (list ToolCall);
  usage : option Usage;
  finishReason : option FinishReason
}.

(** A reference to a [ChatMessage[]] object. *)
Definition loc : Type := nat.

(** The requests the agent builds set [messages], [systemPrompt] and, in
    [processAudio], [stream]; the other optional fields stay unset. *)
Record LLMRequest : Type := {
  messages : loc;
  request_systemPrompt : option string;
  stream : option bool
}.

Inductive VoiceAgentEvent : Type :=
| session_start (session : VoiceSession)
| session_end (session : VoiceSession)
| audio_input (audio : AudioChunk)
| audio_output (audio : AudioChunk)
| transcript_partial (transcript : Transcript)
| transcript_final (transcript : Transcript)
| llm_start (request : LLMRequest)
| llm_response (response : LLMResponse)
| llm_stream (chunk : string)
| tool_call (toolCall : ToolCall)
| tool_result (toolCall : ToolCall) (result : Json)
| error_event (message : string).

(** The [type] tag of an event. *)
Definition event_type (event : VoiceAgentEvent) : string :=
  match event with
  | session_start _ => "session:start"
  | session_end _ => "session:end"
  | audio_input _ => "audio:input"
  | audio_output _ => "audio:output"
  | transcript_partial _ => "transcript:partial"
  | transcript_final _ => "transcript:final"
  | llm_start _ => "llm:start"
  | llm_response _ => "llm:response"
  | llm_stream _ => "llm:stream"
  | tool_call _ => "tool:call"
  | tool_result _ _ => "tool:result"
  | error_event _ => "error"
  end.

(** What a provider or a listener throws: opaque to the core. *)
Definition Exn : Type := string.

Inductive Origin : Type := speech_backend | llm_backend | event_listener.

(** What a method of the core throws: the two error classes it
    constructs itself, or a foreign exception passing through, tagged in
    the model with the call it came out of. *)
Inductive Thrown : Type :=
| VoiceAgentError (message code : string)
| SessionError (message sessionId : string)
| Propagated (origin : Origin) (cause : Exn).

(* ===================================================================== *)
(** ** The state and exception monad *)
(* ===================================================================== *)

Definition Eff (S A : Type) : Type := S → (Thrown + A) * S.

Definition ret {S A} (a : A) : Eff S A := λ s, (inr a, s).

Definition throw {S A} (e : Thrown) : Eff S A := λ s, (inl e, s).

Definition bind {S A B} (m : Eff S A) (k : A → Eff S B) : Eff S B :=
  λ s, match m s with
       | (inr a, s') => k a s'
       | (inl e, s') => (inl e, s')
       end.

Definition get {S} : Eff S S := λ s, (inr s, s).

Definition modify {S} (f : S → S) : Eff S unit := λ s, (inr tt, f s).

Notation "'let!' x ':=' m 'in' k" := (bind m (λ x, k))
  (at level 10, x name, m at level 100, k at level 200,
   format "'[v' 'let!'  x  ':='  m  'in' '/' k ']'").
Notation "m ';;' k" := (bind m (λ _, k))
  (at level 100, k at level 200, right associativity).

(** [for (const x of xs) body(x)] *)
Fixpoint for_of {S A} (xs : list A) (body : A → Eff S unit) : Eff S unit :=
  match xs with
  | [] => ret tt
  | x :: rest => body x;; for_of rest body
  end.

(* ===================================================================== *)
(** ** session/SessionManager.ts *)
(* ===================================================================== *)

Record SessionManager : Type := {
  sessions : gmap string VoiceSession
}.

Definition new_SessionManager : SessionManager := {| sessions := ∅ |}.

(** [a || b] on an optional string: the empty string is falsy. *)
Definition string_or (a : option string) (b : string) : string :=
  match a with
  | Some s => if decide (s = "") then b else s
  | None => b
  end.

Definition createSession (config : SessionConfig) (uuid : string) (now : Z)
  : Eff SessionManager VoiceSession :=
  let session :=
    {| session_id := string_or (config_id config) uuid;
       status := IDLE;
       config := config;
       startedAt := now;
       endedAt := None;
       duration := None;
       metadata := default ∅ (config_metadata config) |} in
  modify (λ this, {| sessions := <[session_id session := session]> (sessions this) |});;
  ret session.

Definition getSession (id : string) (this : SessionManager) : option VoiceSession :=
  sessions this !! id.

Definition set_status (status' : SessionStatus) (session : VoiceSession) : VoiceSession :=
  {| session_id := session_id session;
     status := status';
     config := config session;
     startedAt := startedAt session;
     endedAt := endedAt session;
     duration := duration session;
     metadata := metadata session |}.

(** [session.endedAt = new Date(); session.duration = (endedAt - startedAt) / 1000] *)
Definition stamp_end (now : Z) (session : VoiceSession) : VoiceSession :=
  {| session_id := session_id session;
     status := status session;
     config := config session;
     startedAt := startedAt session;
     endedAt := Some now;
     duration := Some (Qmake (now - startedAt session) 1000);
     metadata := metadata session |}.

Definition set_metadata (metadata' : gmap string Json) (session : VoiceSession) : VoiceSession :=
  {| session_id := session_id session;
     status := status session;
     config := config session;
     startedAt := startedAt session;
     endedAt := endedAt session;
     duration := duration session;
     metadata := metadata' |}.

(** The session object found under [id] is updated where it is. The clock
    is read only on the [ENDED] branch. *)
Definition updateSessionStatus (id : string) (status' : SessionStatus) (now : Z)
  : Eff SessionManager unit :=
  let! this := get in
  match getSession id this with
  | None => throw (SessionError ("Session not found: " +:+ id) id)
  | Some session =>
      let session := set_status status' session in
      let session :=
        if decide (status' = ENDED) then stamp_end now session else session in
      modify (λ this, {| sessions := <[id := session]> (sessions this) |})
  end.

(** [{ ...session.metadata, ...metadata }]: the later spread wins. *)
Definition updateSessionMetadata (id : string) (metadata' : gmap string Json)
  : Eff SessionManager unit :=
  let! this := get in
  match getSession id this with
  | None => throw (SessionError ("Session not found: " +:+ id) id)
  | Some session =>
      let session := set_metadata (metadata' ∪ metadata session) session in
      modify (λ this, {| sessions := <[id := session]> (sessions this) |})
  end.

Definition endSession (id : string) (now : Z) : Eff SessionManager unit :=
  let! this := get in
  match getSession id this with
  | None => throw (SessionError ("Session not found: " +:+ id) id)
  | Some _ => updateSessionStatus id ENDED now
  end.

Definition deleteSession (id : string) : Eff SessionManager bool :=
  let! this := get in
  modify (λ this, {| sessions := delete id (sessions this) |});;
  ret (bool_decide (is_Some (sessions this !! id))).

(** In the order of [map_to_list], not of insertion. *)
Definition getActiveSessions (this : SessionManager) : list VoiceSession :=
  filter (λ s, status s = ACTIVE ∨ status s = CONNECTING)
         ((map_to_list (sessions this)).*2).

(** The test of the sweep's [if]: a [Date] object is truthy, so
    [session.endedAt &&] asks that the field is set. *)
Definition expired (maxAgeMs now : Z) (session : VoiceSession) : bool :=
  bool_decide (status session = ENDED) &&
  match endedAt session with
  | Some ended => bool_decide (now - ended > maxAgeMs)%Z
  | None => false
  end.

(** One round of the loop over [this.sessions.entries()]; the accumulator
    is the map being deleted from and the counter [cleaned]. Deleting the
    entry at hand does not disturb the iteration over the others, and the
    order of the rounds does not show in the result. *)
Definition cleanup_step (maxAgeMs now : Z) (id : string) (session : VoiceSession)
    (acc : gmap string VoiceSession * nat) : gmap string VoiceSession * nat :=
  if expired maxAgeMs now session
  then (delete id acc.1, S acc.2)
  else acc.

Definition cleanupOldSessions (maxAgeMs : option Z) (now : Z)
  : Eff SessionManager nat :=
  let maxAgeMs := default 3600000%Z maxAgeMs in
  let! this := get in
  let swept :=
    map_fold (cleanup_step maxAgeMs now) (sessions this, 0) (sessions this) in
  modify (λ _, {| sessions := swept.1 |});;
  ret swept.2.

Record Stats : Type := {
  total : nat;
  active : nat;
  ended : nat;
  error : nat
}.

Definition getStats (this : SessionManager) : Stats :=
  let all := (map_to_list (sessions this)).*2 in
  {| total := length all;
     active := length (filter (λ s, status s = ACTIVE) all);
     ended := length (filter (λ s, status s = ENDED) all);
     error := length (filter (λ s, status s = ERROR) all) |}.

(* ===================================================================== *)
(** ** providers/BaseSpeechProvider.ts, providers/BaseLLMProvider.ts *)
(* ===================================================================== *)

(** The two capabilities the agent calls. [inl] is a rejected promise. *)
Record ISpeechProvider : Type := {
  transcribe : Buffer → SessionConfig → Exn + Transcript
}.

(** [complete] gets the request and, through its [messages] reference,
    the contents of the array at the time of the call. *)
Record ILLMProvider : Type := {
  complete : LLMRequest → list ChatMessage → Exn + LLMResponse
}.

(** A listener returns ([None]) or throws. *)
Definition EventListener : Type := VoiceAgentEvent → option Exn.

(* ===================================================================== *)
(** ** VoiceAgent.ts *)
(* ===================================================================== *)

(** The fields of the class, the store of [ChatMessage[]] objects its
    history map points into, and the two sides of the [EventEmitter] it
    extends: the registered listeners and the [emit] calls made so far. *)
Record VoiceAgent : Type := {
  speechProvider : ISpeechProvider;
  llmProvider : ILLMProvider;
  sessionManager : SessionManager;
  systemPrompt : string;
  conversationHistory : gmap string loc;
  arrays : gmap loc (list ChatMessage);
  listeners : list (string * EventListener);
  emitted : list (string * VoiceAgentEvent)
}.

Definition set_sessionManager (x : SessionManager) (this : VoiceAgent) : VoiceAgent :=
  {| speechProvider := speechProvider this; llmProvider := llmProvider this;
     sessionManager := x; systemPrompt := systemPrompt this;
     conversationHistory := conversationHistory this; arrays := arrays this;
     listeners := listeners this; emitted := emitted this |}.

Definition set_conversationHistory (x : gmap string loc) (this : VoiceAgent) : VoiceAgent :=
  {| speechProvider := speechProvider this; llmProvider := llmProvider this;
     sessionManager := sessionManager this; systemPrompt := systemPrompt this;
     conversationHistory := x; arrays := arrays this;
     listeners := listeners this; emitted := emitted this |}.

Definition set_arrays (x : gmap loc (list ChatMessage)) (this : VoiceAgent) : VoiceAgent :=
  {| speechProvider := speechProvider this; llmProvider := llmProvider this;
     sessionManager := sessionManager this; systemPrompt := systemPrompt this;
     conversationHistory := conversationHistory this; arrays := x;
     listeners := listeners this; emitted := emitted this |}.

Definition set_listeners (x : list (string * EventListener)) (this : VoiceAgent) : VoiceAgent :=
  {| speechProvider := speechProvider this; llmProvider := llmProvider this;
     sessionManager := sessionManager this; systemPrompt := systemPrompt this;
     conversationHistory := conversationHistory this; arrays := arrays this;
     listeners := x; emitted := emitted this |}.

Definition set_emitted (x : list (string * VoiceAgentEvent)) (this : VoiceAgent) : VoiceAgent :=
  {| speechProvider := speechProvider this; llmProvider := llmProvider this;
     sessionManager := sessionManager this; systemPrompt := systemPrompt this;
     conversationHistory := conversationHistory this; arrays := arrays this;
     listeners := listeners this; emitted := x |}.

(** A call of a [this.sessionManager] method. *)
Definition on_sessionManager {A} (m : Eff SessionManager A) : Eff VoiceAgent A :=
  λ this, let (r, manager) := m (sessionManager this) in
          (r, set_sessionManager manager this).

(** *** EventEmitter *)

(** The listeners registered under [eventName] are called in registration
    order; the first one that throws ends the round. *)
Fixpoint call_listeners (ls : list (string * EventListener))
    (eventName : string) (event : VoiceAgentEvent) : option Exn :=
  match ls with
  | [] => None
  | (registered, listener) :: rest =>
      if decide (registered = eventName)
      then match listener event with
           | Some e => Some e
           | None => call_listeners rest eventName event
           end
      else call_listeners rest eventName event
  end.

(** [EventEmitter.prototype.emit]: the listeners of the channel are called
    one after the other. The channel [error] is special: an [emit] on it
    with no listener registered throws. *)
Definition dispatch (ls : list (string * EventListener))
    (eventName : string) (event : VoiceAgentEvent) : option Exn :=
  if bool_decide (eventName = "error") &&
     negb (bool_decide (Exists (λ entry, entry.1 = "error") ls))
  then Some "ERR_UNHANDLED_ERROR"
  else call_listeners ls eventName event.

Definition emit (eventName : string) (event : VoiceAgentEvent) : Eff VoiceAgent unit :=
  modify (λ this, set_emitted (emitted this ++ [(eventName, event)]) this);;
  let! this := get in
  match dispatch (listeners this) eventName event with
  | Some e => throw (Propagated event_listener e)
  | None => ret tt
  end.

Definition on (eventName : string) (listener : EventListener) : Eff VoiceAgent unit :=
  modify (λ this, set_listeners (listeners this ++ [(eventName, listener)]) this).

Definition emitEvent (event : VoiceAgentEvent) : Eff VoiceAgent unit :=
  emit "event" event;;
  emit (event_type event) event.

Definition onEvent (listener : EventListener) : Eff VoiceAgent unit :=
  on "event" listener.

(** What the subscribers of one channel were handed, in order. *)
Definition delivered_on (eventName : string)
    (log : list (string * VoiceAgentEvent)) : list VoiceAgentEvent :=
  (filter (λ entry, entry.1 = eventName) log).*2.

(** *** The message arrays *)

(** [[]]: a new, empty array object. *)
Definition new_array : Eff VoiceAgent loc :=
  let! this := get in
  let l := fresh (dom (arrays this)) in
  modify (set_arrays (<[l := []]> (arrays this)));;
  ret l.

Definition read_array (l : loc) (this : VoiceAgent) : list ChatMessage :=
  default [] (arrays this !! l).

(** [history.push(message)]: the array behind the reference grows. *)
Definition push (history : loc) (message : ChatMessage) : Eff VoiceAgent unit :=
  modify (λ this,
    set_arrays (<[history := read_array history this ++ [message]]> (arrays this)) this).

(** [this.conversationHistory.get(sessionId) || []]: an array is truthy
    also when it is empty, so the right operand is taken only when the
    map has no entry. *)
Definition history_or_new (sessionId : string) : Eff VoiceAgent loc :=
  let! this := get in
  match conversationHistory this !! sessionId with
  | Some history => ret history
  | None => new_array
  end.

(** [this.conversationHistory.set(sessionId, history)] *)
Definition conversationHistory_set (sessionId : string) (history : loc)
  : Eff VoiceAgent unit :=
  modify (λ this,
    set_conversationHistory (<[sessionId := history]> (conversationHistory this)) this).

(** [await this.speechProvider.transcribe(audio, config)] *)
Definition await_transcribe (audio : Buffer) (config : SessionConfig)
  : Eff VoiceAgent Transcript :=
  let! this := get in
  match transcribe (speechProvider this) audio config with
  | inl e => throw (Propagated speech_backend e)
  | inr transcript => ret transcript
  end.

(** [await this.llmProvider.complete(llmRequest)] *)
Definition await_complete (llmRequest : LLMRequest) : Eff VoiceAgent LLMResponse :=
  let! this := get in
  match complete (llmProvider this) llmRequest
                 (read_array (messages llmRequest) this) with
  | inl e => throw (Propagated llm_backend e)
  | inr llmResponse => ret llmResponse
  end.

(** *** The methods *)

(** [config] is the argument as passed ([{}] when it is left out). The
    object returned is the one the manager holds, so the caller sees the
    status written by the last line. *)
Definition startSession (config : SessionConfig) (uuid : string) (now : Z)
  : Eff VoiceAgent VoiceSession :=
  let! session := on_sessionManager (createSession config uuid now) in
  let! history := new_array in
  conversationHistory_set (session_id session) history;;
  emitEvent (session_start session);;
  on_sessionManager (updateSessionStatus (session_id session) ACTIVE now);;
  ret (set_status ACTIVE session).

Record ProcessAudioResult : Type := {
  result_transcript : Transcript;
  response : string;
  result_toolCalls : option (list ToolCall)
}.

Definition processAudio (sessionId : string) (audio : Buffer) (now : Z)
  : Eff VoiceAgent ProcessAudioResult :=
  let! this := get in
  match getSession sessionId (sessionManager this) with
  | None =>
      throw (VoiceAgentError ("Session not found: " +:+ sessionId) "SESSION_NOT_FOUND")
  | Some session =>
      (* Step 1: Transcribe audio *)
      emitEvent (audio_input {| data := audio; timestamp := now |});;
      let! transcript := await_transcribe audio (config session) in
      emitEvent (transcript_final transcript);;
      (* Step 2: Get conversation history *)
      let! history := history_or_new sessionId in
      (* Add user message *)
      push history {| role := user; content := text transcript;
                      name := None; toolCallId := None |};;
      (* Step 3: Get LLM response *)
      let llmRequest :=
        {| messages := history;
           request_systemPrompt := Some (systemPrompt this);
           stream := Some false |} in
      emitEvent (llm_start llmRequest);;
      let! llmResponse := await_complete llmRequest in
      emitEvent (llm_response llmResponse);;
      (* Add assistant response to history *)
      push history {| role := assistant; content := response_text llmResponse;
                      name := None; toolCallId := None |};;
      conversationHistory_set sessionId history;;
      (* Handle tool calls if any *)
      match toolCalls llmResponse with
      | Some calls => for_of calls (λ toolCall, emitEvent (tool_call toolCall))
      | None => ret tt
      end;;
      ret {| result_transcript := transcript;
             response := response_text llmResponse;
             result_toolCalls := toolCalls llmResponse |}
  end.

Section ToolResults.

(** [JSON.stringify] on the values a tool hands back: on a [Json] tree it
    returns a string. *)
Variable JSON_stringify : Json → string.

Definition sendToolResult (sessionId : string) (toolCall : ToolCall) (result : Json)
  : Eff VoiceAgent string :=
  let! history := history_or_new sessionId in
  (* Add tool result to history *)
  push history {| role := tool; content := JSON_stringify result;
                  name := Some (toolCall_name toolCall);
                  toolCallId := Some (toolCall_id toolCall) |};;
  (* Get LLM response with tool result *)
  let! this := get in
  let llmRequest :=
    {| messages := history;
       request_systemPrompt := Some (systemPrompt this);
       stream := None |} in
  let! llmResponse := await_complete llmRequest in
  (* Add assistant response *)
  push history {| role := assistant; content := response_text llmResponse;
                  name := None; toolCallId := None |};;
  conversationHistory_set sessionId history;;
  emitEvent (tool_result toolCall result);;
  ret (response_text llmResponse).

End ToolResults.

(** The [session] the event carries is the object the manager has just
    stamped. *)
Definition VoiceAgent_endSession (sessionId : string) (now : Z) : Eff VoiceAgent unit :=
  let! this := get in
  match getSession sessionId (sessionManager this) with
  | None =>
      throw (VoiceAgentError ("Session not found: " +:+ sessionId) "SESSION_NOT_FOUND")
  | Some session =>
      on_sessionManager (endSession sessionId now);;
      modify (λ this,
        set_conversationHistory (delete sessionId (conversationHistory this)) this);;
      emitEvent (session_end (stamp_end now (set_status ENDED session)))
  end.

Definition VoiceAgent_getSession (sessionId : string) (this : VoiceAgent)
  : option VoiceSession :=
  getSession sessionId (sessionManager this).

(** [this.conversationHistory.get(sessionId) || []], read as a value. *)
Definition getConversationHistory (sessionId : string) (this : VoiceAgent)
  : list ChatMessage :=
  match conversationHistory this !! sessionId with
  | Some history => read_array history this
  | None => []
  end.

(* ===================================================================== *)
(** ** Vocabulary of the statements *)
(* ===================================================================== *)

(** The sessions the sweep is after: ended, and ended more than
    [maxAgeMs] before [now]. *)
Definition ended_longer_than (maxAgeMs now : Z) (session : VoiceSession) : Prop :=
  status session = ENDED ∧
  ∃ ended, endedAt session = Some ended ∧ (now - ended > maxAgeMs)%Z.

(** [duration], when set, is [(endedAt - startedAt) / 1000]. *)
Definition duration_matches (session : VoiceSession) : Prop :=
  ∀ d, duration session = Some d →
       ∃ ended, endedAt session = Some ended ∧
                d = Qmake (ended - startedAt session) 1000.

(** What holds of every session of every reachable store. *)
Definition session_ok (session : VoiceSession) : Prop :=
  (status session = ENDED → is_Some (duration session)) ∧
  duration_matches session.

Definition store_ok (this : SessionManager) : Prop :=
  ∀ id session, getSession id this = Some session → session_ok session.

(** One call of a method of the session store, with what it reads from
    its environment. *)
Inductive StoreOp : Type :=
| call_createSession (config : SessionConfig) (uuid : string) (now : Z)
| call_updateSessionStatus (id : string) (status' : SessionStatus) (now : Z)
| call_updateSessionMetadata (id : string) (metadata' : gmap string Json)
| call_endSession (id : string) (now : Z)
| call_deleteSession (id : string)
| call_cleanupOldSessions (maxAgeMs : option Z) (now : Z).

(** The store after the call, whether it returned or threw. *)
Definition run_op (op : StoreOp) (this : SessionManager) : SessionManager :=
  match op with
  | call_createSession config uuid now => (createSession config uuid now this).2
  | call_updateSessionStatus id status' now => (updateSessionStatus id status' now this).2
  | call_updateSessionMetadata id metadata' => (updateSessionMetadata id metadata' this).2
  | call_endSession id now => (endSession id now this).2
  | call_deleteSession id => (deleteSession id this).2
  | call_cleanupOldSessions maxAgeMs now => (cleanupOldSessions maxAgeMs now this).2
  end.

Definition run_ops (ops : list StoreOp) (this : SessionManager) : SessionManager :=
  fold_left (λ this op, run_op op this) ops this.

(** The stores a program can see: those a fresh manager reaches through
    some sequence of calls. *)
Definition reachable (this : SessionManager) : Prop :=
  ∃ ops, this = run_ops ops new_SessionManager.

(** *** Sample data *)

Definition config_with_id (id : option string) : SessionConfig :=
  {| config_id := id; config_language := None; sampleRate := None;
     encoding := None; interruptible := None; endpointing := None;
     config_metadata := None |}.

(** A store holding the one session [s1], created at 1000 and ended at 3000. *)
Definition store_s1_ended : SessionManager :=
  run_ops [call_createSession (config_with_id (Some "s1")) "uuid-1" 1000;
           call_endSession "s1" 3000] new_SessionManager.

(** The same session, taken back to [ACTIVE] afterwards. *)
Definition store_s1_resumed : SessionManager :=
  run_ops [call_updateSessionStatus "s1" ACTIVE 4000] store_s1_ended.

Definition session_s1_ended : VoiceSession :=
  {| session_id := "s1"; status := ENDED; config := config_with_id (Some "s1");
     startedAt := 1000; endedAt := Some 3000%Z;
     duration := Some (Qmake 2000 1000); metadata := ∅ |}.

(** The reference [history_or_new] hands out for [sessionId]: the array
    the map holds, or else a new one. *)
Definition history_ref (sessionId : string) (this : VoiceAgent) : loc :=
  match conversationHistory this !! sessionId with
  | Some history => history
  | None => fresh (dom (arrays this))
  end.

(** No listener throws when [event] is published. *)
Definition accepts (this : VoiceAgent) (event : VoiceAgentEvent) : Prop :=
  dispatch (listeners this) "event" event = None ∧
  dispatch (listeners this) (event_type event) event = None.

(** The [emit] calls [emitEvent] makes for a run of events. *)
Definition emitEvent_log (events : list VoiceAgentEvent)
  : list (string * VoiceAgentEvent) :=
  flat_map (λ event, [("event", event); (event_type event, event)]) events.

Definition user_message (transcript : Transcript) : ChatMessage :=
  {| role := user; content := text transcript; name := None; toolCallId := None |}.

Definition assistant_message (llmResponse : LLMResponse) : ChatMessage :=
  {| role := assistant; content := response_text llmResponse;
     name := None; toolCallId := None |}.

Definition tool_message (content' : string) (toolCall : ToolCall) : ChatMessage :=
  {| role := tool; content := content';
     name := Some (toolCall_name toolCall);
     toolCallId := Some (toolCall_id toolCall) |}.

(** An agent as the constructor leaves it, given its two providers. *)
Definition new_VoiceAgent (speech : ISpeechProvider) (llm : ILLMProvider)
    (prompt : string) : VoiceAgent :=
  {| speechProvider := speech; llmProvider := llm;
     sessionManager := new_SessionManager; systemPrompt := prompt;
     conversationHistory := ∅; arrays := ∅; listeners := []; emitted := [] |}.

Definition sample_transcript : Transcript :=
  {| text := "hours?"; confidence := Qmake 95 100; isFinal := true;
     words := None; transcript_language := None;
     transcript_timestamp := 1500; transcript_duration := None |}.

Definition sample_toolCall : ToolCall :=
  {| toolCall_id := "call-1"; toolCall_name := "lookup_hours"; arguments := ∅ |}.

Definition sample_response : LLMResponse :=
  {| response_text := "9-5 Mon-Fri"; toolCalls := Some [sample_toolCall];
     usage := None; finishReason := Some stop |}.

Definition speech_up : ISpeechProvider :=
  {| transcribe := λ _ _, inr sample_transcript |}.

Definition speech_down : ISpeechProvider :=
  {| transcribe := λ _ _, inl "speech backend unavailable" |}.

Definition llm_up : ILLMProvider :=
  {| complete := λ _ _, inr sample_response |}.

Definition llm_down : ILLMProvider :=
  {| complete := λ _ _, inl "llm backend unavailable" |}.

(** An agent with the session [s1] started at 1000. *)
Definition agent_started (speech : ISpeechProvider) (llm : ILLMProvider) : VoiceAgent :=
  (startSession (config_with_id (Some "s1")) "uuid-1" 1000
     (new_VoiceAgent speech llm "You are a helpful assistant.")).2.

(** The same agent after [endSession("s1")] at 2000. *)
Definition agent_ended (speech : ISpeechProvider) (llm : ILLMProvider) : VoiceAgent :=
  (VoiceAgent_endSession "s1" 2000 (agent_started speech llm)).2.

Definition sample_audio : Buffer := [Byte.x52; Byte.x49; Byte.x46; Byte.x46].

(** The request [processAudio] builds for [sessionId]. *)
Definition turn_request (sessionId : string) (this : VoiceAgent) : LLMRequest :=
  {| messages := history_ref sessionId this;
     request_systemPrompt := Some (systemPrompt this);
     stream := Some false |}.

(** The request [sendToolResult] builds for [sessionId]. *)
Definition tool_request (sessionId : string) (this : VoiceAgent) : LLMRequest :=
  {| messages := history_ref sessionId this;
     request_systemPrompt := Some (systemPrompt this);
     stream := None |}.

(** The array [sendToolResult] works on, after its two pushes, filed
    under the session id. *)
Definition tool_result_filed (sessionId : string) (toolMessage : ChatMessage)
    (llmResponse : LLMResponse) (this : VoiceAgent) : VoiceAgent :=
  set_conversationHistory
    (<[sessionId := history_ref sessionId this]> (conversationHistory this))
    (set_arrays
       (<[history_ref sessionId this :=
            getConversationHistory sessionId this
            ++ [toolMessage; assistant_message llmResponse]]> (arrays this))
       this).

(** The events of one turn that runs to its end. *)
Definition turn_events (audio : Buffer) (now : Z) (transcript : Transcript)
    (llmRequest : LLMRequest) (llmResponse : LLMResponse) : list VoiceAgentEvent :=
  [audio_input {| data := audio; timestamp := now |};
   transcript_final transcript;
   llm_start llmRequest;
   llm_response llmResponse]
  ++ map tool_call (default [] (toolCalls llmResponse)).

(** The session [s1] as [agent_started] holds it. *)
Definition session_s1_active : VoiceSession :=
  {| session_id := "s1"; status := ACTIVE; config := config_with_id (Some "s1");
     startedAt := 1000; endedAt := None; duration := None; metadata := ∅ |}.

(** *** Vocabulary for the agent as a whole *)

(** What no method but [onEvent] writes: the providers, the prompt, the
    listeners. *)
Definition same_setup (this this' : VoiceAgent) : Prop :=
  speechProvider this' = speechProvider this ∧
  llmProvider this' = llmProvider this ∧
  systemPrompt this' = systemPrompt this ∧
  listeners this' = listeners this.

(** [messages'] went onto the array [history_or_new] hands out for
    [sessionId], and the array was filed under the id or not. *)
Definition appended_to (sessionId : string) (messages' : list ChatMessage)
    (filed : bool) (this this' : VoiceAgent) : Prop :=
  arrays this' =
    <[history_ref sessionId this :=
        getConversationHistory sessionId this ++ messages']> (arrays this) ∧
  conversationHistory this' =
    if filed
    then <[sessionId := history_ref sessionId this]> (conversationHistory this)
    else conversationHistory this.

(** Every history entry points to an array of the store, and no two
    entries point to the same array. *)
Definition histories_apart (this : VoiceAgent) : Prop :=
  (∀ id history, conversationHistory this !! id = Some history →
                 is_Some (arrays this !! history)) ∧
  (∀ id1 id2 history,
     conversationHistory this !! id1 = Some history →
     conversationHistory this !! id2 = Some history → id1 = id2).

(** One call of a method of the agent, with what it reads from its
    environment. *)
Inductive AgentOp : Type :=
| call_startSession (config : SessionConfig) (uuid : string) (now : Z)
| call_processAudio (sessionId : string) (audio : Buffer) (now : Z)
| call_sendToolResult (sessionId : string) (toolCall : ToolCall) (result : Json)
| call_VoiceAgent_endSession (sessionId : string) (now : Z)
| call_onEvent (listener : EventListener).

(** The agent after the call, whether it returned or threw. *)
Definition run_agent_op (JSON_stringify : Json → string) (op : AgentOp)
    (this : VoiceAgent) : VoiceAgent :=
  match op with
  | call_startSession config uuid now => (startSession config uuid now this).2
  | call_processAudio sessionId audio now => (processAudio sessionId audio now this).2
  | call_sendToolResult sessionId toolCall result =>
      (sendToolResult JSON_stringify sessionId toolCall result this).2
  | call_VoiceAgent_endSession sessionId now =>
      (VoiceAgent_endSession sessionId now this).2
  | call_onEvent listener => (onEvent listener this).2
  end.

Definition run_agent_ops (JSON_stringify : Json → string) (ops : list AgentOp)
    (this : VoiceAgent) : VoiceAgent :=
  fold_left (λ this op, run_agent_op JSON_stringify op this) ops this.

(** The session [createSession] makes for [config]. *)
Definition created_session (config : SessionConfig) (uuid : string) (now : Z)
  : VoiceSession :=
  {| session_id := string_or (config_id config) uuid;
     status := IDLE;
     config := config;
     startedAt := now;
     endedAt := None;
     duration := None;
     metadata := default ∅ (config_metadata config) |}.

(** [startSession] up to the point where it publishes [session:start]:
    the session is in the store, a new empty array is filed under its
    id. *)
Definition session_filed (session : VoiceSession) (this : VoiceAgent) : VoiceAgent :=
  set_conversationHistory
    (<[session_id session := fresh (dom (arrays this))]> (conversationHistory this))
    (set_arrays
       (<[fresh (dom (arrays this)) := []]> (arrays this))
       (set_sessionManager
          {| sessions :=
               <[session_id session := session]> (sessions (sessionManager this)) |}
          this)).

(** The agents a program can see, given the two providers and the
    prompt. *)
Definition reachable_agent (JSON_stringify : Json → string) (this : VoiceAgent) : Prop :=
  ∃ speech llm prompt ops,
    this = run_agent_ops JSON_stringify ops (new_VoiceAgent speech llm prompt).

(** An agent with the sessions [s1] and [s2] started, and one turn done
    on [s2]. *)
Definition agent_two_sessions : VoiceAgent :=
  run_agent_ops (λ _, "{}")
    [call_startSession (config_with_id (Some "s1")) "uuid-1" 1000;
     call_startSession (config_with_id (Some "s2")) "uuid-2" 1100;
     call_processAudio "s2" sample_audio 1200]
    (new_VoiceAgent speech_up llm_up "You are a helpful assistant.").

(** A listener that throws on every event. *)
Definition failing_listener : EventListener := λ _, Some "listener failed".

(** An agent on which that listener was registered with [onEvent] before
    anything else. *)
Definition agent_with_failing_listener : VoiceAgent :=
  (onEvent failing_listener
     (new_VoiceAgent speech_up llm_up "You are a helpful assistant.")).2.


(** [endSession] on a session that exists, up to the point where it
    publishes [session:end]. *)
Definition session_closed (sessionId : string) (now : Z) (session : VoiceSession)
    (this : VoiceAgent) : VoiceAgent :=
  set_conversationHistory (delete sessionId (conversationHistory this))
    (set_sessionManager
       {| sessions :=
            <[sessionId := stamp_end now (set_status ENDED session)]>
              (sessions (sessionManager this)) |}
       this).

(** The agent with the failing listener, after a [startSession] for [s1]
    that the listener interrupted. *)
Definition agent_start_interrupted : VoiceAgent :=
  (startSession (config_with_id (Some "s1")) "uuid-1" 1000
     agent_with_failing_listener).2.

(** What [processAudio] returns on the samples. *)
Definition sample_result : ProcessAudioResult :=
  {| result_transcript := sample_transcript;
     response := "9-5 Mon-Fri";
     result_toolCalls := Some [sample_toolCall] |}.

(* ===================================================================== *)
(** ** providers/BaseSpeechProvider.ts, BaseLLMProvider.ts,
       AnthropicProvider.ts, DeepgramProvider.ts: the classes *)
(* ===================================================================== *)

Inductive SpeechProvider : Type := speech_deepgram | speech_openai | speech_custom.

Inductive LLMProvider : Type := llm_anthropic | llm_openai | llm_groq | llm_custom.

#[global] Instance SpeechProvider_eq_dec : EqDecision SpeechProvider.
Proof. solve_decision. Defined.

#[global] Instance LLMProvider_eq_dec : EqDecision LLMProvider.
Proof. solve_decision. Defined.

#[global] Instance Role_eq_dec : EqDecision Role.
Proof. solve_decision. Defined.

(** The [options] field of both configurations is never read and is left
    out. *)
Record SpeechProviderConfig : Type := {
  speech_provider : SpeechProvider;
  speech_apiKey : option string;
  speech_model : option string;
  speech_language : option string
}.

Record LLMProviderConfig : Type := {
  llm_provider : LLMProvider;
  llm_apiKey : option string;
  llm_model : string;
  llm_temperature : option Q;
  llm_maxTokens : option Z
}.

(** Truthiness of an optional string: set and not empty. *)
Definition truthy (s : option string) : bool :=
  match s with
  | Some s => if decide (s = "") then false else true
  | None => false
  end.

(** [new ProviderError(message, provider)]: a [VoiceAgentError] whose code
    is [PROVIDER_ERROR] (the provider goes into the details). *)
Definition ProviderError (message provider : string) : Thrown :=
  VoiceAgentError message "PROVIDER_ERROR".

(** [BaseSpeechProvider.validateConfig] *)
Definition BaseSpeechProvider_validateConfig (config : SpeechProviderConfig)
  : Thrown + unit :=
  if negb (truthy (speech_apiKey config)) &&
     negb (bool_decide (speech_provider config = speech_custom))
  then inl (VoiceAgentError "API key is required" "INVALID_CONFIG")
  else inr tt.

(** [BaseLLMProvider.validateConfig] *)
Definition BaseLLMProvider_validateConfig (config : LLMProviderConfig)
  : Thrown + unit :=
  if negb (truthy (llm_apiKey config)) &&
     negb (bool_decide (llm_provider config = llm_custom))
  then inl (VoiceAgentError "API key is required" "INVALID_CONFIG")
  else if decide (llm_model config = "")
  then inl (VoiceAgentError "Model is required" "INVALID_CONFIG")
  else inr tt.

(** The fields of the two base classes. *)
Record BaseSpeechProvider : Type := {
  speech_config : SpeechProviderConfig;
  speech_initialized : bool
}.

Record BaseLLMProvider : Type := {
  llm_config : LLMProviderConfig;
  llm_initialized : bool
}.

(** The constructors of the base classes: keep the configuration, then
    validate it. *)
Definition new_BaseSpeechProvider (config : SpeechProviderConfig)
  : Thrown + BaseSpeechProvider :=
  match BaseSpeechProvider_validateConfig config with
  | inl e => inl e
  | inr _ => inr {| speech_config := config; speech_initialized := false |}
  end.

Definition new_BaseLLMProvider (config : LLMProviderConfig)
  : Thrown + BaseLLMProvider :=
  match BaseLLMProvider_validateConfig config with
  | inl e => inl e
  | inr _ => inr {| llm_config := config; llm_initialized := false |}
  end.

(** [super({ ...config, provider: 'deepgram' })] and
    [super({ ...config, provider: 'anthropic' })]: whatever provider the
    argument names is overwritten. *)
Definition new_DeepgramProvider (config : SpeechProviderConfig)
  : Thrown + BaseSpeechProvider :=
  new_BaseSpeechProvider
    {| speech_provider := speech_deepgram;
       speech_apiKey := speech_apiKey config;
       speech_model := speech_model config;
       speech_language := speech_language config |}.

Definition new_AnthropicProvider (config : LLMProviderConfig)
  : Thrown + BaseLLMProvider :=
  new_BaseLLMProvider
    {| llm_provider := llm_anthropic;
       llm_apiKey := llm_apiKey config;
       llm_model := llm_model config;
       llm_temperature := llm_temperature config;
       llm_maxTokens := llm_maxTokens config |}.

(** [ensureInitialized] of [BaseLLMProvider] *)
Definition ensureInitialized (this : BaseLLMProvider) : Thrown + unit :=
  if llm_initialized this
  then inr tt
  else inl (VoiceAgentError "Provider not initialized. Call initialize() first."
                            "NOT_INITIALIZED").

(** [AnthropicProvider.initialize] and [AnthropicProvider.close] *)
Definition AnthropicProvider_initialize (this : BaseLLMProvider) : BaseLLMProvider :=
  {| llm_config := llm_config this; llm_initialized := true |}.

Definition AnthropicProvider_close (this : BaseLLMProvider) : BaseLLMProvider :=
  {| llm_config := llm_config this; llm_initialized := false |}.

(** An [LLMRequest] with all its fields, as a provider reads it; the
    [messages] are the contents of the array at the call. *)
Record Tool : Type := {
  tool_name : string;
  tool_description : string;
  tool_parameters : Json
}.

Inductive ToolChoice : Type :=
| choice_auto | choice_required | choice_none | choice_named (name : string).

Record CompletionRequest : Type := {
  request_messages : list ChatMessage;
  systemPrompt_of : option string;
  temperature : option Q;
  maxTokens : option Z;
  tools : option (list Tool);
  toolChoice : option ToolChoice;
  stream_of : option bool
}.

(** What a provider reads of a request the agent built: the fields the
    agent does not set are [undefined]. *)
Definition as_CompletionRequest (request : LLMRequest) (contents : list ChatMessage)
  : CompletionRequest :=
  {| request_messages := contents;
     systemPrompt_of := request_systemPrompt request;
     temperature := None;
     maxTokens := None;
     tools := None;
     toolChoice := None;
     stream_of := stream request |}.

(** [BaseLLMProvider.buildMessages] *)
Definition buildMessages (request : CompletionRequest) : list ChatMessage :=
  (if truthy (systemPrompt_of request)
   then [{| role := system; content := default "" (systemPrompt_of request);
            name := None; toolCallId := None |}]
   else [])
  ++ request_messages request.

(** *** What [AnthropicProvider.complete] sends and gets *)

Inductive AnthropicRole : Type := anthropic_user | anthropic_assistant.

Record AnthropicMessage : Type := {
  anthropic_role : AnthropicRole;
  anthropic_content : string
}.

Record AnthropicTool : Type := {
  anthropic_tool_name : string;
  anthropic_tool_description : string;
  input_schema : Json
}.

Inductive AnthropicToolChoice : Type :=
| type_auto | type_any | type_none | type_tool (name : string).

Record MessageCreateParams : Type := {
  param_model : string;
  max_tokens : Z;
  param_temperature : Q;
  param_system : option string;
  param_messages : list AnthropicMessage;
  param_tools : option (list AnthropicTool);
  tool_choice : option AnthropicToolChoice
}.

(** [messages.filter(m => m.role !== 'system').map(...)] *)
Definition anthropicMessages (messages' : list ChatMessage) : list AnthropicMessage :=
  (λ m, {| anthropic_role :=
             match role m with
             | assistant => anthropic_assistant
             | _ => anthropic_user
             end;
           anthropic_content := content m |})
  <$> filter (λ m, role m ≠ system) messages'.

(** [messages.find(m => m.role === 'system')?.content] *)
Definition find_system (messages' : list ChatMessage) : option string :=
  content <$> head (filter (λ m, role m = system) messages').

Definition convertTools (tools' : list Tool) : list AnthropicTool :=
  (λ tool', {| anthropic_tool_name := tool_name tool';
               anthropic_tool_description := tool_description tool';
               input_schema := tool_parameters tool' |}) <$> tools'.

(** An object form with an empty name falls through to [auto]. *)
Definition convertToolChoice (toolChoice' : ToolChoice) : AnthropicToolChoice :=
  match toolChoice' with
  | choice_auto => type_auto
  | choice_required => type_any
  | choice_none => type_none
  | choice_named name' => if decide (name' = "") then type_auto else type_tool name'
  end.

(** [a || b || 4096] on numbers: 0 is falsy. *)
Definition number_or (a : option Z) (b : Z) : Z :=
  match a with
  | Some n => if decide (n = 0%Z) then b else n
  | None => b
  end.

(** The argument of [this.client.messages.create]. *)
Definition messageCreateParams (this : BaseLLMProvider) (request : CompletionRequest)
  : MessageCreateParams :=
  let messages' := buildMessages request in
  {| param_model := llm_model (llm_config this);
     max_tokens :=
       number_or (maxTokens request)
                 (number_or (llm_maxTokens (llm_config this)) 4096);
     param_temperature :=
       default (default (Qmake 1 1) (llm_temperature (llm_config this)))
               (temperature request);
     param_system := find_system messages';
     param_messages := anthropicMessages messages';
     param_tools := convertTools <$> tools request;
     tool_choice := convertToolChoice <$> toolChoice request |}.

(** A content block of a response: text, a tool use, or of another type. *)
Inductive ContentBlock : Type :=
| text_block (text' : string)
| tool_use_block (id name : string) (input : gmap string Json)
| other_block.

Record AnthropicResponse : Type := {
  response_content : list ContentBlock;
  input_tokens : Z;
  output_tokens : Z;
  stop_reason : option string
}.

(** What [convertResponse] builds. It is handed on as an [LLMResponse],
    but its [finishReason] is the backend's [stop_reason] as it came. *)
Record ConvertedResponse : Type := {
  converted_text : string;
  converted_toolCalls : option (list ToolCall);
  converted_usage : Usage;
  converted_finishReason : option string
}.

Definition is_text (block : ContentBlock) : option string :=
  match block with text_block text' => Some text' | _ => None end.

Definition is_tool_use (block : ContentBlock) : option ToolCall :=
  match block with
  | tool_use_block id name' input =>
      Some {| toolCall_id := id; toolCall_name := name'; arguments := input |}
  | _ => None
  end.

(** [response.content.find(c => c.type === 'text')?.text || ''], the
    [tool_use] blocks in order, and the token counts. *)
Definition convertResponse (response' : AnthropicResponse) : ConvertedResponse :=
  let toolUses := omap is_tool_use (response_content response') in
  {| converted_text := default "" (head (omap is_text (response_content response')));
     converted_toolCalls := match toolUses with [] => None | _ => Some toolUses end;
     converted_usage :=
       {| promptTokens := input_tokens response';
          completionTokens := output_tokens response';
          totalTokens := input_tokens response' + output_tokens response' |};
     converted_finishReason := stop_reason response' |}.

(** [AnthropicProvider.complete]. The client is what the call of
    [this.client.messages.create] gives: a response, or a rejection with
    its [message]. *)
Definition AnthropicProvider_complete (this : BaseLLMProvider)
    (client : MessageCreateParams → Exn + AnthropicResponse)
    (request : CompletionRequest) : Thrown + ConvertedResponse :=
  match ensureInitialized this with
  | inl e => inl e
  | inr _ =>
      match client (messageCreateParams this request) with
      | inl message =>
          inl (ProviderError ("Claude completion failed: " +:+ message) "anthropic")
      | inr response' => inr (convertResponse response')
      end
  end.

(** Sample provider data. *)
Definition sample_llm_config : LLMProviderConfig :=
  {| llm_provider := llm_custom; llm_apiKey := Some "key-123";
     llm_model := "claude-3"; llm_temperature := None; llm_maxTokens := Some 0%Z |}.

Definition sample_anthropic_provider : BaseLLMProvider :=
  {| llm_config :=
       {| llm_provider := llm_anthropic; llm_apiKey := Some "key-123";
          llm_model := "claude-3"; llm_temperature := None;
          llm_maxTokens := Some 0%Z |};
     llm_initialized := false |}.

Definition sample_anthropic_response : AnthropicResponse :=
  {| response_content :=
       [other_block; text_block "9-5 Mon-Fri";
        tool_use_block "call-1" "lookup_hours" ∅; text_block "ignored"];
     input_tokens := 12; output_tokens := 7; stop_reason := Some "tool_use" |}.

Definition sample_client : MessageCreateParams → Exn + AnthropicResponse :=
  λ _, inr sample_anthropic_response.

Definition sample_history : list ChatMessage :=
  [{| role := user; content := "hours?"; name := None; toolCallId := None |};
   {| role := system; content := "be brief"; name := None; toolCallId := None |};
   {| role := assistant; content := "9-5"; name := None; toolCallId := None |};
   {| role := tool; content := "{}"; name := Some "lookup_hours";
      toolCallId := Some "call-1" |}].

Definition sample_completion_request : CompletionRequest :=
  {| request_messages := sample_history;
     systemPrompt_of := Some "You are a helpful assistant.";
     temperature := Some (Qmake 0 1);
     maxTokens := Some 0%Z;
     tools := None;
     toolChoice := None;
     stream_of := None |}.

(** No array of the agent holds a [system] message. *)
Definition no_system_message (this : VoiceAgent) : Prop :=
  ∀ history messages',
    arrays this !! history = Some messages' →
    Forall (λ m, role m ≠ system) messages'.

(* ===================================================================== *)
(** ** VoiceAgent.ts: [close] *)
(* ===================================================================== *)

(** [VoiceAgent.close]. [closed] is how the [Promise.all] of the two
    providers' [close] settles: fulfilled ([None]), or rejected with what
    one of them threw. [clock i] is what [new Date()] reads in round [i]
    of the loop. The message arrays stay in the store; no entry points to
    them any more. *)
Definition VoiceAgent_close (closed : option (Origin * Exn)) (clock : nat → Z)
  : Eff VoiceAgent unit :=
  match closed with
  | Some (origin, cause) => throw (Propagated origin cause)
  | None =>
      let! this := get in
      let activeSessions := getActiveSessions (sessionManager this) in
      for_of (zip (seq 0 (List.length activeSessions)) activeSessions)
             (λ round,
                on_sessionManager
                  (endSession (session_id round.2) (clock round.1)));;
      modify (set_conversationHistory ∅)
  end.

(** Every session is stored under its own id. *)
Definition keyed (this : SessionManager) : Prop :=
  ∀ id session, getSession id this = Some session → session_id session = id.

(** The store after the rounds of the loop of [close] over [rounds]. *)
Definition ended_all (clock : nat → Z) (rounds : list (nat * VoiceSession))
    (store : gmap string VoiceSession) : gmap string VoiceSession :=
  fold_left
    (λ store round,
       alter (λ session, stamp_end (clock round.1) (set_status ENDED session))
             (session_id round.2) store)
    rounds store.

(* ===================================================================== *)
(** ** The session store *)
(* ===================================================================== *)

Lemma updateSessionStatus_found id status' now this session :
  getSession id this = Some session →
  updateSessionStatus id status' now this =
    (inr tt,
     {| sessions :=
          <[id := if decide (status' = ENDED)
                  then stamp_end now (set_status status' session)
                  else set_status status' session]> (sessions this) |}).
Proof.
  intros Hfound. unfold updateSessionStatus, bind, get, modify. simpl.
  rewrite Hfound. reflexivity.
Qed.

Lemma updateSessionStatus_missing id status' now this :
  getSession id this = None →
  updateSessionStatus id status' now this =
    (inl (SessionError ("Session not found: " +:+ id) id), this).
Proof.
  intros Hmissing. unfold updateSessionStatus, bind, get. simpl.
  rewrite Hmissing. reflexivity.
Qed.

Lemma endSession_found id now this session :
  getSession id this = Some session →
  endSession id now this =
    (inr tt,
     {| sessions := <[id := stamp_end now (set_status ENDED session)]> (sessions this) |}).
Proof.
  intros Hfound. unfold endSession, bind, get. simpl. rewrite Hfound.
  rewrite (updateSessionStatus_found _ _ _ _ _ Hfound).
  rewrite decide_True by reflexivity. reflexivity.
Qed.

Lemma endSession_missing id now this :
  getSession id this = None →
  endSession id now this =
    (inl (SessionError ("Session not found: " +:+ id) id), this).
Proof.
  intros Hmissing. unfold endSession, bind, get. simpl.
  rewrite Hmissing. reflexivity.
Qed.

(** C1, as the code has it: [createSession] has no duplicate check. With
    an id the caller supplies (not the empty string) that is already in
    the store, the call returns a new [IDLE] session under that id, started
    now and not ended, puts it in the place of the session that was there,
    and leaves every other id as it was. *)
Theorem createSession_existing_id_replaces
    (config : SessionConfig) (uuid : string) (now : Z) (this : SessionManager)
    (id : string) (existing : VoiceSession) :
  config_id config = Some id →
  id ≠ "" →
  getSession id this = Some existing →
  ∃ session this',
    createSession config uuid now this = (inr session, this') ∧
    session_id session = id ∧
    status session = IDLE ∧
    startedAt session = now ∧
    endedAt session = None ∧
    duration session = None ∧
    metadata session = default ∅ (config_metadata config) ∧
    getSession id this' = Some session ∧
    ∀ other, other ≠ id → getSession other this' = getSession other this.
Proof.
  intros Hid Hnonempty _.
  eexists _, _. split; [reflexivity|].
  simpl. rewrite Hid. simpl. rewrite decide_False by exact Hnonempty.
  repeat split.
  - unfold getSession. simpl. apply lookup_insert_eq.
  - intros other Hother. unfold getSession. simpl.
    apply lookup_insert_ne. congruence.
Qed.

Lemma createSession_existing_id_replaces_witness :
  ∃ session this',
    createSession (config_with_id (Some "s1")) "uuid-2" 5000 store_s1_ended
      = (inr session, this') ∧
    session_id session = "s1" ∧
    status session = IDLE ∧
    startedAt session = 5000%Z ∧
    endedAt session = None ∧
    duration session = None ∧
    metadata session = ∅ ∧
    getSession "s1" this' = Some session ∧
    ∀ other, other ≠ "s1" → getSession other this' = getSession other store_s1_ended.
Proof.
  eapply (createSession_existing_id_replaces
            (config_with_id (Some "s1")) "uuid-2" 5000 store_s1_ended "s1").
  - reflexivity.
  - discriminate.
  - vm_compute. reflexivity.
Defined.

(** C1 fails on the code: a second [createSession] with the id [s1] does
    not throw, and the session stored under [s1] is no longer the one that
    was there. *)
Lemma createSession_duplicate_id_counterexample :
  is_Some (getSession "s1" store_s1_ended) ∧
  (∀ e, (createSession (config_with_id (Some "s1")) "uuid-2" 5000 store_s1_ended).1
        ≠ inl e) ∧
  getSession "s1"
    (createSession (config_with_id (Some "s1")) "uuid-2" 5000 store_s1_ended).2
  ≠ getSession "s1" store_s1_ended.
Proof.
  split; [|split].
  - vm_compute. eexists. reflexivity.
  - intros e. vm_compute. discriminate.
  - vm_compute. discriminate.
Qed.

(** C2, as the code has it: a transition to [ENDED] reads the clock every
    time. Whatever the status of the session was, [ENDED] included, the
    call stamps [endedAt] with the current time and sets [duration] to
    [(endedAt - startedAt) / 1000]; the start time and everything else
    stay. So on re-entry [endedAt] keeps its value exactly when the clock
    reads the value it already holds. *)
Theorem updateSessionStatus_ENDED_stamps
    (id : string) (now : Z) (this : SessionManager) (session : VoiceSession) :
  getSession id this = Some session →
  ∃ this' session',
    updateSessionStatus id ENDED now this = (inr tt, this') ∧
    getSession id this' = Some session' ∧
    status session' = ENDED ∧
    startedAt session' = startedAt session ∧
    endedAt session' = Some now ∧
    duration session' = Some (Qmake (now - startedAt session) 1000) ∧
    (endedAt session' = endedAt session ↔ endedAt session = Some now) ∧
    ∀ other, other ≠ id → getSession other this' = getSession other this.
Proof.
  intros Hfound.
  eexists _, _. split.
  { apply updateSessionStatus_found, Hfound. }
  rewrite decide_True by reflexivity.
  split.
  { unfold getSession. simpl. apply lookup_insert_eq. }
  simpl. repeat split; try congruence.
  intros other Hother. unfold getSession. simpl.
  apply lookup_insert_ne. congruence.
Qed.

Lemma updateSessionStatus_ENDED_stamps_witness :
  ∃ this' session',
    updateSessionStatus "s1" ENDED 5000 store_s1_ended = (inr tt, this') ∧
    getSession "s1" this' = Some session' ∧
    status session' = ENDED ∧
    startedAt session' = 1000%Z ∧
    endedAt session' = Some 5000%Z ∧
    duration session' = Some (Qmake 4000 1000) ∧
    (endedAt session' = Some 3000%Z ↔ Some 3000%Z = Some 5000%Z) ∧
    ∀ other, other ≠ "s1" → getSession other this' = getSession other store_s1_ended.
Proof.
  apply (updateSessionStatus_ENDED_stamps "s1" 5000 store_s1_ended session_s1_ended).
  vm_compute. reflexivity.
Defined.

(** C2 fails on the code: [s1] was ended at 3000 with a duration of 2 s;
    ending it again at 5000 moves [endedAt] to 5000 and the duration to
    4 s. *)
Lemma updateSessionStatus_ENDED_twice_counterexample :
  (status <$> getSession "s1" store_s1_ended) = Some ENDED ∧
  (endedAt <$> getSession "s1" store_s1_ended) = Some (Some 3000%Z) ∧
  (duration <$> getSession "s1" store_s1_ended) = Some (Some (Qmake 2000 1000)) ∧
  (endedAt <$> getSession "s1" (updateSessionStatus "s1" ENDED 5000 store_s1_ended).2)
    = Some (Some 5000%Z) ∧
  (duration <$> getSession "s1" (updateSessionStatus "s1" ENDED 5000 store_s1_ended).2)
    = Some (Some (Qmake 4000 1000)).
Proof. vm_compute. repeat split. Qed.

Lemma expired_spec maxAgeMs now session :
  expired maxAgeMs now session = true ↔ ended_longer_than maxAgeMs now session.
Proof.
  unfold expired, ended_longer_than.
  rewrite andb_true_iff, bool_decide_eq_true.
  destruct (endedAt session) as [ended|].
  - rewrite bool_decide_eq_true. split.
    + intros [Hs Hage]. split; [exact Hs|]. exists ended. split; [reflexivity|exact Hage].
    + intros [Hs (ended' & Heq & Hage)]. injection Heq as <-. split; assumption.
  - split.
    + intros [_ Hfalse]. discriminate.
    + intros [_ (ended' & Heq & _)]. discriminate.
Qed.

(** The loop of the sweep, started from any map [all]: after the entries
    of [seen] it has deleted from [all] the expired ones among them and
    counted them. *)
Lemma cleanup_loop maxAgeMs now (all seen : gmap string VoiceSession) :
  map_fold (cleanup_step maxAgeMs now) (all, 0) seen =
    (all ∖ filter (λ entry, expired maxAgeMs now entry.2 = true) seen,
     size (filter (λ entry, expired maxAgeMs now entry.2 = true) seen)).
Proof.
  apply (map_fold_weak_ind
    (λ acc seen,
       acc = (all ∖ filter (λ entry, expired maxAgeMs now entry.2 = true) seen,
              size (filter (λ entry : string * VoiceSession,
                              expired maxAgeMs now entry.2 = true) seen)))).
  - rewrite map_filter_empty, map_difference_empty, map_size_empty. reflexivity.
  - intros id session seen' acc Hfresh ->.
    unfold cleanup_step. simpl.
    destruct (expired maxAgeMs now session) eqn:Hexpired.
    + rewrite map_filter_insert_True by exact Hexpired.
      rewrite map_size_insert_None.
      * f_equal. apply delete_difference.
      * rewrite map_lookup_filter, Hfresh. reflexivity.
    + rewrite map_filter_insert_not'.
      * reflexivity.
      * simpl. rewrite Hexpired. discriminate.
      * intros y Hy. rewrite Hfresh in Hy. discriminate.
Qed.

Lemma cleanupOldSessions_unfold maxAgeMs now this :
  cleanupOldSessions maxAgeMs now this =
    let P := λ entry : string * VoiceSession,
               expired (default 3600000%Z maxAgeMs) now entry.2 = true in
    (inr (size (filter P (sessions this))),
     {| sessions := sessions this ∖ filter P (sessions this) |}).
Proof.
  unfold cleanupOldSessions, bind, get, modify, ret. simpl.
  rewrite cleanup_loop. reflexivity.
Qed.

Lemma cleanup_lookup maxAgeMs now (all : gmap string VoiceSession) id :
  (all ∖ filter (λ entry, expired maxAgeMs now entry.2 = true) all) !! id =
  match all !! id with
  | Some session => if expired maxAgeMs now session then None else Some session
  | None => None
  end.
Proof.
  rewrite lookup_difference, map_lookup_filter.
  destruct (all !! id) as [session|] eqn:Hid; simpl; [|reflexivity].
  destruct (expired maxAgeMs now session) eqn:Hexpired.
  - rewrite option_guard_True by reflexivity. reflexivity.
  - rewrite option_guard_False by discriminate. reflexivity.
Qed.

Lemma cleanup_nothing_left maxAgeMs now (all : gmap string VoiceSession) :
  filter (λ entry, expired maxAgeMs now entry.2 = true)
         (all ∖ filter (λ entry, expired maxAgeMs now entry.2 = true) all) = ∅.
Proof.
  apply map_eq. intros id. rewrite lookup_empty.
  apply eq_None_not_Some. intros [session Hin].
  apply map_lookup_filter_Some in Hin as [Hin Hexpired]. simpl in Hexpired.
  rewrite cleanup_lookup in Hin.
  destruct (all !! id) as [session'|]; [|discriminate].
  destruct (expired maxAgeMs now session') eqn:Hexpired'; [discriminate|].
  congruence.
Qed.

Lemma cleanup_sizes maxAgeMs now (all : gmap string VoiceSession) :
  size (filter (λ entry, expired maxAgeMs now entry.2 = true) all)
  + size (all ∖ filter (λ entry, expired maxAgeMs now entry.2 = true) all)
  = size all.
Proof.
  rewrite <- map_size_disj_union.
  - f_equal. apply map_eq. intros id.
    rewrite lookup_union, cleanup_lookup, map_lookup_filter.
    destruct (all !! id) as [session|]; simpl; [|reflexivity].
    destruct (expired maxAgeMs now session) eqn:Hexpired.
    + rewrite option_guard_True by reflexivity. reflexivity.
    + rewrite option_guard_False by discriminate. reflexivity.
  - apply map_disjoint_spec. intros id x y Hx Hy.
    apply map_lookup_filter_Some in Hx as [Hx Hexpired]. simpl in Hexpired.
    rewrite cleanup_lookup, Hx, Hexpired in Hy. discriminate.
Qed.

(** C8: for every store, every [maxAgeMs] (1 hour when left out) and
    every reading [now] of the clock, [cleanupOldSessions] returns; it
    removes the sessions that are [ENDED] with [now - endedAt > maxAgeMs]
    and no other, every session it keeps is unchanged, the number it
    returns is the number of sessions removed, and a second sweep at the
    same [now] returns 0 and changes nothing. *)
Theorem cleanupOldSessions_sweeps
    (maxAgeMs : option Z) (now : Z) (this : SessionManager) :
  ∃ cleaned this',
    cleanupOldSessions maxAgeMs now this = (inr cleaned, this') ∧
    (∀ id session, getSession id this = Some session →
       ended_longer_than (default 3600000%Z maxAgeMs) now session →
       getSession id this' = None) ∧
    (∀ id session, getSession id this = Some session →
       ¬ ended_longer_than (default 3600000%Z maxAgeMs) now session →
       getSession id this' = Some session) ∧
    (∀ id, getSession id this = None → getSession id this' = None) ∧
    cleaned + size (sessions this') = size (sessions this) ∧
    cleanupOldSessions maxAgeMs now this' = (inr 0, this').
Proof.
  eexists _, _. split; [apply cleanupOldSessions_unfold|].
  simpl. unfold getSession. simpl. repeat split.
  - intros id session Hin Hold. rewrite cleanup_lookup, Hin.
    apply expired_spec in Hold. rewrite Hold. reflexivity.
  - intros id session Hin Hyoung. rewrite cleanup_lookup, Hin.
    destruct (expired _ now session) eqn:Hexpired; [|reflexivity].
    apply expired_spec in Hexpired. contradiction.
  - intros id Hnone. rewrite cleanup_lookup, Hnone. reflexivity.
  - apply cleanup_sizes.
  - rewrite cleanupOldSessions_unfold. simpl.
    rewrite cleanup_nothing_left, map_size_empty, map_difference_empty.
    reflexivity.
Qed.

Lemma cleanupOldSessions_sweeps_witness :
  ∃ cleaned this',
    cleanupOldSessions (Some 1000%Z) 5000 store_s1_ended = (inr cleaned, this') ∧
    getSession "s1" this' = None ∧
    getSession "s2" this' = None ∧
    cleaned + size (sessions this') = size (sessions store_s1_ended) ∧
    cleanupOldSessions (Some 1000%Z) 5000 this' = (inr 0, this').
Proof.
  destruct (cleanupOldSessions_sweeps (Some 1000%Z) 5000 store_s1_ended)
    as (cleaned & this' & Hrun & Hold & _ & Hnone & Hcount & Hagain).
  exists cleaned, this'.
  split; [exact Hrun|]. split; [|split; [|split]].
  - apply (Hold "s1" session_s1_ended).
    + vm_compute. reflexivity.
    + split; [reflexivity|]. exists 3000%Z. split; [reflexivity|]. reflexivity.
  - apply (Hnone "s2"). vm_compute. reflexivity.
  - exact Hcount.
  - exact Hagain.
Defined.

(** *** The duration invariant *)

Lemma stamp_end_ok now status' session :
  session_ok (stamp_end now (set_status status' session)).
Proof.
  split; simpl.
  - intros _. eexists. reflexivity.
  - intros d Hd. simpl in Hd. injection Hd as <-.
    exists now. split; reflexivity.
Qed.

Lemma set_status_ok status' session :
  status' ≠ ENDED → session_ok session → session_ok (set_status status' session).
Proof.
  intros Hne [_ Hmatches]. split; simpl.
  - intros Hended. contradiction.
  - exact Hmatches.
Qed.

Lemma set_metadata_ok metadata' session :
  session_ok session → session_ok (set_metadata metadata' session).
Proof. intros [Hended Hmatches]. split; assumption. Qed.

Lemma store_ok_insert id session this :
  session_ok session → store_ok this →
  store_ok {| sessions := <[id := session]> (sessions this) |}.
Proof.
  intros Hsession Hstore id' session'. unfold getSession. simpl.
  rewrite lookup_insert. destruct (decide (id = id')) as [->|Hne].
  - intros [= <-]. exact Hsession.
  - apply Hstore.
Qed.

Lemma updateSessionStatus_ok id status' now this :
  store_ok this → store_ok (updateSessionStatus id status' now this).2.
Proof.
  intros Hstore.
  destruct (getSession id this) as [session|] eqn:Hfound.
  - rewrite (updateSessionStatus_found _ _ _ _ _ Hfound). simpl.
    apply store_ok_insert; [|exact Hstore].
    destruct (decide (status' = ENDED)) as [->|Hne].
    + apply stamp_end_ok.
    + apply set_status_ok; [exact Hne|]. exact (Hstore _ _ Hfound).
  - rewrite (updateSessionStatus_missing _ _ _ _ Hfound). exact Hstore.
Qed.

Lemma run_op_ok op this : store_ok this → store_ok (run_op op this).
Proof.
  intros Hstore. destruct op as [config uuid now | id status' now | id metadata'
                                | id now | id | maxAgeMs now]; cbn [run_op].
  - simpl. apply store_ok_insert; [|exact Hstore].
    split; simpl; [discriminate|]. intros d Hd. discriminate.
  - apply updateSessionStatus_ok, Hstore.
  - unfold updateSessionMetadata, bind, get, modify. simpl.
    destruct (getSession id this) as [session|] eqn:Hfound; simpl.
    + apply store_ok_insert; [|exact Hstore].
      apply set_metadata_ok. exact (Hstore _ _ Hfound).
    + exact Hstore.
  - destruct (getSession id this) as [session|] eqn:Hfound.
    + rewrite (endSession_found _ _ _ _ Hfound). simpl.
      apply store_ok_insert; [apply stamp_end_ok|exact Hstore].
    + rewrite (endSession_missing _ _ _ Hfound). exact Hstore.
  - simpl. intros id' session. unfold getSession. simpl.
    intros Hin. apply lookup_delete_Some in Hin as [_ Hin].
    exact (Hstore _ _ Hin).
  - rewrite cleanupOldSessions_unfold. simpl.
    intros id' session. unfold getSession. simpl.
    rewrite cleanup_lookup.
    destruct (sessions this !! id') as [session'|] eqn:Hin; [|discriminate].
    destruct (expired _ now session'); [discriminate|].
    intros [= <-]. exact (Hstore _ _ Hin).
Qed.

Lemma run_ops_ok ops : ∀ this, store_ok this → store_ok (run_ops ops this).
Proof.
  induction ops as [|op ops IH]; intros this Hstore; simpl.
  - exact Hstore.
  - apply IH, run_op_ok, Hstore.
Qed.

Lemma new_SessionManager_ok : store_ok new_SessionManager.
Proof. intros id session. unfold getSession. simpl. rewrite lookup_empty. discriminate. Qed.

(** C9, as the code has it: in every store reachable by calls of the
    session store's methods, a session whose status is [ENDED] has its
    duration set, and a duration that is set equals
    [(endedAt - startedAt) / 1000]. The converse half is not claimed: the
    store accepts any transition, and a transition out of [ENDED] leaves
    the duration in place. *)
Theorem reachable_duration_invariant
    (this : SessionManager) (id : string) (session : VoiceSession) :
  reachable this →
  getSession id this = Some session →
  (status session = ENDED → is_Some (duration session)) ∧
  (∀ d, duration session = Some d →
        ∃ ended, endedAt session = Some ended ∧
                 d = Qmake (ended - startedAt session) 1000).
Proof.
  intros [ops ->] Hin.
  exact (run_ops_ok ops _ new_SessionManager_ok id session Hin).
Qed.

Lemma reachable_duration_invariant_witness :
  (status session_s1_ended = ENDED → is_Some (duration session_s1_ended)) ∧
  (∀ d, duration session_s1_ended = Some d →
        ∃ ended, endedAt session_s1_ended = Some ended ∧
                 d = Qmake (ended - startedAt session_s1_ended) 1000).
Proof.
  apply (reachable_duration_invariant store_s1_ended "s1" session_s1_ended).
  - exists [call_createSession (config_with_id (Some "s1")) "uuid-1" 1000;
             call_endSession "s1" 3000].
    reflexivity.
  - vm_compute. reflexivity.
Defined.

(** C9 fails on the code: create [s1], end it, then set it back to
    [ACTIVE]. The store is reachable, the session is not [ENDED], and its
    duration is still set. *)
Lemma duration_iff_ENDED_counterexample :
  reachable store_s1_resumed ∧
  ∃ session,
    getSession "s1" store_s1_resumed = Some session ∧
    status session = ACTIVE ∧
    duration session = Some (Qmake 2000 1000).
Proof.
  split.
  - exists [call_createSession (config_with_id (Some "s1")) "uuid-1" 1000;
             call_endSession "s1" 3000;
             call_updateSessionStatus "s1" ACTIVE 4000].
    reflexivity.
  - eexists. vm_compute. repeat split.
Qed.

(* ===================================================================== *)
(** ** The agent *)
(* ===================================================================== *)

(** *** Running the monad *)

Lemma bind_returned {S A B} (m : Eff S A) (k : A → Eff S B) s a s' :
  m s = (inr a, s') → bind m k s = k a s'.
Proof. intros Hm. unfold bind. rewrite Hm. reflexivity. Qed.

Lemma bind_thrown {S A B} (m : Eff S A) (k : A → Eff S B) s e s' :
  m s = (inl e, s') → bind m k s = (inl e, s').
Proof. intros Hm. unfold bind. rewrite Hm. reflexivity. Qed.

(** If a sequence returns, its first part returned and the rest ran from
    the state the first part left. *)
Lemma bind_inr_inv {S A B} (m : Eff S A) (k : A → Eff S B) s b s'' :
  bind m k s = (inr b, s'') →
  ∃ a s', m s = (inr a, s') ∧ k a s' = (inr b, s'').
Proof.
  unfold bind. destruct (m s) as [[e|a] s'] eqn:Hm.
  - discriminate.
  - intros Hk. exists a, s'. split; [reflexivity|exact Hk].
Qed.

(** *** The event emitter *)

Lemma emit_run eventName event this :
  emit eventName event this =
    (match dispatch (listeners this) eventName event with
     | Some e => inl (Propagated event_listener e)
     | None => inr tt
     end,
     set_emitted (emitted this ++ [(eventName, event)]) this).
Proof.
  unfold emit, bind, modify, get. simpl.
  destruct (dispatch (listeners this) eventName event); reflexivity.
Qed.

Lemma emitted_set_emitted log this : emitted (set_emitted log this) = log.
Proof. reflexivity. Qed.

Lemma set_emitted_set_emitted log log' this :
  set_emitted log' (set_emitted log this) = set_emitted log' this.
Proof. reflexivity. Qed.

(** Brings a state that went through several [emit]s to the form
    [set_emitted (emitted this ++ log) this]. *)
Ltac merge_logs :=
  rewrite ?emitted_set_emitted, ?set_emitted_set_emitted, <- ?app_assoc.

Lemma emitEvent_accepted event this :
  accepts this event →
  emitEvent event this =
    (inr tt, set_emitted (emitted this ++ emitEvent_log [event]) this).
Proof.
  intros [Hany Hkind]. unfold emitEvent.
  erewrite bind_returned; cycle 1.
  { rewrite emit_run, Hany. reflexivity. }
  rewrite emit_run. simpl listeners. rewrite Hkind.
  merge_logs. reflexivity.
Qed.

(** Publishing touches nothing but the log of the emitter; when it returns,
    no listener threw and both channels were served. *)
Lemma emitEvent_inv event this r this' :
  emitEvent event this = (r, this') →
  ∃ log, this' = set_emitted (emitted this ++ log) this ∧
         (r = inr tt → accepts this event ∧ log = emitEvent_log [event]) ∧
         (∀ e, r = inl e → ∃ cause, e = Propagated event_listener cause).
Proof.
  unfold emitEvent, bind. rewrite emit_run.
  destruct (dispatch (listeners this) "event" event) as [e|] eqn:Hany.
  - intros [= <- <-]. eexists. split; [reflexivity|]. split.
    + discriminate.
    + intros e' [= <-]. eexists. reflexivity.
  - rewrite emit_run. simpl listeners.
    destruct (dispatch (listeners this) (event_type event) event)
      as [e|] eqn:Hkind.
    + intros [= <- <-]. merge_logs.
      eexists. split; [reflexivity|]. split.
      * discriminate.
      * intros e' [= <-]. eexists. reflexivity.
    + intros [= <- <-]. merge_logs.
      eexists. split; [reflexivity|]. split.
      * intros _. split; [split; assumption|reflexivity].
      * discriminate.
Qed.

Lemma emitEvent_returned event this u this' :
  emitEvent event this = (inr u, this') →
  accepts this event ∧
  this' = set_emitted (emitted this ++ emitEvent_log [event]) this.
Proof.
  intros Hrun. destruct u.
  destruct (emitEvent_inv _ _ _ _ Hrun) as (log & -> & Hret & _).
  destruct (Hret eq_refl) as [Hacc ->]. split; [exact Hacc|reflexivity].
Qed.

Lemma accepts_set_emitted log this event :
  accepts (set_emitted log this) event ↔ accepts this event.
Proof. reflexivity. Qed.

(** The loop over the tool calls of a completion. *)
Lemma emit_tool_calls_returned calls : ∀ this u this',
  for_of calls (λ toolCall, emitEvent (tool_call toolCall)) this = (inr u, this') →
  Forall (accepts this) (map tool_call calls) ∧
  this' = set_emitted (emitted this ++ emitEvent_log (map tool_call calls)) this.
Proof.
  induction calls as [|toolCall calls IH]; intros this u this' Hrun.
  - injection Hrun as _ <-. split; [constructor|].
    destruct this. unfold set_emitted. simpl.
    rewrite app_nil_r. reflexivity.
  - simpl in Hrun. apply bind_inr_inv in Hrun as (u' & mid & Hfirst & Hrest).
    apply emitEvent_returned in Hfirst as [Hacc ->].
    apply IH in Hrest as [Haccs ->]. split.
    + constructor; [exact Hacc|].
      eapply Forall_impl; [exact Haccs|].
      intros event. apply accepts_set_emitted.
    + merge_logs. reflexivity.
Qed.

Lemma emit_tool_calls_accepted calls : ∀ this,
  (∀ toolCall, toolCall ∈ calls → accepts this (tool_call toolCall)) →
  for_of calls (λ toolCall, emitEvent (tool_call toolCall)) this =
    (inr tt, set_emitted (emitted this ++ emitEvent_log (map tool_call calls)) this).
Proof.
  induction calls as [|toolCall calls IH]; intros this Hacc.
  - destruct this. unfold set_emitted. simpl. rewrite app_nil_r. reflexivity.
  - simpl for_of. erewrite bind_returned; cycle 1.
    { apply emitEvent_accepted, Hacc. left. }
    rewrite IH.
    + merge_logs. reflexivity.
    + intros toolCall' Hin. apply (Hacc toolCall'). right. exact Hin.
Qed.

(** *** The message arrays *)

Lemma history_or_new_run sessionId this :
  history_or_new sessionId this =
    (inr (history_ref sessionId this),
     match conversationHistory this !! sessionId with
     | Some _ => this
     | None => set_arrays (<[history_ref sessionId this := []]> (arrays this)) this
     end).
Proof.
  unfold history_or_new, history_ref, bind, get. simpl.
  destruct (conversationHistory this !! sessionId); reflexivity.
Qed.

(** *** One turn *)

Lemma get_inv {S} (s a s' : S) : get s = (inr a, s') → a = s ∧ s' = s.
Proof. intros [= <- <-]. split; reflexivity. Qed.

Lemma modify_inv {S} (f : S → S) (s s' : S) u : modify f s = (inr u, s') → s' = f s.
Proof. unfold modify. intros Hrun. congruence. Qed.

(** Splits the first call off a returning sequence [H]. *)
Ltac first_call H Hfirst :=
  let a := fresh "a" in
  let mid := fresh "mid" in
  apply bind_inr_inv in H as (a & mid & Hfirst & H).

(** Reads a field through the setters around a state. *)
Ltac project :=
  cbn [speechProvider llmProvider sessionManager systemPrompt
       conversationHistory arrays listeners emitted
       set_sessionManager set_conversationHistory set_arrays
       set_listeners set_emitted] in *.

(** Brings a state built by setters over a record to a record again. *)
Ltac flatten_in H :=
  unfold set_sessionManager, set_conversationHistory, set_arrays,
         set_listeners, set_emitted, read_array in H;
  cbn [speechProvider llmProvider sessionManager systemPrompt
       conversationHistory arrays listeners emitted messages] in H.

Ltac flatten :=
  unfold set_sessionManager, set_conversationHistory, set_arrays,
         set_listeners, set_emitted, read_array;
  cbn [speechProvider llmProvider sessionManager systemPrompt
       conversationHistory arrays listeners emitted messages].

Lemma await_transcribe_run audio config this :
  await_transcribe audio config this =
    (match transcribe (speechProvider this) audio config with
     | inl e => inl (Propagated speech_backend e)
     | inr transcript => inr transcript
     end, this).
Proof.
  unfold await_transcribe, bind, get. simpl.
  destruct (transcribe (speechProvider this) audio config); reflexivity.
Qed.

Lemma await_complete_run llmRequest this :
  await_complete llmRequest this =
    (match complete (llmProvider this) llmRequest
                    (read_array (messages llmRequest) this) with
     | inl e => inl (Propagated llm_backend e)
     | inr llmResponse => inr llmResponse
     end, this).
Proof.
  unfold await_complete, bind, get. simpl.
  destruct (complete (llmProvider this) llmRequest _); reflexivity.
Qed.


(** Runs the first call of a sequence forward, given how it ends. *)
Ltac call_returns tac :=
  etransitivity; [apply bind_returned; tac|]; cbv beta.
Ltac call_throws tac :=
  etransitivity; [apply bind_thrown; tac|]; cbv beta.

(** C7: when the session exists and the speech backend rejects the audio
    (the listeners having let the [audio:input] event through, or the
    backend would not have been called), [processAudio] throws what the
    backend threw; the only events of the turn are the two deliveries of
    [audio:input], one per channel; and nothing else in the agent has
    changed: the sessions, the history map and every message array are
    as before, so the history of the session reads as it did. *)
Theorem processAudio_transcription_failure
    (sessionId : string) (audio : Buffer) (now : Z) (this : VoiceAgent)
    (session : VoiceSession) (e : Exn) :
  getSession sessionId (sessionManager this) = Some session →
  accepts this (audio_input {| data := audio; timestamp := now |}) →
  transcribe (speechProvider this) audio (config session) = inl e →
  ∃ this',
    processAudio sessionId audio now this
      = (inl (Propagated speech_backend e), this') ∧
    this' = set_emitted
              (emitted this ++
               [("event", audio_input {| data := audio; timestamp := now |});
                ("audio:input", audio_input {| data := audio; timestamp := now |})])
              this ∧
    delivered_on "event" (drop (List.length (emitted this)) (emitted this'))
      = [audio_input {| data := audio; timestamp := now |}] ∧
    sessionManager this' = sessionManager this ∧
    conversationHistory this' = conversationHistory this ∧
    arrays this' = arrays this ∧
    getConversationHistory sessionId this' = getConversationHistory sessionId this.
Proof.
  intros Hfound Haccepts Hspeech.
  eexists. split.
  - unfold processAudio.
    call_returns ltac:(reflexivity). rewrite Hfound.
    call_returns ltac:(apply emitEvent_accepted, Haccepts).
    call_throws ltac:(rewrite await_transcribe_run; project;
                      rewrite Hspeech; reflexivity).
    reflexivity.
  - split; [reflexivity|]. split.
    + project. rewrite drop_app_length. reflexivity.
    + repeat split.
Qed.

Lemma tool_calls_accepted (calls : option (list ToolCall)) this :
  Forall (accepts this) (map tool_call (default [] calls)) →
  match calls with
  | Some calls => for_of calls (λ toolCall, emitEvent (tool_call toolCall))
  | None => ret tt
  end this
  = (inr tt,
     set_emitted
       (emitted this ++ emitEvent_log (map tool_call (default [] calls))) this).
Proof.
  intros Hacc. destruct calls as [calls|]; simpl in *.
  - apply emit_tool_calls_accepted. intros toolCall Hin.
    rewrite Forall_forall in Hacc. apply Hacc.
    apply list_elem_of_fmap. exists toolCall. split; [reflexivity|exact Hin].
  - destruct this. unfold ret, set_emitted. simpl. rewrite app_nil_r. reflexivity.
Qed.

(** The turn run forward: with the session in place, both backends
    answering and the listeners letting the events of the turn through,
    [processAudio] returns, and this is the state it leaves. *)
Lemma processAudio_returns sessionId audio now this session transcript llmResponse :
  getSession sessionId (sessionManager this) = Some session →
  transcribe (speechProvider this) audio (config session) = inr transcript →
  complete (llmProvider this) (turn_request sessionId this)
    (getConversationHistory sessionId this ++ [user_message transcript])
    = inr llmResponse →
  Forall (accepts this)
    (turn_events audio now transcript (turn_request sessionId this) llmResponse) →
  processAudio sessionId audio now this =
    (inr {| result_transcript := transcript;
            response := response_text llmResponse;
            result_toolCalls := toolCalls llmResponse |},
     set_emitted
       (emitted this ++
        emitEvent_log
          (turn_events audio now transcript (turn_request sessionId this) llmResponse))
       (set_conversationHistory
          (<[sessionId := history_ref sessionId this]> (conversationHistory this))
          (set_arrays
             (<[history_ref sessionId this :=
                  getConversationHistory sessionId this
                  ++ [user_message transcript; assistant_message llmResponse]]>
                (arrays this))
             this))).
Proof.
  intros Hfound Hspeech Hllm Hacc.
  unfold turn_events in Hacc.
  apply Forall_app in Hacc as [Hacc Hcalls].
  apply Forall_cons in Hacc as [Hacc1 Hacc].
  apply Forall_cons in Hacc as [Hacc2 Hacc].
  apply Forall_cons in Hacc as [Hacc3 Hacc].
  apply Forall_cons in Hacc as [Hacc4 _].
  unfold turn_events, turn_request, getConversationHistory, history_ref in *.
  destruct this as [speech llm manager prompt ledger heap ls log].
  cbn [speechProvider llmProvider sessionManager systemPrompt
       conversationHistory arrays listeners emitted] in *.
  flatten_in Hllm. unfold user_message in Hllm.
  cbn [default from_option] in Hllm; unfold id in Hllm.
  unfold processAudio.
  call_returns ltac:(reflexivity). flatten. rewrite Hfound.
  call_returns ltac:(apply emitEvent_accepted, Hacc1). flatten.
  call_returns ltac:(rewrite await_transcribe_run; flatten;
                     rewrite Hspeech; reflexivity).
  call_returns ltac:(apply emitEvent_accepted, Hacc2). flatten.
  call_returns ltac:(apply history_or_new_run). unfold history_ref. flatten.
  destruct (ledger !! sessionId) as [history|] eqn:Hledger.
  all: call_returns ltac:(reflexivity); flatten.
  all: rewrite ?lookup_insert_eq, ?insert_insert_eq.
  all: cbn [default from_option]; unfold id.
  all: call_returns ltac:(apply emitEvent_accepted, Hacc3); flatten.
  all: call_returns ltac:(rewrite await_complete_run; flatten;
                          rewrite ?lookup_insert_eq;
                          cbn [default from_option]; unfold id;
                          rewrite Hllm; reflexivity).
  all: call_returns ltac:(apply emitEvent_accepted, Hacc4); flatten.
  all: call_returns ltac:(reflexivity); flatten.
  all: rewrite ?lookup_insert_eq, ?insert_insert_eq.
  all: cbn [default from_option]; unfold id.
  all: call_returns ltac:(reflexivity); flatten.
  all: call_returns ltac:(apply tool_calls_accepted, Hcalls); flatten.
  all: unfold ret, emitEvent_log, user_message, assistant_message.
  all: cbn [flat_map app event_type]; rewrite ?flat_map_app.
  all: cbn [flat_map app event_type].
  all: rewrite <- ?app_assoc; cbn [app].
  all: reflexivity.
Qed.

Lemma event_type_not_event event : event_type event ≠ "event".
Proof. destruct event; discriminate. Qed.

(** A subscriber of the channel [event] sees each published event once. *)
Lemma delivered_on_event_log events :
  delivered_on "event" (emitEvent_log events) = events.
Proof.
  unfold delivered_on. induction events as [|event events IH]; [reflexivity|].
  change (emitEvent_log (event :: events))
    with (("event", event) :: (event_type event, event) :: emitEvent_log events).
  rewrite filter_cons_True by reflexivity.
  rewrite filter_cons_False by apply event_type_not_event.
  rewrite fmap_cons. cbn [snd]. f_equal. exact IH.
Qed.

Lemma getConversationHistory_filed sessionId history messages' log this :
  getConversationHistory sessionId
    (set_emitted log
       (set_conversationHistory (<[sessionId := history]> (conversationHistory this))
          (set_arrays (<[history := messages']> (arrays this)) this)))
  = messages'.
Proof.
  unfold getConversationHistory, read_array. project.
  rewrite !lookup_insert_eq. reflexivity.
Qed.


Lemma tool_calls_step (calls : option (list ToolCall)) this u this' :
  match calls with
  | Some calls => for_of calls (λ toolCall, emitEvent (tool_call toolCall))
  | None => ret tt
  end this = (inr u, this') →
  Forall (accepts this) (map tool_call (default [] calls)).
Proof.
  destruct calls as [calls|]; simpl.
  - intros Hrun. apply emit_tool_calls_returned in Hrun as [Hacc _]. exact Hacc.
  - intros _. constructor.
Qed.

(** The converse: a turn returns only that way. If [processAudio]
    returns, then the session was there, both backends answered, no
    listener threw on an event of the turn, and the result and the state
    are those of [processAudio_returns]. *)
Lemma processAudio_returned sessionId audio now this r this' :
  processAudio sessionId audio now this = (inr r, this') →
  ∃ session transcript llmResponse,
    getSession sessionId (sessionManager this) = Some session ∧
    transcribe (speechProvider this) audio (config session) = inr transcript ∧
    complete (llmProvider this) (turn_request sessionId this)
      (getConversationHistory sessionId this ++ [user_message transcript])
      = inr llmResponse ∧
    Forall (accepts this)
      (turn_events audio now transcript (turn_request sessionId this) llmResponse) ∧
    r = {| result_transcript := transcript;
           response := response_text llmResponse;
           result_toolCalls := toolCalls llmResponse |} ∧
    getConversationHistory sessionId this'
      = getConversationHistory sessionId this
        ++ [user_message transcript; assistant_message llmResponse].
Proof.
  intros Hrun.
  cut (∃ session transcript llmResponse,
         getSession sessionId (sessionManager this) = Some session ∧
         transcribe (speechProvider this) audio (config session) = inr transcript ∧
         complete (llmProvider this) (turn_request sessionId this)
           (getConversationHistory sessionId this ++ [user_message transcript])
           = inr llmResponse ∧
         Forall (accepts this)
           (turn_events audio now transcript (turn_request sessionId this)
                        llmResponse)).
  { intros (session & transcript & llmResponse & Hfound & Hspeech & Hllm & Hacc).
    exists session, transcript, llmResponse.
    rewrite (processAudio_returns _ _ _ _ _ _ _ Hfound Hspeech Hllm Hacc) in Hrun.
    injection Hrun as <- <-.
    repeat (split; [assumption || reflexivity|]).
    apply getConversationHistory_filed. }
  unfold processAudio in Hrun.
  unfold turn_events, turn_request, getConversationHistory, history_ref.
  destruct this as [speech llm manager prompt ledger heap ls log].
  cbn [speechProvider llmProvider sessionManager systemPrompt
       conversationHistory arrays listeners emitted].
  first_call Hrun Hget. apply get_inv in Hget as [-> ->]. flatten_in Hrun.
  destruct (getSession sessionId manager) as [session|] eqn:Hfound;
    [|discriminate].
  exists session.
  first_call Hrun Hemit1. apply emitEvent_returned in Hemit1 as [Hacc1 ->].
  flatten_in Hrun.
  first_call Hrun Htranscribe.
  rewrite await_transcribe_run in Htranscribe. flatten_in Htranscribe.
  destruct (transcribe speech audio (config session))
    as [e|transcript] eqn:Hspeech; [discriminate|].
  injection Htranscribe as <- <-.
  exists transcript.
  first_call Hrun Hemit2. apply emitEvent_returned in Hemit2 as [Hacc2 ->].
  flatten_in Hrun.
  first_call Hrun Hhistory.
  rewrite history_or_new_run in Hhistory. unfold history_ref in Hhistory.
  flatten_in Hhistory.
  destruct (ledger !! sessionId) as [history|] eqn:Hledger.
  all: injection Hhistory as <- <-.
  all: first_call Hrun Hpush1; apply modify_inv in Hpush1 as ->; flatten_in Hrun.
  all: rewrite ?lookup_insert_eq, ?insert_insert_eq in Hrun.
  all: cbn [default from_option] in Hrun; unfold id in Hrun.
  all: first_call Hrun Hemit3; apply emitEvent_returned in Hemit3 as [Hacc3 ->].
  all: flatten_in Hrun.
  all: first_call Hrun Hcomplete; rewrite await_complete_run in Hcomplete.
  all: flatten_in Hcomplete.
  all: rewrite ?lookup_insert_eq in Hcomplete.
  all: cbn [default from_option] in Hcomplete; unfold id in Hcomplete.
  all: match type of Hcomplete with
       | context [complete ?p ?q ?h] =>
           destruct (complete p q h) as [e|llmResponse] eqn:Hllm; [discriminate|]
       end.
  all: injection Hcomplete as <- <-; exists llmResponse.
  all: first_call Hrun Hemit4; apply emitEvent_returned in Hemit4 as [Hacc4 ->].
  all: flatten_in Hrun.
  all: first_call Hrun Hpush2; apply modify_inv in Hpush2 as ->; flatten_in Hrun.
  all: first_call Hrun Hset; apply modify_inv in Hset as ->; flatten_in Hrun.
  all: first_call Hrun Hcalls; apply tool_calls_step in Hcalls.
  all: split; [reflexivity|]; split; [reflexivity|]; split; [exact Hllm|].
  all: apply Forall_app; split; [|exact Hcalls].
  all: repeat (constructor; [assumption|]); constructor.
Qed.

(** C3: in a turn on an existing session in which the speech backend
    returns [transcript] and the completion backend, called on the history
    with the user message appended, returns [llmResponse] (no listener
    throwing on the events of the turn), [processAudio] returns the
    transcript, the text of the completion and its tool calls, and the
    history of the session is the history from before followed by exactly
    two messages: a [user] message with the text of the transcript, then
    an [assistant] message with the text of the completion. *)
Theorem processAudio_appends_user_then_assistant
    (sessionId : string) (audio : Buffer) (now : Z) (this : VoiceAgent)
    (session : VoiceSession) (transcript : Transcript) (llmResponse : LLMResponse) :
  getSession sessionId (sessionManager this) = Some session →
  transcribe (speechProvider this) audio (config session) = inr transcript →
  complete (llmProvider this) (turn_request sessionId this)
    (getConversationHistory sessionId this ++
     [{| role := user; content := text transcript;
         name := None; toolCallId := None |}])
    = inr llmResponse →
  Forall (accepts this)
    (turn_events audio now transcript (turn_request sessionId this) llmResponse) →
  ∃ this',
    processAudio sessionId audio now this
      = (inr {| result_transcript := transcript;
                response := response_text llmResponse;
                result_toolCalls := toolCalls llmResponse |}, this') ∧
    getConversationHistory sessionId this'
      = getConversationHistory sessionId this ++
        [{| role := user; content := text transcript;
            name := None; toolCallId := None |};
         {| role := assistant; content := response_text llmResponse;
            name := None; toolCallId := None |}].
Proof.
  intros Hfound Hspeech Hllm Hacc.
  eexists. split.
  - apply (processAudio_returns _ _ _ _ _ _ _ Hfound Hspeech Hllm Hacc).
  - apply getConversationHistory_filed.
Qed.

Lemma processAudio_appends_user_then_assistant_witness :
  ∃ this',
    processAudio "s1" sample_audio 3000 (agent_started speech_up llm_up)
      = (inr {| result_transcript := sample_transcript;
                response := "9-5 Mon-Fri";
                result_toolCalls := Some [sample_toolCall] |}, this') ∧
    getConversationHistory "s1" this'
      = getConversationHistory "s1" (agent_started speech_up llm_up) ++
        [{| role := user; content := "hours?"; name := None; toolCallId := None |};
         {| role := assistant; content := "9-5 Mon-Fri";
            name := None; toolCallId := None |}].
Proof.
  apply (processAudio_appends_user_then_assistant
           "s1" sample_audio 3000 (agent_started speech_up llm_up)
           session_s1_active sample_transcript sample_response).
  - vm_compute. reflexivity.
  - reflexivity.
  - reflexivity.
  - repeat constructor.
Defined.

(** C5: in such a turn the [emit] calls made are those of [emitEvent] on
    [audio:input], [transcript:final], [llm:start], [llm:response] and
    then one [tool:call] per tool call of the completion, in the order of
    its array, and no other; so a subscriber of the channel [event] is
    handed exactly that sequence. *)
Theorem processAudio_event_order
    (sessionId : string) (audio : Buffer) (now : Z) (this : VoiceAgent)
    (session : VoiceSession) (transcript : Transcript) (llmResponse : LLMResponse) :
  getSession sessionId (sessionManager this) = Some session →
  transcribe (speechProvider this) audio (config session) = inr transcript →
  complete (llmProvider this) (turn_request sessionId this)
    (getConversationHistory sessionId this ++ [user_message transcript])
    = inr llmResponse →
  Forall (accepts this)
    (turn_events audio now transcript (turn_request sessionId this) llmResponse) →
  ∃ r this' published,
    processAudio sessionId audio now this = (inr r, this') ∧
    emitted this' = emitted this ++ published ∧
    published =
      emitEvent_log
        ([audio_input {| data := audio; timestamp := now |};
          transcript_final transcript;
          llm_start (turn_request sessionId this);
          llm_response llmResponse]
         ++ map tool_call (default [] (toolCalls llmResponse))) ∧
    delivered_on "event" published =
      [audio_input {| data := audio; timestamp := now |};
       transcript_final transcript;
       llm_start (turn_request sessionId this);
       llm_response llmResponse]
      ++ map tool_call (default [] (toolCalls llmResponse)).
Proof.
  intros Hfound Hspeech Hllm Hacc.
  eexists _, _, _. split.
  - apply (processAudio_returns _ _ _ _ _ _ _ Hfound Hspeech Hllm Hacc).
  - split; [reflexivity|]. split; [reflexivity|].
    apply delivered_on_event_log.
Qed.

Lemma processAudio_event_order_witness :
  ∃ r this' published,
    processAudio "s1" sample_audio 3000 (agent_started speech_up llm_up)
      = (inr r, this') ∧
    emitted this' = emitted (agent_started speech_up llm_up) ++ published ∧
    published =
      emitEvent_log
        ([audio_input {| data := sample_audio; timestamp := 3000 |};
          transcript_final sample_transcript;
          llm_start (turn_request "s1" (agent_started speech_up llm_up));
          llm_response sample_response]
         ++ map tool_call (default [] (toolCalls sample_response))) ∧
    delivered_on "event" published =
      [audio_input {| data := sample_audio; timestamp := 3000 |};
       transcript_final sample_transcript;
       llm_start (turn_request "s1" (agent_started speech_up llm_up));
       llm_response sample_response]
      ++ map tool_call (default [] (toolCalls sample_response)).
Proof.
  apply (processAudio_event_order
           "s1" sample_audio 3000 (agent_started speech_up llm_up)
           session_s1_active sample_transcript sample_response).
  - vm_compute. reflexivity.
  - reflexivity.
  - reflexivity.
  - repeat constructor.
Defined.

Lemma processAudio_transcription_failure_witness :
  ∃ this',
    processAudio "s1" sample_audio 3000 (agent_started speech_down llm_up)
      = (inl (Propagated speech_backend "speech backend unavailable"), this') ∧
    this' = set_emitted
              (emitted (agent_started speech_down llm_up) ++
               [("event", audio_input {| data := sample_audio; timestamp := 3000 |});
                ("audio:input",
                 audio_input {| data := sample_audio; timestamp := 3000 |})])
              (agent_started speech_down llm_up) ∧
    delivered_on "event"
      (drop (List.length (emitted (agent_started speech_down llm_up))) (emitted this'))
      = [audio_input {| data := sample_audio; timestamp := 3000 |}] ∧
    sessionManager this' = sessionManager (agent_started speech_down llm_up) ∧
    conversationHistory this' = conversationHistory (agent_started speech_down llm_up) ∧
    arrays this' = arrays (agent_started speech_down llm_up) ∧
    getConversationHistory "s1" this'
      = getConversationHistory "s1" (agent_started speech_down llm_up).
Proof.
  apply (processAudio_transcription_failure
           "s1" sample_audio 3000 (agent_started speech_down llm_up)
           session_s1_active "speech backend unavailable").
  - vm_compute. reflexivity.
  - split; reflexivity.
  - reflexivity.
Defined.

(** *** A completion that fails *)

(** The turn up to a rejected completion: the user message has been
    pushed onto the array [history_or_new] handed out, and that is all.
    The array is the one the map holds when it holds one; when it holds
    none, the array is a new one that no map entry points to. *)
Lemma processAudio_completion_rejected
    sessionId audio now this session transcript e :
  getSession sessionId (sessionManager this) = Some session →
  transcribe (speechProvider this) audio (config session) = inr transcript →
  Forall (accepts this)
    [audio_input {| data := audio; timestamp := now |};
     transcript_final transcript;
     llm_start (turn_request sessionId this)] →
  complete (llmProvider this) (turn_request sessionId this)
    (getConversationHistory sessionId this ++ [user_message transcript])
    = inl e →
  processAudio sessionId audio now this =
    (inl (Propagated llm_backend e),
     set_emitted
       (emitted this ++
        emitEvent_log
          [audio_input {| data := audio; timestamp := now |};
           transcript_final transcript;
           llm_start (turn_request sessionId this)])
       (set_arrays
          (<[history_ref sessionId this :=
               getConversationHistory sessionId this ++ [user_message transcript]]>
             (arrays this))
          this)).
Proof.
  intros Hfound Hspeech Hacc Hllm.
  apply Forall_cons in Hacc as [Hacc1 Hacc].
  apply Forall_cons in Hacc as [Hacc2 Hacc].
  apply Forall_cons in Hacc as [Hacc3 _].
  unfold turn_request, getConversationHistory, history_ref in *.
  destruct this as [speech llm manager prompt ledger heap ls log].
  cbn [speechProvider llmProvider sessionManager systemPrompt
       conversationHistory arrays listeners emitted] in *.
  flatten_in Hllm. unfold user_message in Hllm.
  cbn [default from_option] in Hllm; unfold id in Hllm.
  unfold processAudio.
  call_returns ltac:(reflexivity). flatten. rewrite Hfound.
  call_returns ltac:(apply emitEvent_accepted, Hacc1). flatten.
  call_returns ltac:(rewrite await_transcribe_run; flatten;
                     rewrite Hspeech; reflexivity).
  call_returns ltac:(apply emitEvent_accepted, Hacc2). flatten.
  call_returns ltac:(apply history_or_new_run). unfold history_ref. flatten.
  destruct (ledger !! sessionId) as [history|] eqn:Hledger.
  all: call_returns ltac:(reflexivity); flatten.
  all: rewrite ?lookup_insert_eq, ?insert_insert_eq.
  all: cbn [default from_option]; unfold id.
  all: call_returns ltac:(apply emitEvent_accepted, Hacc3); flatten.
  all: call_throws ltac:(rewrite await_complete_run; flatten;
                         rewrite ?lookup_insert_eq;
                         cbn [default from_option]; unfold id;
                         rewrite Hllm; reflexivity).
  all: unfold emitEvent_log, user_message.
  all: cbn [flat_map app event_type].
  all: rewrite <- ?app_assoc; cbn [app].
  all: reflexivity.
Qed.

(** With a history filed under the session id, the failed turn leaves it
    one message longer: the user message stays. *)
Lemma processAudio_completion_failure_keeps_user_message
    sessionId audio now this session transcript e history :
  getSession sessionId (sessionManager this) = Some session →
  conversationHistory this !! sessionId = Some history →
  transcribe (speechProvider this) audio (config session) = inr transcript →
  Forall (accepts this)
    [audio_input {| data := audio; timestamp := now |};
     transcript_final transcript;
     llm_start (turn_request sessionId this)] →
  complete (llmProvider this) (turn_request sessionId this)
    (getConversationHistory sessionId this ++ [user_message transcript])
    = inl e →
  ∃ this',
    processAudio sessionId audio now this = (inl (Propagated llm_backend e), this') ∧
    getConversationHistory sessionId this'
      = getConversationHistory sessionId this ++ [user_message transcript].
Proof.
  intros Hfound Hledger Hspeech Hacc Hllm.
  eexists. split.
  - apply (processAudio_completion_rejected _ _ _ _ _ _ _ Hfound Hspeech Hacc Hllm).
  - unfold getConversationHistory, history_ref, read_array. project.
    rewrite Hledger. rewrite lookup_insert_eq. reflexivity.
Qed.

(** Without one, the failed turn leaves none: the user message went onto
    an array that was never filed. *)
Lemma processAudio_completion_failure_drops_user_message
    sessionId audio now this session transcript e :
  getSession sessionId (sessionManager this) = Some session →
  conversationHistory this !! sessionId = None →
  transcribe (speechProvider this) audio (config session) = inr transcript →
  Forall (accepts this)
    [audio_input {| data := audio; timestamp := now |};
     transcript_final transcript;
     llm_start (turn_request sessionId this)] →
  complete (llmProvider this) (turn_request sessionId this)
    (getConversationHistory sessionId this ++ [user_message transcript])
    = inl e →
  ∃ this',
    processAudio sessionId audio now this = (inl (Propagated llm_backend e), this') ∧
    conversationHistory this' !! sessionId = None ∧
    getConversationHistory sessionId this' = [].
Proof.
  intros Hfound Hledger Hspeech Hacc Hllm.
  eexists. split.
  - apply (processAudio_completion_rejected _ _ _ _ _ _ _ Hfound Hspeech Hacc Hllm).
  - unfold getConversationHistory. project. rewrite Hledger.
    split; reflexivity.
Qed.

(** C4 at an input where the code departs from it: start [s1], end it
    (the session stays in the store, its history is deleted), then run a
    turn on [s1] in which the transcription succeeds and the completion
    backend fails. Both earlier calls returned, the turn throws what the
    backend threw, and the history of [s1] reads empty before and after:
    it has grown by no message, not by one. *)
Theorem processAudio_completion_failure_after_endSession :
  (startSession (config_with_id (Some "s1")) "uuid-1" 1000
     (new_VoiceAgent speech_up llm_down "You are a helpful assistant.")).1
    = inr session_s1_active ∧
  (VoiceAgent_endSession "s1" 2000 (agent_started speech_up llm_down)).1 = inr tt ∧
  is_Some (VoiceAgent_getSession "s1" (agent_ended speech_up llm_down)) ∧
  transcribe speech_up sample_audio (config_with_id (Some "s1")) = inr sample_transcript ∧
  (processAudio "s1" sample_audio 3000 (agent_ended speech_up llm_down)).1
    = inl (Propagated llm_backend "llm backend unavailable") ∧
  getConversationHistory "s1" (agent_ended speech_up llm_down) = [] ∧
  getConversationHistory "s1"
    (processAudio "s1" sample_audio 3000 (agent_ended speech_up llm_down)).2 = [].
Proof.
  split; [vm_compute; reflexivity|].
  split; [vm_compute; reflexivity|].
  split; [vm_compute; eexists; reflexivity|].
  split; [reflexivity|].
  split; [vm_compute; reflexivity|].
  split; vm_compute; reflexivity.
Qed.

(** *** Tool results *)

Lemma emitEvent_run event this :
  emitEvent event this =
    match dispatch (listeners this) "event" event with
    | Some e =>
        (inl (Propagated event_listener e),
         set_emitted (emitted this ++ [("event", event)]) this)
    | None =>
        (match dispatch (listeners this) (event_type event) event with
         | Some e => inl (Propagated event_listener e)
         | None => inr tt
         end,
         set_emitted (emitted this ++ emitEvent_log [event]) this)
    end.
Proof.
  unfold emitEvent, bind. rewrite emit_run.
  destruct (dispatch (listeners this) "event" event) as [e|]; [reflexivity|].
  rewrite emit_run. project. merge_logs. reflexivity.
Qed.

Lemma sendToolResult_completed JSON_stringify sessionId toolCall result this llmResponse :
  complete (llmProvider this) (tool_request sessionId this)
    (getConversationHistory sessionId this
     ++ [tool_message (JSON_stringify result) toolCall])
    = inr llmResponse →
  sendToolResult JSON_stringify sessionId toolCall result this =
    let filed :=
      tool_result_filed sessionId (tool_message (JSON_stringify result) toolCall)
                        llmResponse this in
    match emitEvent (tool_result toolCall result) filed with
    | (inr _, this') => (inr (response_text llmResponse), this')
    | (inl e, this') => (inl e, this')
    end.
Proof.
  intros Hllm.
  unfold tool_result_filed, tool_request, getConversationHistory, history_ref in *.
  destruct this as [speech llm manager prompt ledger heap ls log].
  cbn [speechProvider llmProvider sessionManager systemPrompt
       conversationHistory arrays listeners emitted] in *.
  flatten_in Hllm. unfold tool_message in Hllm.
  cbn [default from_option] in Hllm; unfold id in Hllm.
  unfold sendToolResult.
  call_returns ltac:(apply history_or_new_run). unfold history_ref. flatten.
  destruct (ledger !! sessionId) as [history|] eqn:Hledger.
  all: call_returns ltac:(reflexivity); flatten.
  all: rewrite ?lookup_insert_eq, ?insert_insert_eq.
  all: cbn [default from_option]; unfold id.
  all: call_returns ltac:(reflexivity); flatten.
  all: call_returns ltac:(rewrite await_complete_run; flatten;
                          rewrite ?lookup_insert_eq;
                          cbn [default from_option]; unfold id;
                          rewrite Hllm; reflexivity).
  all: call_returns ltac:(reflexivity); flatten.
  all: rewrite ?lookup_insert_eq, ?insert_insert_eq.
  all: cbn [default from_option]; unfold id.
  all: call_returns ltac:(reflexivity); flatten.
  all: unfold bind, ret, tool_message, assistant_message.
  all: rewrite <- ?app_assoc; cbn [app].
  all: match goal with
       | |- context [emitEvent ?ev ?st] => destruct (emitEvent ev st) as [[?|[]] ?]
       end.
  all: reflexivity.
Qed.

Lemma sendToolResult_rejected JSON_stringify sessionId toolCall result this e :
  complete (llmProvider this) (tool_request sessionId this)
    (getConversationHistory sessionId this
     ++ [tool_message (JSON_stringify result) toolCall])
    = inl e →
  sendToolResult JSON_stringify sessionId toolCall result this =
    (inl (Propagated llm_backend e),
     set_arrays
       (<[history_ref sessionId this :=
            getConversationHistory sessionId this
            ++ [tool_message (JSON_stringify result) toolCall]]> (arrays this))
       this).
Proof.
  intros Hllm.
  unfold tool_request, getConversationHistory, history_ref in *.
  destruct this as [speech llm manager prompt ledger heap ls log].
  cbn [speechProvider llmProvider sessionManager systemPrompt
       conversationHistory arrays listeners emitted] in *.
  flatten_in Hllm. unfold tool_message in Hllm.
  cbn [default from_option] in Hllm; unfold id in Hllm.
  unfold sendToolResult.
  call_returns ltac:(apply history_or_new_run). unfold history_ref. flatten.
  destruct (ledger !! sessionId) as [history|] eqn:Hledger.
  all: call_returns ltac:(reflexivity); flatten.
  all: rewrite ?lookup_insert_eq, ?insert_insert_eq.
  all: cbn [default from_option]; unfold id.
  all: call_returns ltac:(reflexivity); flatten.
  all: call_throws ltac:(rewrite await_complete_run; flatten;
                         rewrite ?lookup_insert_eq;
                         cbn [default from_option]; unfold id;
                         rewrite Hllm; reflexivity).
  all: unfold tool_message.
  all: reflexivity.
Qed.

Lemma getConversationHistory_tool_result_filed sessionId toolMessage llmResponse log this :
  getConversationHistory sessionId
    (set_emitted log (tool_result_filed sessionId toolMessage llmResponse this))
  = getConversationHistory sessionId this
    ++ [toolMessage; assistant_message llmResponse].
Proof. unfold tool_result_filed. apply getConversationHistory_filed. Qed.

(** C6: when the completion backend, called on the history with the tool
    message appended, returns [llmResponse], [sendToolResult] leaves the
    history of the session as it was before followed by exactly two
    messages: a [tool] message whose content is the serialized result and
    which carries the name and the id of the tool call, then an
    [assistant] message with the text of the completion. The call returns
    that text (unless a listener throws on the [tool:result] event that is
    published last, and whenever it returns a text it is that one). *)
Theorem sendToolResult_appends_tool_then_assistant
    (JSON_stringify : Json → string)
    (sessionId : string) (toolCall : ToolCall) (result : Json)
    (this : VoiceAgent) (llmResponse : LLMResponse) :
  complete (llmProvider this) (tool_request sessionId this)
    (getConversationHistory sessionId this ++
     [{| role := tool; content := JSON_stringify result;
         name := Some (toolCall_name toolCall);
         toolCallId := Some (toolCall_id toolCall) |}])
    = inr llmResponse →
  ∃ r this',
    sendToolResult JSON_stringify sessionId toolCall result this = (r, this') ∧
    getConversationHistory sessionId this'
      = getConversationHistory sessionId this ++
        [{| role := tool; content := JSON_stringify result;
            name := Some (toolCall_name toolCall);
            toolCallId := Some (toolCall_id toolCall) |};
         {| role := assistant; content := response_text llmResponse;
            name := None; toolCallId := None |}] ∧
    (accepts this (tool_result toolCall result) → r = inr (response_text llmResponse)) ∧
    (∀ returned, r = inr returned → returned = response_text llmResponse).
Proof.
  intros Hllm.
  rewrite (sendToolResult_completed _ _ _ _ _ _ Hllm). cbv zeta.
  rewrite emitEvent_run.
  change (listeners (tool_result_filed _ _ _ this)) with (listeners this).
  destruct (dispatch (listeners this) "event" (tool_result toolCall result))
    as [e|] eqn:Hany;
    [|destruct (dispatch (listeners this)
                  (event_type (tool_result toolCall result))
                  (tool_result toolCall result)) as [e|] eqn:Hkind].
  all: eexists _, _; split; [reflexivity|].
  all: split; [apply getConversationHistory_tool_result_filed|].
  all: split; [|congruence].
  - intros [Hany' _]. congruence.
  - intros [_ Hkind']. congruence.
  - reflexivity.
Qed.

Lemma sendToolResult_appends_tool_then_assistant_witness :
  ∃ r this',
    sendToolResult (λ _, "{}") "s1" sample_toolCall (JObject [])
      (agent_started speech_up llm_up) = (r, this') ∧
    getConversationHistory "s1" this'
      = getConversationHistory "s1" (agent_started speech_up llm_up) ++
        [{| role := tool; content := "{}";
            name := Some "lookup_hours"; toolCallId := Some "call-1" |};
         {| role := assistant; content := "9-5 Mon-Fri";
            name := None; toolCallId := None |}] ∧
    (accepts (agent_started speech_up llm_up) (tool_result sample_toolCall (JObject []))
     → r = inr "9-5 Mon-Fri") ∧
    (∀ returned, r = inr returned → returned = "9-5 Mon-Fri").
Proof.
  apply (sendToolResult_appends_tool_then_assistant (λ _, "{}") "s1"
           sample_toolCall (JObject []) (agent_started speech_up llm_up)
           sample_response).
  reflexivity.
Defined.

Lemma on_sessionManager_run {A} (m : Eff SessionManager A) this r manager :
  m (sessionManager this) = (r, manager) →
  on_sessionManager m this = (r, set_sessionManager manager this).
Proof. intros Hm. unfold on_sessionManager. rewrite Hm. reflexivity. Qed.

(** Ending a session that exists: the store stamps it, the history entry
    goes, and [session:end] is published, whatever the listeners do. *)
Lemma VoiceAgent_endSession_found sessionId now this session :
  getSession sessionId (sessionManager this) = Some session →
  ∃ r log,
    VoiceAgent_endSession sessionId now this =
      (r,
       set_emitted (emitted this ++ log)
         (set_conversationHistory (delete sessionId (conversationHistory this))
            (set_sessionManager
               {| sessions :=
                    <[sessionId := stamp_end now (set_status ENDED session)]>
                      (sessions (sessionManager this)) |}
               this))).
Proof.
  intros Hfound. unfold VoiceAgent_endSession.
  destruct this as [speech llm manager prompt ledger heap ls log].
  cbn [speechProvider llmProvider sessionManager systemPrompt
       conversationHistory arrays listeners emitted] in *.
  destruct (emitEvent (session_end (stamp_end now (set_status ENDED session)))
              {| speechProvider := speech; llmProvider := llm;
                 sessionManager :=
                   {| sessions :=
                        <[sessionId := stamp_end now (set_status ENDED session)]>
                          (sessions manager) |};
                 systemPrompt := prompt;
                 conversationHistory := delete sessionId ledger;
                 arrays := heap; listeners := ls; emitted := log |})
    as [r final] eqn:Hemit.
  destruct (emitEvent_inv _ _ _ _ Hemit) as (published & -> & _).
  exists r, published.
  call_returns ltac:(reflexivity). flatten. rewrite Hfound.
  call_returns ltac:(apply on_sessionManager_run, endSession_found, Hfound).
  flatten.
  call_returns ltac:(reflexivity). flatten.
  exact Hemit.
Qed.

Lemma sendToolResult_throws_only_foreign
    JSON_stringify sessionId toolCall result this e :
  (sendToolResult JSON_stringify sessionId toolCall result this).1 = inl e →
  ∃ origin cause, e = Propagated origin cause.
Proof.
  destruct (complete (llmProvider this) (tool_request sessionId this)
              (getConversationHistory sessionId this
               ++ [tool_message (JSON_stringify result) toolCall]))
    as [cause|llmResponse] eqn:Hllm.
  - rewrite (sendToolResult_rejected _ _ _ _ _ _ Hllm).
    intros [= <-]. eexists _, _. reflexivity.
  - rewrite (sendToolResult_completed _ _ _ _ _ _ Hllm). cbv zeta.
    destruct (emitEvent _ _) as [[thrown|[]] final] eqn:Hemit.
    + intros [= <-].
      destruct (emitEvent_inv _ _ _ _ Hemit) as (_ & _ & _ & Hforeign).
      destruct (Hforeign thrown eq_refl) as [cause ->].
      eexists _, _. reflexivity.
    + discriminate.
Qed.

Lemma sendToolResult_ignores_sessions
    JSON_stringify sessionId toolCall result this manager :
  sendToolResult JSON_stringify sessionId toolCall result
    (set_sessionManager manager this)
  = ((sendToolResult JSON_stringify sessionId toolCall result this).1,
     set_sessionManager manager
       (sendToolResult JSON_stringify sessionId toolCall result this).2).
Proof.
  destruct (complete (llmProvider this) (tool_request sessionId this)
              (getConversationHistory sessionId this
               ++ [tool_message (JSON_stringify result) toolCall]))
    as [cause|llmResponse] eqn:Hllm.
  - rewrite (sendToolResult_rejected _ _ _ _ _ _ Hllm).
    rewrite (sendToolResult_rejected JSON_stringify sessionId toolCall result
               (set_sessionManager manager this) cause Hllm).
    reflexivity.
  - rewrite (sendToolResult_completed _ _ _ _ _ _ Hllm).
    rewrite (sendToolResult_completed JSON_stringify sessionId toolCall result
               (set_sessionManager manager this) llmResponse Hllm).
    cbv zeta. rewrite !emitEvent_run.
    change (listeners (tool_result_filed _ _ _ (set_sessionManager manager this)))
      with (listeners this).
    change (listeners (tool_result_filed _ _ _ this)) with (listeners this).
    destruct (dispatch (listeners this) "event" _); [reflexivity|].
    destruct (dispatch (listeners this) _ _); reflexivity.
Qed.

(** C10: [sendToolResult] never looks at the session store. Whatever the
    session id, what it throws is never one of the errors of the core
    ([VoiceAgentError], of which [SESSION_NOT_FOUND] is a code, or
    [SessionError]) but only what the completion backend or a listener
    threw; its outcome is the same whatever store the agent holds;
    [endSession] on an existing session removes the history entry of the
    id; and when the id has no history entry and the completion succeeds,
    a new array is filed under the id, holding the tool message and the
    assistant message and nothing else. *)
Theorem sendToolResult_checks_no_session
    (JSON_stringify : Json → string)
    (sessionId : string) (toolCall : ToolCall) (result : Json) (this : VoiceAgent) :
  (∀ message code,
     (sendToolResult JSON_stringify sessionId toolCall result this).1
     ≠ inl (VoiceAgentError message code)) ∧
  (∀ message id,
     (sendToolResult JSON_stringify sessionId toolCall result this).1
     ≠ inl (SessionError message id)) ∧
  (∀ manager,
     sendToolResult JSON_stringify sessionId toolCall result
       (set_sessionManager manager this)
     = ((sendToolResult JSON_stringify sessionId toolCall result this).1,
        set_sessionManager manager
          (sendToolResult JSON_stringify sessionId toolCall result this).2)) ∧
  (∀ now, is_Some (getSession sessionId (sessionManager this)) →
     conversationHistory (VoiceAgent_endSession sessionId now this).2 !! sessionId
     = None) ∧
  (conversationHistory this !! sessionId = None →
   ∀ llmResponse,
     complete (llmProvider this) (tool_request sessionId this)
       [tool_message (JSON_stringify result) toolCall] = inr llmResponse →
     arrays this !! fresh (dom (arrays this)) = None ∧
     conversationHistory
       (sendToolResult JSON_stringify sessionId toolCall result this).2 !! sessionId
     = Some (fresh (dom (arrays this))) ∧
     getConversationHistory sessionId
       (sendToolResult JSON_stringify sessionId toolCall result this).2
     = [tool_message (JSON_stringify result) toolCall;
        assistant_message llmResponse]).
Proof.
  split; [|split; [|split; [|split]]].
  - intros message code Hthrown.
    apply sendToolResult_throws_only_foreign in Hthrown as (origin & cause & Heq).
    discriminate.
  - intros message id Hthrown.
    apply sendToolResult_throws_only_foreign in Hthrown as (origin & cause & Heq).
    discriminate.
  - intros manager. apply sendToolResult_ignores_sessions.
  - intros now [session Hfound].
    destruct (VoiceAgent_endSession_found sessionId now this session Hfound)
      as (r & published & ->).
    project. apply lookup_delete_eq.
  - intros Hnone llmResponse Hllm.
    assert (getConversationHistory sessionId this = []) as Hempty.
    { unfold getConversationHistory. rewrite Hnone. reflexivity. }
    assert (history_ref sessionId this = fresh (dom (arrays this))) as Href.
    { unfold history_ref. rewrite Hnone. reflexivity. }
    split.
    { apply not_elem_of_dom, is_fresh. }
    rewrite (sendToolResult_completed JSON_stringify sessionId toolCall result
               this llmResponse)
      by (rewrite Hempty; exact Hllm).
    cbv zeta.
    destruct (emitEvent _ _) as [[thrown|[]] final] eqn:Hemit.
    all: destruct (emitEvent_inv _ _ _ _ Hemit) as (published & -> & _).
    all: cbn [snd]; split.
    all: try (rewrite getConversationHistory_tool_result_filed, Hempty; reflexivity).
    all: unfold tool_result_filed; project.
    all: rewrite lookup_insert_eq, Href; reflexivity.
Qed.

Lemma sendToolResult_checks_no_session_witness :
  conversationHistory
    (VoiceAgent_endSession "s1" 2000 (agent_started speech_up llm_up)).2 !! "s1"
  = None ∧
  getConversationHistory "s1"
    (sendToolResult (λ _, "{}") "s1" sample_toolCall (JObject [])
       (agent_ended speech_up llm_up)).2
  = [tool_message "{}" sample_toolCall; assistant_message sample_response].
Proof.
  split.
  - destruct (sendToolResult_checks_no_session (λ _, "{}") "s1" sample_toolCall
                (JObject []) (agent_started speech_up llm_up))
      as (_ & _ & _ & Hended & _).
    apply Hended. vm_compute. eexists. reflexivity.
  - destruct (sendToolResult_checks_no_session (λ _, "{}") "s1" sample_toolCall
                (JObject []) (agent_ended speech_up llm_up))
      as (_ & _ & _ & _ & Hnew).
    destruct (Hnew ltac:(vm_compute; reflexivity) sample_response eq_refl)
      as (_ & _ & Hhistory).
    exact Hhistory.
Defined.

(* ===================================================================== *)
(** ** More on the session store *)
(* ===================================================================== *)

(** X1: [createSession] always returns, and what it returns is what
    [getSession] then finds under the session's id: a session in status
    [IDLE], started now, with no end time and no duration. The id is the
    one of the configuration unless that is absent or the empty string,
    in which case it is the generated one. No other id is touched, and
    the store grows by one exactly when the id was free. *)
Theorem createSession_then_getSession
    (config : SessionConfig) (uuid : string) (now : Z) (this : SessionManager) :
  ∃ session this',
    createSession config uuid now this = (inr session, this') ∧
    getSession (session_id session) this' = Some session ∧
    session_id session =
      match config_id config with
      | Some "" | None => uuid
      | Some id => id
      end ∧
    status session = IDLE ∧
    startedAt session = now ∧
    endedAt session = None ∧
    duration session = None ∧
    (∀ other, other ≠ session_id session →
       getSession other this' = getSession other this) ∧
    size (sessions this') =
      match getSession (session_id session) this with
      | Some _ => size (sessions this)
      | None => S (size (sessions this))
      end.
Proof.
  eexists _, _. split; [reflexivity|].
  cbn [session_id status startedAt endedAt duration sessions].
  split; [apply lookup_insert_eq|].
  split.
  { unfold string_or. destruct (config_id config) as [[|c id]|]; reflexivity. }
  repeat (split; [reflexivity|]).
  split.
  - intros other Hother. apply lookup_insert_ne. congruence.
  - unfold getSession.
    destruct (sessions this !! _) as [existing|] eqn:Hin.
    + apply map_size_insert_Some. exists existing. exact Hin.
    + apply map_size_insert_None. exact Hin.
Qed.

(** X2: [deleteSession] never throws. It returns [true] exactly when a
    session was stored under the id; afterwards the id is free, every
    other session is as before, and deleting an id that is not there
    leaves the store as it was. *)
Theorem deleteSession_removes
    (id : string) (this : SessionManager) :
  ∃ existed this',
    deleteSession id this = (inr existed, this') ∧
    (existed = true ↔ is_Some (getSession id this)) ∧
    getSession id this' = None ∧
    (∀ other, other ≠ id → getSession other this' = getSession other this) ∧
    (getSession id this = None → this' = this) ∧
    size (sessions this') =
      if existed then pred (size (sessions this)) else size (sessions this).
Proof.
  eexists _, _. split; [reflexivity|].
  cbn [sessions]. unfold getSession. split; [apply bool_decide_eq_true|].
  split; [apply lookup_delete_eq|].
  split.
  { intros other Hother. apply lookup_delete_ne. congruence. }
  split.
  { intros Hnone. rewrite delete_id by exact Hnone. destruct this. reflexivity. }
  destruct (sessions this !! id) as [session|] eqn:Hin.
  - rewrite bool_decide_eq_true_2 by (eexists; reflexivity).
    apply map_size_delete_Some. exists session. exact Hin.
  - rewrite bool_decide_eq_false_2 by (intros [x Hx]; discriminate).
    apply map_size_delete_None. exact Hin.
Qed.

Lemma updateSessionMetadata_found id metadata' this session :
  getSession id this = Some session →
  updateSessionMetadata id metadata' this =
    (inr tt,
     {| sessions :=
          <[id := set_metadata (metadata' ∪ metadata session) session]>
            (sessions this) |}).
Proof.
  intros Hfound. unfold updateSessionMetadata, bind, get, modify. simpl.
  rewrite Hfound. reflexivity.
Qed.

Lemma updateSessionMetadata_missing id metadata' this :
  getSession id this = None →
  updateSessionMetadata id metadata' this =
    (inl (SessionError ("Session not found: " +:+ id) id), this).
Proof.
  intros Hmissing. unfold updateSessionMetadata, bind, get. simpl.
  rewrite Hmissing. reflexivity.
Qed.

(** X3: [updateSessionStatus], [updateSessionMetadata] and [endSession]
    throw exactly when the id is not in the store. Then each throws a
    [SessionError] that carries the id and the message
    [Session not found: <id>], and the store is left exactly as it was;
    on an id that is in the store all three return. *)
Theorem unknown_session_is_an_error
    (id : string) (status' : SessionStatus) (metadata' : gmap string Json)
    (now : Z) (this : SessionManager) :
  (getSession id this = None →
     updateSessionStatus id status' now this
       = (inl (SessionError ("Session not found: " +:+ id) id), this) ∧
     updateSessionMetadata id metadata' this
       = (inl (SessionError ("Session not found: " +:+ id) id), this) ∧
     endSession id now this
       = (inl (SessionError ("Session not found: " +:+ id) id), this)) ∧
  (is_Some (getSession id this) →
     (updateSessionStatus id status' now this).1 = inr tt ∧
     (updateSessionMetadata id metadata' this).1 = inr tt ∧
     (endSession id now this).1 = inr tt).
Proof.
  split.
  - intros Hmissing. split; [|split].
    + apply updateSessionStatus_missing, Hmissing.
    + apply updateSessionMetadata_missing, Hmissing.
    + apply endSession_missing, Hmissing.
  - intros [session Hfound]. split; [|split].
    + rewrite (updateSessionStatus_found _ _ _ _ _ Hfound). reflexivity.
    + rewrite (updateSessionMetadata_found _ _ _ _ Hfound). reflexivity.
    + rewrite (endSession_found _ _ _ _ Hfound). reflexivity.
Qed.

Lemma unknown_session_is_an_error_witness :
  updateSessionStatus "s2" ACTIVE 5000 store_s1_ended
    = (inl (SessionError "Session not found: s2" "s2"), store_s1_ended) ∧
  updateSessionMetadata "s2" ∅ store_s1_ended
    = (inl (SessionError "Session not found: s2" "s2"), store_s1_ended) ∧
  endSession "s2" 5000 store_s1_ended
    = (inl (SessionError "Session not found: s2" "s2"), store_s1_ended).
Proof.
  apply (unknown_session_is_an_error "s2" ACTIVE ∅ 5000 store_s1_ended).
  vm_compute. reflexivity.
Defined.

(** X4: the store accepts every transition. On an existing session,
    whatever its current status, [updateSessionStatus] to a status other
    than [ENDED] returns and changes the status and nothing else: id,
    configuration, start time, end time, duration and metadata stay, and
    so do the other sessions. *)
Theorem updateSessionStatus_changes_status_only
    (id : string) (status' : SessionStatus) (now : Z)
    (this : SessionManager) (session : VoiceSession) :
  getSession id this = Some session →
  status' ≠ ENDED →
  ∃ this' session',
    updateSessionStatus id status' now this = (inr tt, this') ∧
    getSession id this' = Some session' ∧
    status session' = status' ∧
    session_id session' = session_id session ∧
    config session' = config session ∧
    startedAt session' = startedAt session ∧
    endedAt session' = endedAt session ∧
    duration session' = duration session ∧
    metadata session' = metadata session ∧
    ∀ other, other ≠ id → getSession other this' = getSession other this.
Proof.
  intros Hfound Hstatus.
  eexists _, _. split.
  { apply updateSessionStatus_found, Hfound. }
  rewrite decide_False by exact Hstatus.
  split; [apply lookup_insert_eq|].
  repeat (split; [reflexivity|]).
  intros other Hother. apply lookup_insert_ne. congruence.
Qed.

Lemma updateSessionStatus_changes_status_only_witness :
  ∃ this' session',
    updateSessionStatus "s1" IDLE 5000 store_s1_ended = (inr tt, this') ∧
    getSession "s1" this' = Some session' ∧
    status session' = IDLE ∧
    session_id session' = session_id session_s1_ended ∧
    config session' = config session_s1_ended ∧
    startedAt session' = startedAt session_s1_ended ∧
    endedAt session' = endedAt session_s1_ended ∧
    duration session' = duration session_s1_ended ∧
    metadata session' = metadata session_s1_ended ∧
    ∀ other, other ≠ "s1" → getSession other this' = getSession other store_s1_ended.
Proof.
  apply (updateSessionStatus_changes_status_only "s1" IDLE 5000
           store_s1_ended session_s1_ended).
  - vm_compute. reflexivity.
  - discriminate.
Defined.

(** X5: [updateSessionMetadata] merges. On an existing session it
    returns; afterwards a key of the new metadata holds its new value, a
    key the new metadata does not have keeps the value it had, and
    status, times, duration and configuration of the session are as
    before. *)
Theorem updateSessionMetadata_merges
    (id : string) (metadata' : gmap string Json)
    (this : SessionManager) (session : VoiceSession) :
  getSession id this = Some session →
  ∃ this' session',
    updateSessionMetadata id metadata' this = (inr tt, this') ∧
    getSession id this' = Some session' ∧
    (∀ key value, metadata' !! key = Some value →
       metadata session' !! key = Some value) ∧
    (∀ key, metadata' !! key = None →
       metadata session' !! key = metadata session !! key) ∧
    session_id session' = session_id session ∧
    status session' = status session ∧
    config session' = config session ∧
    startedAt session' = startedAt session ∧
    endedAt session' = endedAt session ∧
    duration session' = duration session ∧
    ∀ other, other ≠ id → getSession other this' = getSession other this.
Proof.
  intros Hfound.
  eexists _, _. split.
  { apply updateSessionMetadata_found, Hfound. }
  split; [apply lookup_insert_eq|].
  cbn [metadata set_metadata].
  split.
  { intros key value Hkey. apply lookup_union_Some_raw. left. exact Hkey. }
  split.
  { intros key Hkey. apply lookup_union_r. exact Hkey. }
  repeat (split; [reflexivity|]).
  intros other Hother. apply lookup_insert_ne. congruence.
Qed.

Lemma updateSessionMetadata_merges_witness :
  ∃ this' session',
    updateSessionMetadata "s1" {[ "plan" := JString "pro" ]} store_s1_ended
      = (inr tt, this') ∧
    getSession "s1" this' = Some session' ∧
    (∀ key value, ({[ "plan" := JString "pro" ]} : gmap string Json) !! key = Some value →
       metadata session' !! key = Some value) ∧
    (∀ key, ({[ "plan" := JString "pro" ]} : gmap string Json) !! key = None →
       metadata session' !! key = metadata session_s1_ended !! key) ∧
    session_id session' = session_id session_s1_ended ∧
    status session' = status session_s1_ended ∧
    config session' = config session_s1_ended ∧
    startedAt session' = startedAt session_s1_ended ∧
    endedAt session' = endedAt session_s1_ended ∧
    duration session' = duration session_s1_ended ∧
    ∀ other, other ≠ "s1" → getSession other this' = getSession other store_s1_ended.
Proof.
  apply (updateSessionMetadata_merges "s1" {[ "plan" := JString "pro" ]}
           store_s1_ended session_s1_ended).
  vm_compute. reflexivity.
Defined.

(** *** What every reachable store satisfies *)

(** A property of sessions, under the ids they are stored at, that new
    sessions have and the three updates keep holds throughout every
    reachable store. *)
Lemma reachable_sessions_ind (P : string → VoiceSession → Prop) :
  (∀ config uuid now,
     P (string_or (config_id config) uuid)
       {| session_id := string_or (config_id config) uuid; status := IDLE;
          config := config; startedAt := now; endedAt := None;
          duration := None; metadata := default ∅ (config_metadata config) |}) →
  (∀ id session status', P id session → P id (set_status status' session)) →
  (∀ id session now, P id session → P id (stamp_end now session)) →
  (∀ id session metadata', P id session → P id (set_metadata metadata' session)) →
  ∀ this, reachable this →
  ∀ id session, getSession id this = Some session → P id session.
Proof.
  intros Hnew Hstatus Hstamp Hmetadata this [ops ->].
  assert (∀ this, (∀ id session, getSession id this = Some session → P id session) →
          ∀ id session, getSession id (run_ops ops this) = Some session → P id session)
    as Hops.
  { induction ops as [|op ops IH]; intros this Hthis; [exact Hthis|].
    simpl. apply IH. clear IH.
    assert (∀ key session',
              P key session' →
              ∀ id session,
                getSession id {| sessions := <[key := session']> (sessions this) |}
                  = Some session → P id session) as Hinsert.
    { intros key session' Hp id session. unfold getSession. simpl.
      rewrite lookup_insert. destruct (decide (key = id)) as [->|Hne].
      - intros [= <-]. exact Hp.
      - apply Hthis. }
    destruct op as [config uuid now | id' status' now | id' metadata'
                   | id' now | id' | maxAgeMs now]; cbn [run_op].
    - apply Hinsert, Hnew.
    - destruct (getSession id' this) as [session'|] eqn:Hfound.
      + rewrite (updateSessionStatus_found _ _ _ _ _ Hfound). apply Hinsert.
        destruct (decide (status' = ENDED)).
        * apply Hstamp, Hstatus, (Hthis _ _ Hfound).
        * apply Hstatus, (Hthis _ _ Hfound).
      + rewrite (updateSessionStatus_missing _ _ _ _ Hfound). exact Hthis.
    - destruct (getSession id' this) as [session'|] eqn:Hfound.
      + rewrite (updateSessionMetadata_found _ _ _ _ Hfound). apply Hinsert.
        apply Hmetadata, (Hthis _ _ Hfound).
      + rewrite (updateSessionMetadata_missing _ _ _ Hfound). exact Hthis.
    - destruct (getSession id' this) as [session'|] eqn:Hfound.
      + rewrite (endSession_found _ _ _ _ Hfound). apply Hinsert.
        apply Hstamp, Hstatus, (Hthis _ _ Hfound).
      + rewrite (endSession_missing _ _ _ Hfound). exact Hthis.
    - intros id session. unfold getSession. simpl. intros Hin.
      apply lookup_delete_Some in Hin as [_ Hin]. exact (Hthis _ _ Hin).
    - rewrite cleanupOldSessions_unfold. intros id session.
      unfold getSession. simpl. rewrite cleanup_lookup.
      destruct (sessions this !! id) as [session'|] eqn:Hin; [|discriminate].
      destruct (expired _ now session'); [discriminate|].
      intros [= <-]. exact (Hthis _ _ Hin). }
  apply Hops. intros id session. unfold getSession. simpl.
  rewrite lookup_empty. discriminate.
Qed.

(** X6: in every store reachable by calls of the store's methods, the
    session found under an id carries that id. *)
Theorem reachable_session_id_is_key
    (this : SessionManager) (id : string) (session : VoiceSession) :
  reachable this →
  getSession id this = Some session →
  session_id session = id.
Proof.
  intros Hreach. revert id session.
  apply (reachable_sessions_ind (λ id session, session_id session = id));
    [| | | |exact Hreach]; intros; assumption || reflexivity.
Qed.

Lemma reachable_session_id_is_key_witness :
  session_id session_s1_ended = "s1".
Proof.
  apply (reachable_session_id_is_key store_s1_ended "s1" session_s1_ended).
  - exists [call_createSession (config_with_id (Some "s1")) "uuid-1" 1000;
             call_endSession "s1" 3000].
    reflexivity.
  - vm_compute. reflexivity.
Defined.

(** X7: in every reachable store the end time and the duration of a
    session are set together or not at all: no method writes one without
    the other, and none clears either. *)
Theorem reachable_endedAt_iff_duration
    (this : SessionManager) (id : string) (session : VoiceSession) :
  reachable this →
  getSession id this = Some session →
  (is_Some (endedAt session) ↔ is_Some (duration session)).
Proof.
  intros Hreach. revert id session.
  apply (reachable_sessions_ind
           (λ _ session, is_Some (endedAt session) ↔ is_Some (duration session)));
    [| | | |exact Hreach].
  - intros config uuid now. simpl. split; intros [x Hx]; discriminate.
  - intros id session status' Hiff. exact Hiff.
  - intros id session now _. simpl. split; intros _; eexists; reflexivity.
  - intros id session metadata' Hiff. exact Hiff.
Qed.

Lemma reachable_endedAt_iff_duration_witness :
  is_Some (endedAt session_s1_ended) ↔ is_Some (duration session_s1_ended).
Proof.
  apply (reachable_endedAt_iff_duration store_s1_ended "s1" session_s1_ended).
  - exists [call_createSession (config_with_id (Some "s1")) "uuid-1" 1000;
             call_endSession "s1" 3000].
    reflexivity.
  - vm_compute. reflexivity.
Defined.

(** *** Listing and counting *)

Lemma session_values_elem session (this : SessionManager) :
  session ∈ (map_to_list (sessions this)).*2 ↔
  ∃ id, getSession id this = Some session.
Proof.
  rewrite list_elem_of_fmap. split.
  - intros ([id session'] & -> & Hin). exists id.
    apply elem_of_map_to_list in Hin. exact Hin.
  - intros [id Hin]. exists (id, session). split; [reflexivity|].
    apply elem_of_map_to_list. exact Hin.
Qed.

(** X8: [getActiveSessions] lists exactly the stored sessions whose
    status is [ACTIVE] or [CONNECTING], each stored session once: the
    list is never longer than the store, and it is empty exactly when no
    session has one of the two statuses. *)
Theorem getActiveSessions_lists_active_and_connecting (this : SessionManager) :
  (∀ session,
     session ∈ getActiveSessions this ↔
     (∃ id, getSession id this = Some session) ∧
     (status session = ACTIVE ∨ status session = CONNECTING)) ∧
  (List.length (getActiveSessions this) ≤ size (sessions this))%nat ∧
  (getActiveSessions this = [] ↔
   ∀ id session, getSession id this = Some session →
                 status session ≠ ACTIVE ∧ status session ≠ CONNECTING).
Proof.
  assert (∀ session,
            session ∈ getActiveSessions this ↔
            (∃ id, getSession id this = Some session) ∧
            (status session = ACTIVE ∨ status session = CONNECTING)) as Hmem.
  { intros session. unfold getActiveSessions.
    rewrite list_elem_of_filter, session_values_elem. tauto. }
  split; [exact Hmem|]. split.
  - unfold getActiveSessions.
    etransitivity; [apply length_filter|].
    rewrite length_fmap, length_map_to_list. reflexivity.
  - split.
    + intros Hempty id session Hin.
      assert (session ∉ getActiveSessions this) as Hnot.
      { rewrite Hempty. apply not_elem_of_nil. }
      rewrite Hmem in Hnot. split; intros Hstatus; apply Hnot.
      * split; [exists id; exact Hin|left; exact Hstatus].
      * split; [exists id; exact Hin|right; exact Hstatus].
    + intros Hnone.
      destruct (getActiveSessions this) as [|session rest] eqn:Hlist;
        [reflexivity|].
      assert (session ∈ session :: rest) as Hin by left.
      apply Hmem in Hin as [[id Hin] Hstatus].
      destruct (Hnone id session Hin) as [Hactive Hconnecting].
      destruct Hstatus; contradiction.
Qed.

(** The sessions of a map that are in a given status, counted in the list
    of its values and in the map. *)
Lemma count_status_size (st : SessionStatus) (m : gmap string VoiceSession) :
  List.length (filter (λ s, status s = st) (map_to_list m).*2)
  = size (filter (λ entry : string * VoiceSession, status entry.2 = st) m).
Proof.
  induction m as [|id session m Hfresh IH] using map_ind.
  - rewrite map_to_list_empty, map_filter_empty, map_size_empty. reflexivity.
  - rewrite map_to_list_insert by exact Hfresh.
    rewrite fmap_cons. cbn [snd].
    rewrite map_filter_insert. cbn [snd].
    destruct (decide (status session = st)) as [Hst|Hst].
    + rewrite filter_cons_True by exact Hst.
      rewrite map_size_insert_None
        by (rewrite map_lookup_filter, Hfresh; reflexivity).
      cbn [List.length]. f_equal. exact IH.
    + rewrite filter_cons_False by exact Hst.
      rewrite delete_id by exact Hfresh. exact IH.
Qed.

Lemma count_statuses_le (l : list VoiceSession) :
  (List.length (filter (λ s, status s = ACTIVE) l)
   + List.length (filter (λ s, status s = ENDED) l)
   + List.length (filter (λ s, status s = ERROR) l) ≤ List.length l)%nat.
Proof.
  induction l as [|session l IH]; [reflexivity|].
  rewrite !filter_cons.
  destruct (status session); repeat case_decide; try discriminate; simpl; lia.
Qed.

Lemma count_active_le (l : list VoiceSession) :
  (List.length (filter (λ s, status s = ACTIVE) l)
   ≤ List.length (filter (λ s, status s = ACTIVE ∨ status s = CONNECTING) l))%nat.
Proof.
  induction l as [|session l IH]; [reflexivity|].
  rewrite !filter_cons.
  repeat case_decide; simpl; try lia.
  exfalso. tauto.
Qed.

(** X9: the counts of [getStats]. [total] is the number of stored
    sessions; [active], [ended] and [error] count the sessions in status
    [ACTIVE], [ENDED] and [ERROR], so together they never exceed [total]
    (sessions in the other four statuses are in [total] only), and
    [active] never exceeds the length of [getActiveSessions], which also
    lists the [CONNECTING] ones. *)
Theorem getStats_counts (this : SessionManager) :
  total (getStats this) = size (sessions this) ∧
  active (getStats this)
    = size (filter (λ entry : string * VoiceSession, status entry.2 = ACTIVE)
                   (sessions this)) ∧
  ended (getStats this)
    = size (filter (λ entry : string * VoiceSession, status entry.2 = ENDED)
                   (sessions this)) ∧
  error (getStats this)
    = size (filter (λ entry : string * VoiceSession, status entry.2 = ERROR)
                   (sessions this)) ∧
  (active (getStats this) + ended (getStats this) + error (getStats this)
    ≤ total (getStats this))%nat ∧
  (active (getStats this) ≤ List.length (getActiveSessions this))%nat.
Proof.
  unfold getStats. cbn [total active ended error].
  split; [rewrite length_fmap; apply length_map_to_list|].
  split; [apply count_status_size|].
  split; [apply count_status_size|].
  split; [apply count_status_size|].
  split; [apply count_statuses_le|].
  apply count_active_le.
Qed.

Lemma sweep_keeps_status (st : SessionStatus) maxAgeMs now
    (all : gmap string VoiceSession) :
  st ≠ ENDED →
  filter (λ entry : string * VoiceSession, status entry.2 = st)
         (all ∖ filter (λ entry, expired maxAgeMs now entry.2 = true) all)
  = filter (λ entry : string * VoiceSession, status entry.2 = st) all.
Proof.
  intros Hst. apply map_eq. intros id.
  rewrite !map_lookup_filter, cleanup_lookup.
  destruct (all !! id) as [session|]; [|reflexivity]. simpl.
  destruct (expired maxAgeMs now session) eqn:Hexpired; [|reflexivity].
  apply expired_spec in Hexpired as [Hended _].
  simpl. rewrite option_guard_False by congruence. reflexivity.
Qed.

Lemma sweep_ended_sizes maxAgeMs now (all : gmap string VoiceSession) :
  size (filter (λ entry, expired maxAgeMs now entry.2 = true) all)
  + size (filter (λ entry : string * VoiceSession, status entry.2 = ENDED)
            (all ∖ filter (λ entry, expired maxAgeMs now entry.2 = true) all))
  = size (filter (λ entry : string * VoiceSession, status entry.2 = ENDED) all).
Proof.
  rewrite <- map_size_disj_union.
  - f_equal. apply map_eq. intros id.
    rewrite lookup_union, !map_lookup_filter, cleanup_lookup.
    destruct (all !! id) as [session|]; simpl; [|reflexivity].
    destruct (expired maxAgeMs now session) eqn:Hexpired; simpl.
    + apply expired_spec in Hexpired as [Hended _].
      repeat case_guard; simpl; reflexivity || congruence.
    + repeat case_guard; simpl; reflexivity || congruence.
  - apply map_disjoint_spec. intros id x y Hx Hy.
    apply map_lookup_filter_Some in Hx as [Hx Hexpired]. simpl in Hexpired.
    apply map_lookup_filter_Some in Hy as [Hy _].
    rewrite cleanup_lookup, Hx, Hexpired in Hy. discriminate.
Qed.

(** X10: what a sweep does to the statistics and to the active list.
    [total] and [ended] both drop by the number the sweep returns,
    [active] and [error] are unchanged, and [getActiveSessions] lists the
    same sessions as before: a sweep, whatever its [maxAgeMs], touches
    [ENDED] sessions only. *)
Theorem cleanupOldSessions_stats
    (maxAgeMs : option Z) (now : Z) (this : SessionManager) :
  ∃ cleaned this',
    cleanupOldSessions maxAgeMs now this = (inr cleaned, this') ∧
    total (getStats this') + cleaned = total (getStats this) ∧
    ended (getStats this') + cleaned = ended (getStats this) ∧
    active (getStats this') = active (getStats this) ∧
    error (getStats this') = error (getStats this) ∧
    ∀ session, session ∈ getActiveSessions this' ↔ session ∈ getActiveSessions this.
Proof.
  eexists _, _. split; [apply cleanupOldSessions_unfold|].
  cbv zeta.
  set (this' := {| sessions := _ |}).
  destruct (getStats_counts this) as (-> & -> & -> & -> & _).
  destruct (getStats_counts this') as (-> & -> & -> & -> & _).
  subst this'. cbn [sessions].
  split; [rewrite Nat.add_comm; apply cleanup_sizes|].
  split; [rewrite Nat.add_comm; apply sweep_ended_sizes|].
  split; [rewrite sweep_keeps_status by discriminate; reflexivity|].
  split; [rewrite sweep_keeps_status by discriminate; reflexivity|].
  intros session.
  destruct (getActiveSessions_lists_active_and_connecting this) as [Hold _].
  destruct (getActiveSessions_lists_active_and_connecting
              {| sessions := sessions this
                   ∖ filter (λ entry, expired (default 3600000%Z maxAgeMs) now entry.2 = true)
                            (sessions this) |}) as [Hnew _].
  rewrite Hold, Hnew. unfold getSession. cbn [sessions].
  split.
  - intros [[id Hin] Hstatus]. split; [|exact Hstatus]. exists id.
    rewrite cleanup_lookup in Hin.
    destruct (sessions this !! id) as [session'|]; [|discriminate].
    destruct (expired _ now session'); [discriminate|]. exact Hin.
  - intros [[id Hin] Hstatus]. split; [|exact Hstatus]. exists id.
    rewrite cleanup_lookup, Hin.
    destruct (expired _ now session) eqn:Hexpired; [|reflexivity].
    apply expired_spec in Hexpired as [Hended _].
    destruct Hstatus as [Hs|Hs]; rewrite Hs in Hended; discriminate.
Qed.

(* ===================================================================== *)
(** ** More on the agent *)
(* ===================================================================== *)

(** *** What a call can have done, whatever its outcome *)

Lemma bind_inv {S A B} (m : Eff S A) (k : A → Eff S B) s r s'' :
  bind m k s = (r, s'') →
  (∃ e, m s = (inl e, s'') ∧ r = inl e) ∨
  (∃ a s', m s = (inr a, s') ∧ k a s' = (r, s'')).
Proof.
  unfold bind. destruct (m s) as [[e|a] s'] eqn:Hm.
  - intros [= <- <-]. left. exists e. split; reflexivity.
  - intros Hk. right. exists a, s'. split; [reflexivity|exact Hk].
Qed.

Lemma emitEvent_log_grows event this r this' :
  emitEvent event this = (r, this') →
  ∃ published, this' = set_emitted (emitted this ++ published) this.
Proof.
  intros Hrun. destruct (emitEvent_inv _ _ _ _ Hrun) as (published & -> & _).
  exists published. reflexivity.
Qed.

Lemma emit_tool_calls_log_grows calls : ∀ this r this',
  for_of calls (λ toolCall, emitEvent (tool_call toolCall)) this = (r, this') →
  ∃ published, this' = set_emitted (emitted this ++ published) this.
Proof.
  induction calls as [|toolCall calls IH]; intros this r this' Hrun.
  - injection Hrun as _ <-. exists []. destruct this.
    unfold set_emitted. simpl. rewrite app_nil_r. reflexivity.
  - simpl in Hrun.
    apply bind_inv in Hrun as [(e & Hfirst & _)|(u & mid & Hfirst & Hrest)].
    + apply (emitEvent_log_grows _ _ _ _ Hfirst).
    + apply emitEvent_log_grows in Hfirst as [published ->].
      apply IH in Hrest as [published' ->].
      exists (published ++ published'). merge_logs. reflexivity.
Qed.

Lemma tool_calls_log_grows (calls : option (list ToolCall)) this r this' :
  match calls with
  | Some calls => for_of calls (λ toolCall, emitEvent (tool_call toolCall))
  | None => ret tt
  end this = (r, this') →
  ∃ published, this' = set_emitted (emitted this ++ published) this.
Proof.
  destruct calls as [calls|].
  - apply emit_tool_calls_log_grows.
  - intros [= _ <-]. exists []. destruct this.
    unfold set_emitted. simpl. rewrite app_nil_r. reflexivity.
Qed.

(** Splits the first call off a sequence [H] that ended in any way: one
    goal where the first call threw, one where the rest ran. *)
Ltac first_call_any H Hfirst :=
  let e := fresh "e" in
  let a := fresh "a" in
  let mid := fresh "mid" in
  apply bind_inv in H as [(e & Hfirst & ->)|(a & mid & Hfirst & H)].

Ltac log_grew := repeat apply prefix_app_r; reflexivity.

(** The part of an effect that concerns setup, sessions and log, on a
    state in record form. *)
Ltac setup_kept :=
  split; [repeat split|]; split; [reflexivity|]; split; [log_grew|].

(** Everything [processAudio] can have done when it comes back, returning
    or throwing: the event log has grown; the session store, the
    providers, the prompt and the listeners are as they were; and of the
    messages either none was pushed, or the user message was pushed and
    the array not filed, or both messages were pushed and the array
    filed. *)
Lemma processAudio_effect sessionId audio now this r this' :
  processAudio sessionId audio now this = (r, this') →
  same_setup this this' ∧
  sessionManager this' = sessionManager this ∧
  emitted this `prefix_of` emitted this' ∧
  ((arrays this' = arrays this ∧
    conversationHistory this' = conversationHistory this) ∨
   (∃ transcript,
      appended_to sessionId [user_message transcript] false this this') ∨
   (∃ transcript llmResponse,
      appended_to sessionId
        [user_message transcript; assistant_message llmResponse] true this this')).
Proof.
  intros Hrun. unfold processAudio in Hrun.
  unfold same_setup, appended_to, getConversationHistory, history_ref.
  destruct this as [speech llm manager prompt ledger heap ls log].
  cbn [speechProvider llmProvider sessionManager systemPrompt
       conversationHistory arrays listeners emitted].
  first_call_any Hrun Hget; [discriminate|].
  apply get_inv in Hget as [-> ->]. flatten_in Hrun.
  destruct (getSession sessionId manager) as [session|] eqn:Hfound.
  2: { injection Hrun as _ <-. flatten.
       setup_kept. left. split; reflexivity. }
  first_call_any Hrun Hemit1.
  { apply emitEvent_log_grows in Hemit1 as [published ->]. flatten.
    setup_kept. left. split; reflexivity. }
  apply emitEvent_log_grows in Hemit1 as [published1 ->]. flatten_in Hrun.
  first_call_any Hrun Htranscribe.
  { rewrite await_transcribe_run in Htranscribe.
    injection Htranscribe as _ <-. flatten.
    setup_kept. left. split; reflexivity. }
  rewrite await_transcribe_run in Htranscribe.
  injection Htranscribe as _ <-. flatten_in Hrun.
  first_call_any Hrun Hemit2.
  { apply emitEvent_log_grows in Hemit2 as [published ->]. flatten.
    setup_kept. left. split; reflexivity. }
  apply emitEvent_log_grows in Hemit2 as [published2 ->]. flatten_in Hrun.
  first_call_any Hrun Hhistory;
    [rewrite history_or_new_run in Hhistory; discriminate|].
  rewrite history_or_new_run in Hhistory. unfold history_ref in Hhistory.
  flatten_in Hhistory.
  destruct (ledger !! sessionId) as [history|] eqn:Hledger.
  all: injection Hhistory as <- <-.
  all: first_call_any Hrun Hpush1; [discriminate|].
  all: apply modify_inv in Hpush1 as ->; flatten_in Hrun.
  all: rewrite ?lookup_insert_eq, ?insert_insert_eq in Hrun.
  all: cbn [default from_option] in Hrun; unfold id in Hrun.
  all: first_call_any Hrun Hemit3.
  1, 3: apply emitEvent_log_grows in Hemit3 as [published ->]; flatten;
        setup_kept; right; left; eexists; split; reflexivity.
  all: apply emitEvent_log_grows in Hemit3 as [published3 ->]; flatten_in Hrun.
  all: first_call_any Hrun Hcomplete.
  1, 3: rewrite await_complete_run in Hcomplete;
        injection Hcomplete as _ <-; flatten;
        setup_kept; right; left; eexists; split; reflexivity.
  all: rewrite await_complete_run in Hcomplete.
  all: injection Hcomplete as _ <-; flatten_in Hrun.
  all: first_call_any Hrun Hemit4.
  1, 3: apply emitEvent_log_grows in Hemit4 as [published ->]; flatten;
        setup_kept; right; left; eexists; split; reflexivity.
  all: apply emitEvent_log_grows in Hemit4 as [published4 ->]; flatten_in Hrun.
  all: first_call_any Hrun Hpush2; [discriminate|].
  all: apply modify_inv in Hpush2 as ->; flatten_in Hrun.
  all: rewrite ?lookup_insert_eq, ?insert_insert_eq in Hrun.
  all: cbn [default from_option] in Hrun; unfold id in Hrun.
  all: first_call_any Hrun Hset; [discriminate|].
  all: apply modify_inv in Hset as ->; flatten_in Hrun.
  all: first_call_any Hrun Hcalls.
  all: apply tool_calls_log_grows in Hcalls as [published5 ->].
  all: try (injection Hrun as _ <-).
  all: flatten; setup_kept; right; right; eexists _, _.
  all: split; [rewrite <- ?app_assoc; reflexivity|reflexivity].
Qed.

(** Everything [sendToolResult] can have done when it comes back: setup,
    sessions and log as for a turn; the tool message was pushed in any
    case, and when the completion succeeded the assistant message was
    pushed too and the array filed. *)
Lemma sendToolResult_effect JSON_stringify sessionId toolCall result this r this' :
  sendToolResult JSON_stringify sessionId toolCall result this = (r, this') →
  same_setup this this' ∧
  sessionManager this' = sessionManager this ∧
  emitted this `prefix_of` emitted this' ∧
  (appended_to sessionId [tool_message (JSON_stringify result) toolCall]
     false this this' ∨
   ∃ llmResponse,
     appended_to sessionId
       [tool_message (JSON_stringify result) toolCall;
        assistant_message llmResponse] true this this').
Proof.
  destruct (complete (llmProvider this) (tool_request sessionId this)
              (getConversationHistory sessionId this
               ++ [tool_message (JSON_stringify result) toolCall]))
    as [cause|llmResponse] eqn:Hllm.
  - rewrite (sendToolResult_rejected _ _ _ _ _ _ Hllm).
    intros [= _ <-]. unfold same_setup, appended_to. project.
    split; [repeat split|]. split; [reflexivity|]. split; [reflexivity|].
    left. split; reflexivity.
  - rewrite (sendToolResult_completed _ _ _ _ _ _ Hllm). cbv zeta.
    destruct (emitEvent _ _) as [[thrown|[]] final] eqn:Hemit.
    all: intros [= _ <-].
    all: apply emitEvent_log_grows in Hemit as [published ->].
    all: unfold same_setup, appended_to, tool_result_filed; project.
    all: split; [repeat split|]; split; [reflexivity|].
    all: split; [apply prefix_app_r; reflexivity|].
    all: right; exists llmResponse; split; reflexivity.
Qed.

(** How the history of [sessionId] reads after messages went onto its
    array: with them when the array is, or has now been, filed under the
    id; empty as before when it was a new array that was not filed. *)
Lemma history_after_appended sessionId messages' filed this this' :
  appended_to sessionId messages' filed this this' →
  getConversationHistory sessionId this' =
    getConversationHistory sessionId this ++
    (if filed then messages'
     else if conversationHistory this !! sessionId is Some _ then messages' else []).
Proof.
  intros [Harrays Hmap].
  unfold getConversationHistory, read_array, history_ref in *.
  rewrite Hmap, Harrays.
  destruct filed.
  - rewrite !lookup_insert_eq. reflexivity.
  - destruct (conversationHistory this !! sessionId) as [history|].
    + rewrite lookup_insert_eq. reflexivity.
    + reflexivity.
Qed.

(** With the histories apart, messages that went onto the array of one
    session do not show in the history of another. *)
Lemma history_of_other_after_appended sessionId messages' filed this this' other :
  histories_apart this →
  appended_to sessionId messages' filed this this' →
  other ≠ sessionId →
  getConversationHistory other this' = getConversationHistory other this.
Proof.
  intros [Hstored Hapart] [Harrays Hmap] Hother.
  unfold getConversationHistory, read_array.
  assert (conversationHistory this' !! other = conversationHistory this !! other)
    as ->.
  { rewrite Hmap. destruct filed; [|reflexivity].
    apply lookup_insert_ne. congruence. }
  destruct (conversationHistory this !! other) as [history|] eqn:Hentry;
    [|reflexivity].
  rewrite Harrays, lookup_insert_ne; [reflexivity|].
  unfold history_ref.
  destruct (conversationHistory this !! sessionId) as [history'|] eqn:Hown.
  - intros ->. apply Hother. exact (Hapart _ _ _ Hentry Hown).
  - intros <-. destruct (Hstored _ _ Hentry) as [messages'' Hin].
    apply (is_fresh (dom (arrays this))).
    apply elem_of_dom. exists messages''. exact Hin.
Qed.

Lemma appended_keeps_apart sessionId messages' filed this this' :
  histories_apart this →
  appended_to sessionId messages' filed this this' →
  histories_apart this'.
Proof.
  intros [Hstored Hapart] [Harrays Hmap].
  assert (∀ id history, conversationHistory this !! id = Some history →
                        history ≠ fresh (dom (arrays this))) as Hold.
  { intros id history Hentry ->. destruct (Hstored _ _ Hentry) as [x Hx].
    apply (is_fresh (dom (arrays this))). apply elem_of_dom. exists x. exact Hx. }
  split.
  - intros id history. rewrite Hmap, Harrays. intros Hentry.
    destruct (decide (history = history_ref sessionId this)) as [->|Hne].
    + rewrite lookup_insert_eq. eexists. reflexivity.
    + rewrite lookup_insert_ne by congruence.
      destruct filed; [|exact (Hstored _ _ Hentry)].
      rewrite lookup_insert in Hentry.
      destruct (decide (sessionId = id)); [congruence|].
      exact (Hstored _ _ Hentry).
  - intros id1 id2 history. rewrite Hmap.
    destruct filed; [|apply Hapart].
    rewrite !lookup_insert. unfold history_ref.
    destruct (decide (sessionId = id1)) as [<-|Hne1];
      destruct (decide (sessionId = id2)) as [<-|Hne2].
    + reflexivity.
    + intros [= <-] Hentry.
      destruct (conversationHistory this !! sessionId) as [own|] eqn:Hown.
      * exact (Hapart _ _ _ Hown Hentry).
      * exfalso. exact (Hold _ _ Hentry eq_refl).
    + intros Hentry [= <-].
      destruct (conversationHistory this !! sessionId) as [own|] eqn:Hown.
      * exact (Hapart _ _ _ Hentry Hown).
      * exfalso. exact (Hold _ _ Hentry eq_refl).
    + apply Hapart.
Qed.

(** X11: a turn, however it ends, acts on the history and the event log
    only. After [processAudio] and after [sendToolResult], returned or
    thrown, the session store is the one from before (no status, time or
    metadata of any session has changed), the providers, the prompt and
    the listeners are the same, and the events published before are
    still the beginning of the log. *)
Theorem turn_leaves_sessions_alone
    (JSON_stringify : Json → string)
    (sessionId : string) (audio : Buffer) (now : Z)
    (toolCall : ToolCall) (result : Json) (this : VoiceAgent) :
  (sessionManager (processAudio sessionId audio now this).2 = sessionManager this ∧
   same_setup this (processAudio sessionId audio now this).2 ∧
   emitted this `prefix_of` emitted (processAudio sessionId audio now this).2) ∧
  (sessionManager
     (sendToolResult JSON_stringify sessionId toolCall result this).2
     = sessionManager this ∧
   same_setup this
     (sendToolResult JSON_stringify sessionId toolCall result this).2 ∧
   emitted this `prefix_of`
     emitted (sendToolResult JSON_stringify sessionId toolCall result this).2).
Proof.
  split.
  - destruct (processAudio sessionId audio now this) as [r this'] eqn:Hrun.
    destruct (processAudio_effect _ _ _ _ _ _ Hrun) as (Hsetup & Hsessions & Hlog & _).
    cbn [snd]. split; [exact Hsessions|]. split; [exact Hsetup|exact Hlog].
  - destruct (sendToolResult JSON_stringify sessionId toolCall result this)
      as [r this'] eqn:Hrun.
    destruct (sendToolResult_effect _ _ _ _ _ _ _ Hrun)
      as (Hsetup & Hsessions & Hlog & _).
    cbn [snd]. split; [exact Hsessions|]. split; [exact Hsetup|exact Hlog].
Qed.

(** X12: the history of a session only ever grows at its end. After
    [processAudio], however it ended, the history reads as before
    followed by nothing, by one user message, or by a user message and an
    assistant message; after [sendToolResult], as before followed by
    nothing, by the tool message, or by the tool message and an assistant
    message. Nothing that was in the history is changed or removed. *)
Theorem history_is_append_only
    (JSON_stringify : Json → string)
    (sessionId : string) (audio : Buffer) (now : Z)
    (toolCall : ToolCall) (result : Json) (this : VoiceAgent) :
  (∃ added,
     getConversationHistory sessionId (processAudio sessionId audio now this).2
       = getConversationHistory sessionId this ++ added ∧
     (added = [] ∨
      (∃ transcript, added = [user_message transcript]) ∨
      (∃ transcript llmResponse,
         added = [user_message transcript; assistant_message llmResponse]))) ∧
  (∃ added,
     getConversationHistory sessionId
       (sendToolResult JSON_stringify sessionId toolCall result this).2
       = getConversationHistory sessionId this ++ added ∧
     (added = [] ∨
      added = [tool_message (JSON_stringify result) toolCall] ∨
      (∃ llmResponse,
         added = [tool_message (JSON_stringify result) toolCall;
                  assistant_message llmResponse]))).
Proof.
  split.
  - destruct (processAudio sessionId audio now this) as [r this'] eqn:Hrun.
    destruct (processAudio_effect _ _ _ _ _ _ Hrun)
      as (_ & _ & _ & [[Harrays Hmap]|[[transcript Happ]|(transcript & llmResponse & Happ)]]).
    + exists []. split; [|left; reflexivity].
      cbn [snd]. unfold getConversationHistory, read_array.
      rewrite Hmap, Harrays, app_nil_r. reflexivity.
    + eexists. split; [apply (history_after_appended _ _ _ _ _ Happ)|].
      destruct (conversationHistory this !! sessionId).
      * right. left. exists transcript. reflexivity.
      * left. reflexivity.
    + eexists. split; [apply (history_after_appended _ _ _ _ _ Happ)|].
      right. right. exists transcript, llmResponse. reflexivity.
  - destruct (sendToolResult JSON_stringify sessionId toolCall result this)
      as [r this'] eqn:Hrun.
    destruct (sendToolResult_effect _ _ _ _ _ _ _ Hrun)
      as (_ & _ & _ & [Happ|[llmResponse Happ]]).
    + eexists. split; [apply (history_after_appended _ _ _ _ _ Happ)|].
      destruct (conversationHistory this !! sessionId).
      * right. left. reflexivity.
      * left. reflexivity.
    + eexists. split; [apply (history_after_appended _ _ _ _ _ Happ)|].
      right. right. exists llmResponse. reflexivity.
Qed.

(** *** Starting and ending a session *)

Lemma new_array_run this :
  new_array this =
    (inr (fresh (dom (arrays this))),
     set_arrays (<[fresh (dom (arrays this)) := []]> (arrays this)) this).
Proof. reflexivity. Qed.

(** [startSession] in one equation: the session is stored and an empty
    array filed before anything is published; the status goes to
    [ACTIVE] only if publishing [session:start] did not throw. *)
Lemma startSession_run config uuid now this :
  startSession config uuid now this =
    let session := created_session config uuid now in
    match emitEvent (session_start session) (session_filed session this) with
    | (inr _, this') =>
        (inr (set_status ACTIVE session),
         set_sessionManager
           {| sessions :=
                <[session_id session := set_status ACTIVE session]>
                  (sessions (sessionManager this')) |}
           this')
    | (inl e, this') => (inl e, this')
    end.
Proof.
  cbv zeta. unfold startSession, session_filed.
  destruct this as [speech llm manager prompt ledger heap ls log].
  call_returns ltac:(apply on_sessionManager_run; reflexivity). flatten.
  call_returns ltac:(apply new_array_run). flatten.
  call_returns ltac:(reflexivity). flatten.
  fold (created_session config uuid now).
  unfold bind at 1.
  match goal with
  | |- context [emitEvent ?ev ?st] =>
      destruct (emitEvent ev st) as [[thrown|[]] final] eqn:Hemit
  end; [reflexivity|].
  apply emitEvent_log_grows in Hemit as [published ->]. flatten.
  call_returns ltac:(apply on_sessionManager_run;
                     apply (updateSessionStatus_found _ _ _ _
                              (created_session config uuid now));
                     apply lookup_insert_eq).
  rewrite decide_False by discriminate. reflexivity.
Qed.

(** X13: a session that starts. When no listener throws on
    [session:start], [startSession] returns the session with status
    [ACTIVE]; the store holds it under its id with that status, started
    now and not ended; its history reads empty, also when the id had a
    session and a history before; the one event published is
    [session:start], carrying the session as it was when published,
    still [IDLE]; and no other session is touched. *)
Theorem startSession_activates
    (config : SessionConfig) (uuid : string) (now : Z) (this : VoiceAgent) :
  accepts this (session_start (created_session config uuid now)) →
  ∃ session this',
    startSession config uuid now this = (inr session, this') ∧
    session_id session = string_or (config_id config) uuid ∧
    status session = ACTIVE ∧
    startedAt session = now ∧
    endedAt session = None ∧
    VoiceAgent_getSession (session_id session) this' = Some session ∧
    getConversationHistory (session_id session) this' = [] ∧
    emitted this' =
      emitted this ++
      emitEvent_log [session_start (created_session config uuid now)] ∧
    status (created_session config uuid now) = IDLE ∧
    ∀ other, other ≠ session_id session →
      VoiceAgent_getSession other this' = VoiceAgent_getSession other this.
Proof.
  intros Hacc. rewrite startSession_run. cbv zeta.
  rewrite emitEvent_accepted by exact Hacc.
  eexists _, _. split; [reflexivity|].
  unfold VoiceAgent_getSession, getSession, getConversationHistory, read_array,
    session_filed.
  project. cbn [session_id status startedAt endedAt set_status created_session
                sessions].
  repeat (split; [reflexivity|]).
  split; [apply lookup_insert_eq|].
  split; [rewrite !lookup_insert_eq; reflexivity|].
  repeat (split; [reflexivity|]).
  intros other Hother. rewrite !lookup_insert_ne by congruence. reflexivity.
Qed.

Lemma startSession_activates_witness :
  ∃ session this',
    startSession (config_with_id (Some "s1")) "uuid-9" 5000
      (agent_started speech_up llm_up) = (inr session, this') ∧
    session_id session = string_or (config_id (config_with_id (Some "s1"))) "uuid-9" ∧
    status session = ACTIVE ∧
    startedAt session = 5000%Z ∧
    endedAt session = None ∧
    VoiceAgent_getSession (session_id session) this' = Some session ∧
    getConversationHistory (session_id session) this' = [] ∧
    emitted this' =
      emitted (agent_started speech_up llm_up) ++
      emitEvent_log
        [session_start (created_session (config_with_id (Some "s1")) "uuid-9" 5000)] ∧
    status (created_session (config_with_id (Some "s1")) "uuid-9" 5000) = IDLE ∧
    ∀ other, other ≠ session_id session →
      VoiceAgent_getSession other this'
      = VoiceAgent_getSession other (agent_started speech_up llm_up).
Proof.
  apply (startSession_activates (config_with_id (Some "s1")) "uuid-9" 5000
           (agent_started speech_up llm_up)).
  split; reflexivity.
Defined.

(** X14: a start that is interrupted. When a listener throws on
    [session:start], [startSession] throws what the listener threw, and
    the session it had already created stays behind: it is in the store
    under its id with status [IDLE], never activated, and an empty
    history is filed for it. *)
Theorem startSession_interrupted_leaves_idle_session
    (config : SessionConfig) (uuid : string) (now : Z) (this : VoiceAgent) :
  ¬ accepts this (session_start (created_session config uuid now)) →
  ∃ cause this',
    startSession config uuid now this
      = (inl (Propagated event_listener cause), this') ∧
    VoiceAgent_getSession (string_or (config_id config) uuid) this'
      = Some (created_session config uuid now) ∧
    status (created_session config uuid now) = IDLE ∧
    is_Some (conversationHistory this' !! string_or (config_id config) uuid) ∧
    getConversationHistory (string_or (config_id config) uuid) this' = [].
Proof.
  intros Hrefused. rewrite startSession_run. cbv zeta.
  destruct (emitEvent _ _) as [[thrown|[]] final] eqn:Hemit.
  - destruct (emitEvent_inv _ _ _ _ Hemit) as (published & -> & _ & Hforeign).
    destruct (Hforeign thrown eq_refl) as [cause ->].
    exists cause. eexists. split; [reflexivity|].
    unfold VoiceAgent_getSession, getSession, getConversationHistory, read_array,
      session_filed.
    project. cbn [session_id created_session sessions].
    split; [apply lookup_insert_eq|]. split; [reflexivity|].
    rewrite !lookup_insert_eq. split; [eexists|]; reflexivity.
  - exfalso. apply Hrefused.
    apply emitEvent_returned in Hemit as [Hacc _]. exact Hacc.
Qed.

Lemma startSession_interrupted_leaves_idle_session_witness :
  ∃ cause this',
    startSession (config_with_id (Some "s1")) "uuid-1" 1000
      agent_with_failing_listener
      = (inl (Propagated event_listener cause), this') ∧
    VoiceAgent_getSession (string_or (config_id (config_with_id (Some "s1"))) "uuid-1") this'
      = Some (created_session (config_with_id (Some "s1")) "uuid-1" 1000) ∧
    status (created_session (config_with_id (Some "s1")) "uuid-1" 1000) = IDLE ∧
    is_Some (conversationHistory this'
               !! string_or (config_id (config_with_id (Some "s1"))) "uuid-1") ∧
    getConversationHistory
      (string_or (config_id (config_with_id (Some "s1"))) "uuid-1") this' = [].
Proof.
  apply (startSession_interrupted_leaves_idle_session
           (config_with_id (Some "s1")) "uuid-1" 1000 agent_with_failing_listener).
  intros [Hany _]. vm_compute in Hany. discriminate.
Defined.

Lemma VoiceAgent_endSession_run sessionId now this session :
  getSession sessionId (sessionManager this) = Some session →
  VoiceAgent_endSession sessionId now this =
    emitEvent (session_end (stamp_end now (set_status ENDED session)))
              (session_closed sessionId now session this).
Proof.
  intros Hfound. unfold VoiceAgent_endSession, session_closed.
  destruct this as [speech llm manager prompt ledger heap ls log].
  cbn [speechProvider llmProvider sessionManager systemPrompt
       conversationHistory arrays listeners emitted] in *.
  call_returns ltac:(reflexivity). flatten. rewrite Hfound.
  call_returns ltac:(apply on_sessionManager_run, endSession_found, Hfound).
  flatten.
  call_returns ltac:(reflexivity). flatten.
  reflexivity.
Qed.

(** *** Which exceptions come from where *)















(** X16: ending a session keeps it. On a session that exists,
    [endSession] leaves it in the store, under the same id, with status
    [ENDED], the end time read from the clock and the duration computed
    from it; the history entry of the id is removed, so its history reads
    empty; no other session and no other history is touched. All this
    holds also when a listener throws on [session:end], which is
    published last; when none throws, the call returns and that event,
    carrying the ended session, is the one event published. *)
Theorem VoiceAgent_endSession_keeps_the_session
    (sessionId : string) (now : Z) (this : VoiceAgent) (session : VoiceSession) :
  VoiceAgent_getSession sessionId this = Some session →
  ∃ r this' ended,
    VoiceAgent_endSession sessionId now this = (r, this') ∧
    VoiceAgent_getSession sessionId this' = Some ended ∧
    status ended = ENDED ∧
    endedAt ended = Some now ∧
    duration ended = Some (Qmake (now - startedAt session) 1000) ∧
    startedAt ended = startedAt session ∧
    conversationHistory this' !! sessionId = None ∧
    getConversationHistory sessionId this' = [] ∧
    (∀ other, other ≠ sessionId →
       VoiceAgent_getSession other this' = VoiceAgent_getSession other this ∧
       getConversationHistory other this' = getConversationHistory other this) ∧
    (accepts this (session_end ended) →
       r = inr tt ∧
       emitted this' = emitted this ++ emitEvent_log [session_end ended]).
Proof.
  unfold VoiceAgent_getSession. intros Hfound.
  rewrite (VoiceAgent_endSession_run _ _ _ _ Hfound).
  destruct (emitEvent _ _) as [r final] eqn:Hemit.
  exists r, final, (stamp_end now (set_status ENDED session)).
  split; [reflexivity|].
  pose proof (emitEvent_log_grows _ _ _ _ Hemit) as [published Hfinal].
  assert (VoiceAgent_getSession sessionId final
          = Some (stamp_end now (set_status ENDED session))) as Hstored.
  { rewrite Hfinal. unfold VoiceAgent_getSession, getSession, session_closed.
    project. cbn [sessions]. apply lookup_insert_eq. }
  split; [exact Hstored|].
  repeat (split; [reflexivity|]).
  assert (conversationHistory final !! sessionId = None) as Hgone.
  { rewrite Hfinal. unfold session_closed. project. apply lookup_delete_eq. }
  split; [exact Hgone|].
  split; [unfold getConversationHistory; rewrite Hgone; reflexivity|].
  split.
  - intros other Hother. rewrite Hfinal.
    unfold getSession, getConversationHistory, read_array, session_closed.
    project. cbn [sessions].
    rewrite lookup_insert_ne by congruence.
    rewrite lookup_delete_ne by congruence. split; reflexivity.
  - intros Hacc.
    rewrite emitEvent_accepted in Hemit by exact Hacc.
    injection Hemit as <- <-. split; reflexivity.
Qed.

Lemma VoiceAgent_endSession_keeps_the_session_witness :
  ∃ r this' ended,
    VoiceAgent_endSession "s1" 2000 (agent_started speech_up llm_up) = (r, this') ∧
    VoiceAgent_getSession "s1" this' = Some ended ∧
    status ended = ENDED ∧
    endedAt ended = Some 2000%Z ∧
    duration ended = Some (Qmake (2000 - startedAt session_s1_active) 1000) ∧
    startedAt ended = startedAt session_s1_active ∧
    conversationHistory this' !! "s1" = None ∧
    getConversationHistory "s1" this' = [] ∧
    (∀ other, other ≠ "s1" →
       VoiceAgent_getSession other this'
       = VoiceAgent_getSession other (agent_started speech_up llm_up) ∧
       getConversationHistory other this'
       = getConversationHistory other (agent_started speech_up llm_up)) ∧
    (accepts (agent_started speech_up llm_up) (session_end ended) →
       r = inr tt ∧
       emitted this' = emitted (agent_started speech_up llm_up)
                       ++ emitEvent_log [session_end ended]).
Proof.
  apply (VoiceAgent_endSession_keeps_the_session "s1" 2000
           (agent_started speech_up llm_up) session_s1_active).
  vm_compute. reflexivity.
Defined.

(** *** Histories stay apart *)

Lemma startSession_histories config uuid now this :
  conversationHistory (startSession config uuid now this).2
    = <[string_or (config_id config) uuid := fresh (dom (arrays this))]>
        (conversationHistory this) ∧
  arrays (startSession config uuid now this).2
    = <[fresh (dom (arrays this)) := []]> (arrays this).
Proof.
  rewrite startSession_run. cbv zeta.
  destruct (emitEvent _ _) as [[thrown|[]] final] eqn:Hemit.
  all: apply emitEvent_log_grows in Hemit as [published ->].
  all: unfold session_filed; cbn [snd]; project.
  all: split; reflexivity.
Qed.

Lemma VoiceAgent_endSession_histories sessionId now this :
  arrays (VoiceAgent_endSession sessionId now this).2 = arrays this ∧
  (conversationHistory (VoiceAgent_endSession sessionId now this).2
     = delete sessionId (conversationHistory this) ∨
   conversationHistory (VoiceAgent_endSession sessionId now this).2
     = conversationHistory this).
Proof.
  destruct (getSession sessionId (sessionManager this)) as [session|] eqn:Hfound.
  - rewrite (VoiceAgent_endSession_run _ _ _ _ Hfound).
    destruct (emitEvent _ _) as [r final] eqn:Hemit.
    apply emitEvent_log_grows in Hemit as [published ->].
    unfold session_closed. cbn [snd]. project.
    split; [reflexivity|]. left. reflexivity.
  - unfold VoiceAgent_endSession, bind, get. rewrite Hfound. cbn [snd].
    split; [reflexivity|]. right. reflexivity.
Qed.

Lemma new_VoiceAgent_apart speech llm prompt :
  histories_apart (new_VoiceAgent speech llm prompt).
Proof.
  split.
  - intros id history. cbn [conversationHistory new_VoiceAgent].
    rewrite lookup_empty. discriminate.
  - intros id1 id2 history. cbn [conversationHistory new_VoiceAgent].
    rewrite lookup_empty. discriminate.
Qed.

Lemma run_agent_op_keeps_apart JSON_stringify op this :
  histories_apart this → histories_apart (run_agent_op JSON_stringify op this).
Proof.
  intros Hthis.
  destruct op as [config uuid now | sessionId audio now
                 | sessionId toolCall result | sessionId now | listener];
    cbn [run_agent_op].
  - destruct (startSession_histories config uuid now this) as [Hmap Harrays].
    destruct Hthis as [Hstored Hapart].
    assert (∀ id history, conversationHistory this !! id = Some history →
                          history ≠ fresh (dom (arrays this))) as Hold.
    { intros id history Hentry ->. destruct (Hstored _ _ Hentry) as [x Hx].
      apply (is_fresh (dom (arrays this))). apply elem_of_dom.
      exists x. exact Hx. }
    split.
    + intros id history. rewrite Hmap, Harrays, lookup_insert.
      destruct (decide (string_or (config_id config) uuid = id)).
      * intros [= <-]. rewrite lookup_insert_eq. eexists. reflexivity.
      * intros Hentry. rewrite lookup_insert_ne by (apply not_eq_sym, (Hold _ _ Hentry)).
        exact (Hstored _ _ Hentry).
    + intros id1 id2 history. rewrite Hmap, !lookup_insert.
      destruct (decide (string_or (config_id config) uuid = id1)) as [<-|Hne1];
        destruct (decide (string_or (config_id config) uuid = id2)) as [<-|Hne2].
      * reflexivity.
      * intros [= <-] Hentry. exfalso. exact (Hold _ _ Hentry eq_refl).
      * intros Hentry [= <-]. exfalso. exact (Hold _ _ Hentry eq_refl).
      * apply Hapart.
  - destruct (processAudio sessionId audio now this) as [r this'] eqn:Hrun.
    destruct (processAudio_effect _ _ _ _ _ _ Hrun)
      as (_ & _ & _ & [[Harrays Hmap]|[[transcript Happ]|(transcript & llmResponse & Happ)]]).
    + destruct Hthis as [Hstored Hapart]. cbn [snd].
      split; rewrite Hmap; [rewrite Harrays|]; assumption.
    + exact (appended_keeps_apart _ _ _ _ _ Hthis Happ).
    + exact (appended_keeps_apart _ _ _ _ _ Hthis Happ).
  - destruct (sendToolResult JSON_stringify sessionId toolCall result this)
      as [r this'] eqn:Hrun.
    destruct (sendToolResult_effect _ _ _ _ _ _ _ Hrun)
      as (_ & _ & _ & [Happ|[llmResponse Happ]]).
    + exact (appended_keeps_apart _ _ _ _ _ Hthis Happ).
    + exact (appended_keeps_apart _ _ _ _ _ Hthis Happ).
  - destruct (VoiceAgent_endSession_histories sessionId now this)
      as [Harrays [Hmap|Hmap]].
    + destruct Hthis as [Hstored Hapart]. split.
      * intros id history. rewrite Hmap, Harrays. intros Hentry.
        apply lookup_delete_Some in Hentry as [_ Hentry].
        exact (Hstored _ _ Hentry).
      * intros id1 id2 history. rewrite Hmap. intros Hentry1 Hentry2.
        apply lookup_delete_Some in Hentry1 as [_ Hentry1].
        apply lookup_delete_Some in Hentry2 as [_ Hentry2].
        exact (Hapart _ _ _ Hentry1 Hentry2).
    + destruct Hthis as [Hstored Hapart].
      split; rewrite Hmap; [rewrite Harrays|]; assumption.
  - exact Hthis.
Qed.

Lemma run_agent_ops_keep_apart JSON_stringify ops : ∀ this,
  histories_apart this → histories_apart (run_agent_ops JSON_stringify ops this).
Proof.
  induction ops as [|op ops IH]; intros this Hthis; [exact Hthis|].
  simpl. apply IH, run_agent_op_keeps_apart, Hthis.
Qed.

(** X17: in every agent reachable from a new one by calls of
    [startSession], [processAudio], [sendToolResult], [endSession] and
    [onEvent], returned or thrown, every history entry points to an array
    of its own: no two session ids share a message array, not even after
    a session was started again under an id in use or a turn ran on an
    ended session. *)
Theorem reachable_histories_apart
    (JSON_stringify : Json → string) (this : VoiceAgent) :
  reachable_agent JSON_stringify this →
  (∀ id history, conversationHistory this !! id = Some history →
                 is_Some (arrays this !! history)) ∧
  (∀ id1 id2 history,
     conversationHistory this !! id1 = Some history →
     conversationHistory this !! id2 = Some history → id1 = id2).
Proof.
  intros (speech & llm & prompt & ops & ->).
  apply run_agent_ops_keep_apart, new_VoiceAgent_apart.
Qed.

Lemma reachable_histories_apart_witness :
  (∀ id history, conversationHistory agent_two_sessions !! id = Some history →
                 is_Some (arrays agent_two_sessions !! history)) ∧
  (∀ id1 id2 history,
     conversationHistory agent_two_sessions !! id1 = Some history →
     conversationHistory agent_two_sessions !! id2 = Some history → id1 = id2).
Proof.
  apply (reachable_histories_apart (λ _, "{}") agent_two_sessions).
  exists speech_up, llm_up, "You are a helpful assistant.",
    [call_startSession (config_with_id (Some "s1")) "uuid-1" 1000;
     call_startSession (config_with_id (Some "s2")) "uuid-2" 1100;
     call_processAudio "s2" sample_audio 1200].
  reflexivity.
Defined.

(** X18: sessions do not see each other's turns. In every reachable
    agent, [processAudio] and [sendToolResult] on one session id, however
    they end, leave the history of every other session id reading
    exactly as before. *)
Theorem turn_leaves_other_histories_alone
    (JSON_stringify : Json → string)
    (sessionId other : string) (audio : Buffer) (now : Z)
    (toolCall : ToolCall) (result : Json) (this : VoiceAgent) :
  reachable_agent JSON_stringify this →
  other ≠ sessionId →
  getConversationHistory other (processAudio sessionId audio now this).2
    = getConversationHistory other this ∧
  getConversationHistory other
    (sendToolResult JSON_stringify sessionId toolCall result this).2
    = getConversationHistory other this.
Proof.
  intros (speech & llm & prompt & ops & ->) Hother.
  set (this := run_agent_ops JSON_stringify ops (new_VoiceAgent speech llm prompt)).
  assert (histories_apart this) as Hthis
    by apply run_agent_ops_keep_apart, new_VoiceAgent_apart.
  split.
  - destruct (processAudio sessionId audio now this) as [r this'] eqn:Hrun.
    destruct (processAudio_effect _ _ _ _ _ _ Hrun)
      as (_ & _ & _ & [[Harrays Hmap]|[[transcript Happ]|(transcript & llmResponse & Happ)]]).
    + cbn [snd]. unfold getConversationHistory, read_array.
      rewrite Hmap, Harrays. reflexivity.
    + exact (history_of_other_after_appended _ _ _ _ _ _ Hthis Happ Hother).
    + exact (history_of_other_after_appended _ _ _ _ _ _ Hthis Happ Hother).
  - destruct (sendToolResult JSON_stringify sessionId toolCall result this)
      as [r this'] eqn:Hrun.
    destruct (sendToolResult_effect _ _ _ _ _ _ _ Hrun)
      as (_ & _ & _ & [Happ|[llmResponse Happ]]).
    + exact (history_of_other_after_appended _ _ _ _ _ _ Hthis Happ Hother).
    + exact (history_of_other_after_appended _ _ _ _ _ _ Hthis Happ Hother).
Qed.

Lemma turn_leaves_other_histories_alone_witness :
  getConversationHistory "s2"
    (processAudio "s1" sample_audio 3000 agent_two_sessions).2
    = getConversationHistory "s2" agent_two_sessions ∧
  getConversationHistory "s2"
    (sendToolResult (λ _, "{}") "s1" sample_toolCall (JObject [])
       agent_two_sessions).2
    = getConversationHistory "s2" agent_two_sessions.
Proof.
  apply (turn_leaves_other_histories_alone (λ _, "{}") "s1" "s2" sample_audio
           3000 sample_toolCall (JObject []) agent_two_sessions).
  - exists speech_up, llm_up, "You are a helpful assistant.",
      [call_startSession (config_with_id (Some "s1")) "uuid-1" 1000;
       call_startSession (config_with_id (Some "s2")) "uuid-2" 1100;
       call_processAudio "s2" sample_audio 1200].
    reflexivity.
  - discriminate.
Defined.

(** *** Listeners *)

(** X19: a listener can end a turn before it has begun. When a listener
    of the channel [event] throws on [audio:input], [processAudio] throws
    what the listener threw; the event was put on that one channel only,
    and nothing else in the agent has changed. The outcome does not
    depend on the backends: neither was called. *)
Theorem processAudio_listener_aborts_turn
    (sessionId : string) (audio : Buffer) (now : Z) (this : VoiceAgent)
    (session : VoiceSession) (cause : Exn) :
  VoiceAgent_getSession sessionId this = Some session →
  dispatch (listeners this) "event"
    (audio_input {| data := audio; timestamp := now |}) = Some cause →
  processAudio sessionId audio now this =
    (inl (Propagated event_listener cause),
     set_emitted
       (emitted this ++
        [("event", audio_input {| data := audio; timestamp := now |})])
       this) ∧
  ∀ speech llm,
    processAudio sessionId audio now
      {| speechProvider := speech; llmProvider := llm;
         sessionManager := sessionManager this; systemPrompt := systemPrompt this;
         conversationHistory := conversationHistory this; arrays := arrays this;
         listeners := listeners this; emitted := emitted this |}
    = (inl (Propagated event_listener cause),
       {| speechProvider := speech; llmProvider := llm;
          sessionManager := sessionManager this; systemPrompt := systemPrompt this;
          conversationHistory := conversationHistory this; arrays := arrays this;
          listeners := listeners this;
          emitted :=
            emitted this ++
            [("event", audio_input {| data := audio; timestamp := now |})] |}).
Proof.
  unfold VoiceAgent_getSession. intros Hfound Hthrows.
  assert (∀ agent,
            sessionManager agent = sessionManager this →
            listeners agent = listeners this →
            processAudio sessionId audio now agent =
              (inl (Propagated event_listener cause),
               set_emitted
                 (emitted agent ++
                  [("event", audio_input {| data := audio; timestamp := now |})])
                 agent)) as Hany.
  { intros agent Hsessions Hlisteners. unfold processAudio.
    call_returns ltac:(reflexivity). rewrite Hsessions, Hfound.
    call_throws ltac:(rewrite emitEvent_run, Hlisteners, Hthrows; reflexivity).
    reflexivity. }
  split.
  - apply Hany; reflexivity.
  - intros speech llm. rewrite Hany by reflexivity. reflexivity.
Qed.

Lemma processAudio_listener_aborts_turn_witness :
  processAudio "s1" sample_audio 3000 agent_start_interrupted =
    (inl (Propagated event_listener "listener failed"),
     set_emitted
       (emitted agent_start_interrupted ++
        [("event", audio_input {| data := sample_audio; timestamp := 3000 |})])
       agent_start_interrupted) ∧
  ∀ speech llm,
    processAudio "s1" sample_audio 3000
      {| speechProvider := speech; llmProvider := llm;
         sessionManager := sessionManager agent_start_interrupted;
         systemPrompt := systemPrompt agent_start_interrupted;
         conversationHistory := conversationHistory agent_start_interrupted;
         arrays := arrays agent_start_interrupted;
         listeners := listeners agent_start_interrupted;
         emitted := emitted agent_start_interrupted |}
    = (inl (Propagated event_listener "listener failed"),
       {| speechProvider := speech; llmProvider := llm;
          sessionManager := sessionManager agent_start_interrupted;
          systemPrompt := systemPrompt agent_start_interrupted;
          conversationHistory := conversationHistory agent_start_interrupted;
          arrays := arrays agent_start_interrupted;
          listeners := listeners agent_start_interrupted;
          emitted :=
            emitted agent_start_interrupted ++
            [("event", audio_input {| data := sample_audio; timestamp := 3000 |})] |}).
Proof.
  apply (processAudio_listener_aborts_turn "s1" sample_audio 3000
           agent_start_interrupted
           (created_session (config_with_id (Some "s1")) "uuid-1" 1000)
           "listener failed").
  - vm_compute. reflexivity.
  - reflexivity.
Defined.

Lemma call_listeners_app ls1 ls2 eventName event :
  call_listeners (ls1 ++ ls2) eventName event =
    match call_listeners ls1 eventName event with
    | Some e => Some e
    | None => call_listeners ls2 eventName event
    end.
Proof.
  induction ls1 as [|[registered listener] ls1 IH]; [reflexivity|].
  simpl. destruct (decide (registered = eventName)); [|exact IH].
  destruct (listener event); [reflexivity|exact IH].
Qed.

Lemma dispatch_after_onEvent ls listener eventName event :
  dispatch (ls ++ [("event", listener)]) eventName event =
    match dispatch ls eventName event with
    | Some e => Some e
    | None => if decide (eventName = "event") then listener event else None
    end.
Proof.
  unfold dispatch.
  assert (bool_decide (Exists (λ entry : string * EventListener, entry.1 = "error")
                         (ls ++ [("event", listener)]))
          = bool_decide (Exists (λ entry : string * EventListener, entry.1 = "error") ls))
    as ->.
  { apply bool_decide_ext. rewrite Exists_app, Exists_cons, Exists_nil.
    simpl. split; [|tauto]. intros [H|[H|[]]]; [exact H|discriminate]. }
  destruct (bool_decide (eventName = "error") && _); [reflexivity|].
  rewrite call_listeners_app. simpl.
  destruct (call_listeners ls eventName event); [reflexivity|].
  destruct (decide ("event" = eventName)) as [<-|Hne].
  - rewrite decide_True by reflexivity. destruct (listener event); reflexivity.
  - rewrite decide_False by congruence. reflexivity.
Qed.

(** X20: [onEvent] subscribes to every event, once. It returns; from
    then on, when an event is published, the listener is called with it
    on the channel [event] after the listeners registered earlier (and
    only if none of them threw), and it is not called on the channel of
    the event's kind. Sessions, histories and the log are untouched. *)
Theorem onEvent_subscribes_to_every_event
    (listener : EventListener) (this : VoiceAgent) :
  ∃ this',
    onEvent listener this = (inr tt, this') ∧
    (∀ event,
       dispatch (listeners this') "event" event =
         match dispatch (listeners this) "event" event with
         | Some e => Some e
         | None => listener event
         end) ∧
    (∀ event,
       dispatch (listeners this') (event_type event) event
       = dispatch (listeners this) (event_type event) event) ∧
    sessionManager this' = sessionManager this ∧
    conversationHistory this' = conversationHistory this ∧
    arrays this' = arrays this ∧
    emitted this' = emitted this.
Proof.
  eexists. split; [reflexivity|]. project.
  split; [|split; [|repeat split]].
  - intros event. rewrite dispatch_after_onEvent.
    rewrite decide_True by reflexivity. reflexivity.
  - intros event. rewrite dispatch_after_onEvent.
    rewrite decide_False by apply event_type_not_event.
    destruct (dispatch (listeners this) (event_type event) event); reflexivity.
Qed.

(** *** A tool call, there and back *)

(** X21: a turn followed by the tool's result. If [processAudio]
    returns and [sendToolResult] is then called for the same session,
    the completion backend receives the history from before the turn
    followed by the user message, the assistant message and the tool
    message, and when it answers, the history reads: as before the turn,
    then user, assistant, tool, assistant, in that order, whether or not
    a listener throws on [tool:result]. *)
Theorem tool_round_trip
    (JSON_stringify : Json → string)
    (sessionId : string) (audio : Buffer) (now : Z)
    (toolCall : ToolCall) (result : Json)
    (this this1 : VoiceAgent) (r : ProcessAudioResult) (llmResponse2 : LLMResponse) :
  processAudio sessionId audio now this = (inr r, this1) →
  complete (llmProvider this) (tool_request sessionId this1)
    (getConversationHistory sessionId this ++
     [{| role := user; content := text (result_transcript r);
         name := None; toolCallId := None |};
      {| role := assistant; content := response r;
         name := None; toolCallId := None |};
      tool_message (JSON_stringify result) toolCall])
    = inr llmResponse2 →
  getConversationHistory sessionId
    (sendToolResult JSON_stringify sessionId toolCall result this1).2
  = getConversationHistory sessionId this ++
    [{| role := user; content := text (result_transcript r);
        name := None; toolCallId := None |};
     {| role := assistant; content := response r;
        name := None; toolCallId := None |};
     tool_message (JSON_stringify result) toolCall;
     assistant_message llmResponse2].
Proof.
  intros Hturn Hllm2.
  pose proof (processAudio_effect _ _ _ _ _ _ Hturn) as ((_ & Hprovider & _) & _).
  apply processAudio_returned in Hturn
    as (session & transcript & llmResponse & _ & _ & _ & _ & -> & Hhistory).
  cbn [result_transcript response] in *.
  assert (complete (llmProvider this1) (tool_request sessionId this1)
            (getConversationHistory sessionId this1
             ++ [tool_message (JSON_stringify result) toolCall])
          = inr llmResponse2) as Hllm.
  { rewrite Hprovider, Hhistory, <- app_assoc. exact Hllm2. }
  rewrite (sendToolResult_completed _ _ _ _ _ _ Hllm). cbv zeta.
  destruct (emitEvent _ _) as [[thrown|[]] final] eqn:Hemit.
  all: apply emitEvent_log_grows in Hemit as [published ->].
  all: cbn [snd].
  all: rewrite getConversationHistory_tool_result_filed, Hhistory, <- app_assoc.
  all: reflexivity.
Qed.

Lemma tool_round_trip_witness :
  getConversationHistory "s1"
    (sendToolResult (λ _, "{}") "s1" sample_toolCall (JObject [])
       (processAudio "s1" sample_audio 3000 (agent_started speech_up llm_up)).2).2
  = getConversationHistory "s1" (agent_started speech_up llm_up) ++
    [{| role := user; content := text (result_transcript sample_result);
        name := None; toolCallId := None |};
     {| role := assistant; content := response sample_result;
        name := None; toolCallId := None |};
     tool_message "{}" sample_toolCall;
     assistant_message sample_response].
Proof.
  apply (tool_round_trip (λ _, "{}") "s1" sample_audio 3000 sample_toolCall
           (JObject []) (agent_started speech_up llm_up)
           (processAudio "s1" sample_audio 3000 (agent_started speech_up llm_up)).2
           sample_result sample_response).
  - vm_compute. reflexivity.
  - reflexivity.
Defined.

(* ===================================================================== *)
(** ** The providers *)
(* ===================================================================== *)

Lemma truthy_true s : truthy s = true ↔ ∃ key, s = Some key ∧ key ≠ "".
Proof.
  unfold truthy. destruct s as [key|].
  - destruct (decide (key = "")) as [->|Hne].
    + split; [discriminate|]. intros (key & [= <-] & Hne). contradiction.
    + split; [|reflexivity]. intros _. exists key. split; [reflexivity|exact Hne].
  - split; [discriminate|]. intros (key & Hkey & _). discriminate.
Qed.

Lemma truthy_false s : truthy s = false ↔ ¬ ∃ key, s = Some key ∧ key ≠ "".
Proof.
  rewrite <- truthy_true. destruct (truthy s); split; congruence.
Qed.

(** X22: what the constructors accept. A base LLM provider is
    constructed exactly when the API key is set and not empty, or the
    provider is [custom], and the model is not empty; the key is checked
    first, so a configuration that fails both is rejected with
    [API key is required]. The Anthropic and Deepgram constructors
    overwrite the provider, so for them the [custom] exemption never
    applies: they need a key whatever provider the argument names. Every
    rejection is a [VoiceAgentError] with code [INVALID_CONFIG], and a
    provider that was constructed is not initialized. *)
Theorem provider_constructors_validate
    (llm : LLMProviderConfig) (speech : SpeechProviderConfig) :
  let key_ok := ∃ key, llm_apiKey llm = Some key ∧ key ≠ "" in
  let speech_key_ok := ∃ key, speech_apiKey speech = Some key ∧ key ≠ "" in
  (∀ provider, new_BaseLLMProvider llm = inr provider
     ↔ (key_ok ∨ llm_provider llm = llm_custom) ∧ llm_model llm ≠ "" ∧
       provider = {| llm_config := llm; llm_initialized := false |}) ∧
  (∀ e, new_BaseLLMProvider llm = inl e
     ↔ (¬ (key_ok ∨ llm_provider llm = llm_custom) ∧
        e = VoiceAgentError "API key is required" "INVALID_CONFIG") ∨
       ((key_ok ∨ llm_provider llm = llm_custom) ∧ llm_model llm = "" ∧
        e = VoiceAgentError "Model is required" "INVALID_CONFIG")) ∧
  ((∃ provider, new_AnthropicProvider llm = inr provider)
   ↔ key_ok ∧ llm_model llm ≠ "") ∧
  (∀ provider, new_AnthropicProvider llm = inr provider →
     llm_provider (llm_config provider) = llm_anthropic ∧
     llm_initialized provider = false) ∧
  ((∃ provider, new_DeepgramProvider speech = inr provider) ↔ speech_key_ok) ∧
  ((∃ provider, new_BaseSpeechProvider speech = inr provider)
   ↔ speech_key_ok ∨ speech_provider speech = speech_custom).
Proof.
  cbv zeta.
  unfold new_AnthropicProvider, new_DeepgramProvider, new_BaseLLMProvider,
    new_BaseSpeechProvider, BaseLLMProvider_validateConfig,
    BaseSpeechProvider_validateConfig.
  cbn [llm_apiKey llm_provider llm_model speech_apiKey speech_provider].
  rewrite (bool_decide_eq_false_2 (llm_anthropic = llm_custom)) by discriminate.
  rewrite (bool_decide_eq_false_2 (speech_deepgram = speech_custom)) by discriminate.
  destruct (truthy (llm_apiKey llm)) eqn:Hkey;
    [apply truthy_true in Hkey|apply truthy_false in Hkey];
    (destruct (truthy (speech_apiKey speech)) eqn:Hskey;
     [apply truthy_true in Hskey|apply truthy_false in Hskey]);
    destruct (decide (llm_model llm = "")) as [Hmodel|Hmodel];
    destruct (bool_decide (llm_provider llm = llm_custom)) eqn:Hcustom;
    destruct (bool_decide (speech_provider speech = speech_custom)) eqn:Hscustom;
    try apply bool_decide_eq_true in Hcustom;
    try apply bool_decide_eq_false in Hcustom;
    try apply bool_decide_eq_true in Hscustom;
    try apply bool_decide_eq_false in Hscustom;
    cbn [negb andb].
  all: repeat match goal with |- _ ∧ _ => split end.
  all: try (intros provider; split;
            [intros [= <-]; tauto
            |intros (_ & _ & ->); reflexivity]).
  all: try (intros provider; split; [discriminate|tauto]).
  all: try (intros provider [= <-]; split; reflexivity).
  all: try (intros provider; discriminate).
  all: try (split; [intros [provider [=]]|tauto]).
  all: try (split; [intros _; tauto|intros _; eexists; reflexivity]).
  all: try (intros e; split; [discriminate|tauto]).
  all: intros e; split;
    [intros [= <-];
     first [left; split; [tauto|reflexivity]
           |right; split; [tauto|split; [assumption|reflexivity]]]
    |intros [(Hno & ->)|(Hyes & Hm & ->)]; first [reflexivity|exfalso; tauto]].
Qed.

Lemma provider_constructors_validate_witness :
  llm_provider (llm_config sample_anthropic_provider) = llm_anthropic ∧
  llm_initialized sample_anthropic_provider = false.
Proof.
  apply (provider_constructors_validate sample_llm_config
           {| speech_provider := speech_custom; speech_apiKey := None;
              speech_model := None; speech_language := None |}).
  reflexivity.
Defined.

Lemma anthropicMessages_buildMessages request :
  anthropicMessages (buildMessages request)
  = anthropicMessages (request_messages request).
Proof.
  unfold buildMessages, anthropicMessages.
  destruct (truthy (systemPrompt_of request)); [|reflexivity].
  cbn [app]. rewrite filter_cons_False; [reflexivity|].
  cbn [role]. intros H. apply H. reflexivity.
Qed.

Lemma find_system_buildMessages request :
  find_system (buildMessages request)
  = if truthy (systemPrompt_of request)
    then systemPrompt_of request
    else find_system (request_messages request).
Proof.
  unfold buildMessages, find_system.
  destruct (truthy (systemPrompt_of request)) eqn:Hprompt; [|reflexivity].
  apply truthy_true in Hprompt as (prompt & -> & _).
  cbn [app]. rewrite filter_cons_True by reflexivity. reflexivity.
Qed.

Lemma anthropicMessages_no_system messages' :
  Forall (λ m, role m ≠ system) messages' →
  anthropic_content <$> anthropicMessages messages' = content <$> messages'.
Proof.
  intros Hnone. unfold anthropicMessages.
  induction Hnone as [|m rest Hm Hrest IH]; [reflexivity|].
  rewrite filter_cons_True by exact Hm.
  rewrite !fmap_cons. cbn [anthropic_content]. f_equal. exact IH.
Qed.

Lemma find_system_no_system messages' :
  Forall (λ m, role m ≠ system) messages' → find_system messages' = None.
Proof.
  intros Hnone. unfold find_system.
  induction Hnone as [|m rest Hm Hrest IH]; [reflexivity|].
  rewrite filter_cons_False by (intros H; exact (Hm H)). exact IH.
Qed.

(** X23: what [complete] sends to the Anthropic backend as messages and
    as system prompt. The request's system prompt is never among the
    messages. When it is set and not empty it is the [system] parameter,
    and then every [system] message of the history is dropped without a
    trace; otherwise the [system] parameter is the content of the first
    [system] message of the history, if there is one. The messages sent
    are the history's messages that are not [system], in order, each with
    its content, as [assistant] if it was one and as [user] otherwise (so
    a [tool] message goes out as a [user] message); when the history has
    no [system] message, nothing of it is left out. *)
Theorem anthropic_payload_messages
    (this : BaseLLMProvider) (request : CompletionRequest) :
  let params := messageCreateParams this request in
  let history := request_messages request in
  (∀ prompt, systemPrompt_of request = Some prompt → prompt ≠ "" →
     param_system params = Some prompt) ∧
  (systemPrompt_of request = None ∨ systemPrompt_of request = Some "" →
     param_system params = find_system history) ∧
  param_messages params = anthropicMessages history ∧
  (∀ sent, sent ∈ param_messages params ↔
     ∃ m, m ∈ history ∧ role m ≠ system ∧
          anthropic_content sent = content m ∧
          anthropic_role sent
          = if decide (role m = assistant) then anthropic_assistant
            else anthropic_user) ∧
  (List.length (param_messages params) ≤ List.length history)%nat ∧
  (Forall (λ m, role m ≠ system) history →
     anthropic_content <$> param_messages params = content <$> history ∧
     param_system params
     = match systemPrompt_of request with
       | Some prompt => if decide (prompt = "") then None else Some prompt
       | None => None
       end).
Proof.
  cbv zeta. unfold messageCreateParams. cbn [param_system param_messages].
  rewrite anthropicMessages_buildMessages, find_system_buildMessages.
  split; [|split; [|split; [|split; [|split]]]].
  - intros prompt Hprompt Hne.
    rewrite (proj2 (truthy_true _)); [exact Hprompt|].
    exists prompt. split; [exact Hprompt|exact Hne].
  - intros [->| ->]; reflexivity.
  - reflexivity.
  - intros sent. unfold anthropicMessages. rewrite list_elem_of_fmap. split.
    + intros (m & -> & Hm). apply list_elem_of_filter in Hm as [Hrole Hm].
      exists m. cbn [anthropic_content anthropic_role].
      split; [exact Hm|]. split; [exact Hrole|]. split; [reflexivity|].
      destruct (role m); reflexivity.
    + intros (m & Hm & Hrole & Hcontent & Hsent). exists m. split.
      * destruct sent as [r c]. cbn [anthropic_content anthropic_role] in *.
        subst. f_equal. destruct (role m); reflexivity.
      * apply list_elem_of_filter. split; [exact Hrole|exact Hm].
  - unfold anthropicMessages. rewrite length_fmap. apply length_filter.
  - intros Hnone. split; [apply anthropicMessages_no_system, Hnone|].
    rewrite (find_system_no_system _ Hnone). unfold truthy.
    destruct (systemPrompt_of request) as [prompt|]; [|reflexivity].
    destruct (decide (prompt = "")) as [->|_]; reflexivity.
Qed.

Lemma anthropic_payload_messages_witness :
  param_system (messageCreateParams sample_anthropic_provider
                  sample_completion_request)
  = Some "You are a helpful assistant.".
Proof.
  apply (proj1 (anthropic_payload_messages sample_anthropic_provider
                  sample_completion_request)).
  - reflexivity.
  - discriminate.
Defined.

(** X24: the two limits [complete] sends. The token limit is never 0: a
    limit of 0 on the request or in the configuration counts as not set,
    the request's limit goes before the configuration's, and 4096 is sent
    when neither gives one. The temperature is taken as it is, 0
    included: the request's when it has one, else the configuration's,
    else 1. *)
Theorem anthropic_payload_limits
    (this : BaseLLMProvider) (request : CompletionRequest) :
  let params := messageCreateParams this request in
  let unset (limit : option Z) := limit = None ∨ limit = Some 0%Z in
  max_tokens params ≠ 0%Z ∧
  (∀ n, maxTokens request = Some n → n ≠ 0%Z → max_tokens params = n) ∧
  (∀ n, unset (maxTokens request) →
        llm_maxTokens (llm_config this) = Some n → n ≠ 0%Z →
        max_tokens params = n) ∧
  (unset (maxTokens request) → unset (llm_maxTokens (llm_config this)) →
   max_tokens params = 4096%Z) ∧
  (∀ t, temperature request = Some t → param_temperature params = t) ∧
  (∀ t, temperature request = None →
        llm_temperature (llm_config this) = Some t →
        param_temperature params = t) ∧
  (temperature request = None → llm_temperature (llm_config this) = None →
   param_temperature params = Qmake 1 1).
Proof.
  cbv zeta. unfold messageCreateParams, number_or.
  cbn [max_tokens param_temperature].
  split; [|split; [|split; [|split; [|split; [|split]]]]].
  - destruct (maxTokens request) as [n|];
      [destruct (decide (n = 0%Z)); [|assumption]|];
      (destruct (llm_maxTokens (llm_config this)) as [n'|];
       [destruct (decide (n' = 0%Z)); [|assumption]|]); discriminate.
  - intros n -> Hn. destruct (decide (n = 0%Z)); [contradiction|reflexivity].
  - intros n [->| ->] -> Hn; cbn;
      destruct (decide (n = 0%Z)); try contradiction; reflexivity.
  - intros [->| ->] [->| ->]; reflexivity.
  - intros t ->. reflexivity.
  - intros t -> ->. reflexivity.
  - intros -> ->. reflexivity.
Qed.

Lemma anthropic_payload_limits_witness :
  max_tokens (messageCreateParams sample_anthropic_provider
                sample_completion_request) = 4096%Z ∧
  param_temperature (messageCreateParams sample_anthropic_provider
                       sample_completion_request) = Qmake 0 1.
Proof.
  pose proof (anthropic_payload_limits sample_anthropic_provider
                sample_completion_request)
    as (_ & _ & _ & Hlimit & Htemperature & _).
  split.
  - apply Hlimit; right; reflexivity.
  - apply Htemperature. reflexivity.
Defined.

(** *** Responses *)





(** X26: the life cycle of an Anthropic provider. A provider that was
    constructed rejects [complete] with [NOT_INITIALIZED] until
    [initialize] was called, and again after [close], whatever the
    backend would answer. Once initialized, [complete] sends the model of
    the configuration, which is not empty; a rejection of the backend
    comes out as a [PROVIDER_ERROR] whose message is the backend's with
    [Claude completion failed: ] before it, an answer comes out converted.
    These two errors are the only ones [complete] throws. *)
Theorem AnthropicProvider_complete_life_cycle
    (config : LLMProviderConfig) (provider : BaseLLMProvider)
    (client : MessageCreateParams → Exn + AnthropicResponse)
    (request : CompletionRequest) :
  new_AnthropicProvider config = inr provider →
  let not_initialized :=
    VoiceAgentError "Provider not initialized. Call initialize() first."
                    "NOT_INITIALIZED" in
  let ready := AnthropicProvider_initialize provider in
  let params := messageCreateParams ready request in
  AnthropicProvider_complete provider client request = inl not_initialized ∧
  AnthropicProvider_complete (AnthropicProvider_close ready) client request
  = inl not_initialized ∧
  param_model params = llm_model config ∧
  param_model params ≠ "" ∧
  (∀ message, client params = inl message →
     AnthropicProvider_complete ready client request
     = inl (VoiceAgentError ("Claude completion failed: " +:+ message)
                            "PROVIDER_ERROR")) ∧
  (∀ response', client params = inr response' →
     AnthropicProvider_complete ready client request
     = inr (convertResponse response')) ∧
  (∀ this e, AnthropicProvider_complete this client request = inl e →
     (llm_initialized this = false ∧ e = not_initialized) ∨
     (llm_initialized this = true ∧
      ∃ message, client (messageCreateParams this request) = inl message ∧
                 e = VoiceAgentError ("Claude completion failed: " +:+ message)
                                     "PROVIDER_ERROR")).
Proof.
  intros Hnew. cbv zeta.
  unfold new_AnthropicProvider, new_BaseLLMProvider,
    BaseLLMProvider_validateConfig in Hnew.
  cbn [llm_apiKey llm_provider llm_model] in Hnew.
  destruct (negb (truthy (llm_apiKey config)) && _); [discriminate|].
  destruct (decide (llm_model config = "")) as [|Hmodel]; [discriminate|].
  injection Hnew as <-.
  unfold AnthropicProvider_complete, ensureInitialized,
    AnthropicProvider_close, AnthropicProvider_initialize, ProviderError.
  cbn [llm_initialized llm_config].
  split; [reflexivity|]. split; [reflexivity|].
  split; [reflexivity|]. split; [exact Hmodel|].
  split; [intros message ->; reflexivity|].
  split; [intros response' ->; reflexivity|].
  intros this e. destruct (llm_initialized this).
  - destruct (client (messageCreateParams this request)) as [message|response'];
      [|discriminate].
    intros [= <-]. right. split; [reflexivity|].
    exists message. split; reflexivity.
  - intros [= <-]. left. split; reflexivity.
Qed.

Lemma AnthropicProvider_complete_life_cycle_witness :
  AnthropicProvider_complete
    (AnthropicProvider_initialize sample_anthropic_provider)
    sample_client sample_completion_request
  = inr (convertResponse sample_anthropic_response).
Proof.
  pose proof (AnthropicProvider_complete_life_cycle sample_llm_config
                sample_anthropic_provider sample_client
                sample_completion_request eq_refl)
    as (_ & _ & _ & _ & _ & Hanswer & _).
  apply Hanswer. reflexivity.
Defined.

(** *** What a turn of the agent sends *)

Lemma appended_keeps_no_system sessionId messages' filed this this' :
  no_system_message this →
  Forall (λ m, role m ≠ system) messages' →
  appended_to sessionId messages' filed this this' →
  no_system_message this'.
Proof.
  intros Hthis Hnew [Harrays _] history stored. rewrite Harrays.
  rewrite lookup_insert. case_decide as Hhere.
  - intros [= <-]. apply Forall_app. split; [|exact Hnew].
    unfold getConversationHistory, read_array.
    destruct (conversationHistory this !! sessionId) as [l|]; [|constructor].
    destruct (arrays this !! l) as [old|] eqn:Hold; [|constructor].
    exact (Hthis _ _ Hold).
  - apply Hthis.
Qed.

Lemma run_agent_op_keeps_no_system JSON_stringify op this :
  no_system_message this →
  no_system_message (run_agent_op JSON_stringify op this).
Proof.
  intros Hthis.
  destruct op as [config uuid now | sessionId audio now
                 | sessionId toolCall result | sessionId now | listener];
    cbn [run_agent_op].
  - destruct (startSession_histories config uuid now this) as [_ Harrays].
    intros history stored. rewrite Harrays, lookup_insert. case_decide.
    + intros [= <-]. constructor.
    + apply Hthis.
  - destruct (processAudio sessionId audio now this) as [r this'] eqn:Hrun.
    destruct (processAudio_effect _ _ _ _ _ _ Hrun)
      as (_ & _ & _ & [[Harrays Hmap]|[[transcript Happ]|(transcript & llmResponse & Happ)]]).
    + cbn [snd]. intros history stored. rewrite Harrays. apply Hthis.
    + refine (appended_keeps_no_system _ _ _ _ _ Hthis _ Happ).
      repeat constructor; discriminate.
    + refine (appended_keeps_no_system _ _ _ _ _ Hthis _ Happ).
      repeat constructor; discriminate.
  - destruct (sendToolResult JSON_stringify sessionId toolCall result this)
      as [r this'] eqn:Hrun.
    destruct (sendToolResult_effect _ _ _ _ _ _ _ Hrun)
      as (_ & _ & _ & [Happ|[llmResponse Happ]]).
    + refine (appended_keeps_no_system _ _ _ _ _ Hthis _ Happ).
      repeat constructor; discriminate.
    + refine (appended_keeps_no_system _ _ _ _ _ Hthis _ Happ).
      repeat constructor; discriminate.
  - destruct (VoiceAgent_endSession_histories sessionId now this) as [Harrays _].
    intros history stored. rewrite Harrays. apply Hthis.
  - exact Hthis.
Qed.

Lemma run_agent_ops_keep_no_system JSON_stringify ops : ∀ this,
  no_system_message this →
  no_system_message (run_agent_ops JSON_stringify ops this).
Proof.
  induction ops as [|op ops IH]; intros this Hthis; [exact Hthis|].
  simpl. apply IH, run_agent_op_keeps_no_system, Hthis.
Qed.

(** X27: the agent and the Anthropic provider together. In every
    reachable agent no history holds a [system] message: the histories
    are made of [user], [assistant] and [tool] messages only. So of the
    request a turn builds for a session (the history with the new user
    message at its end, and the agent's prompt) an Anthropic provider
    sends every message, in order, and as [system] parameter the agent's
    prompt, or none if the prompt is empty. *)
Theorem reachable_history_is_sent_whole
    (JSON_stringify : Json → string) (this : VoiceAgent)
    (sessionId : string) (transcript : Transcript) (provider : BaseLLMProvider) :
  reachable_agent JSON_stringify this →
  let history := getConversationHistory sessionId this in
  let contents := history ++ [user_message transcript] in
  let params :=
    messageCreateParams provider
      (as_CompletionRequest (turn_request sessionId this) contents) in
  Forall (λ m, role m ≠ system) history ∧
  anthropic_content <$> param_messages params = content <$> contents ∧
  param_system params
  = if decide (systemPrompt this = "") then None else Some (systemPrompt this).
Proof.
  intros (speech & llm & prompt & ops & ->). cbv zeta.
  set (this := run_agent_ops JSON_stringify ops (new_VoiceAgent speech llm prompt)).
  assert (no_system_message this) as Hthis.
  { apply run_agent_ops_keep_no_system. intros history stored.
    cbn [arrays new_VoiceAgent]. rewrite lookup_empty. discriminate. }
  clearbody this.
  assert (Forall (λ m, role m ≠ system) (getConversationHistory sessionId this))
    as Hhistory.
  { unfold getConversationHistory, read_array.
    destruct (conversationHistory this !! sessionId) as [l|]; [|constructor].
    destruct (arrays this !! l) as [old|] eqn:Hold; [|constructor].
    exact (Hthis _ _ Hold). }
  split; [exact Hhistory|].
  assert (Forall (λ m, role m ≠ system)
            (getConversationHistory sessionId this ++ [user_message transcript]))
    as Hcontents.
  { apply Forall_app. split; [exact Hhistory|]. repeat constructor. discriminate. }
  unfold messageCreateParams. cbn [param_system param_messages].
  rewrite anthropicMessages_buildMessages, find_system_buildMessages.
  cbn [as_CompletionRequest request_messages systemPrompt_of turn_request
       request_systemPrompt].
  split; [apply anthropicMessages_no_system, Hcontents|].
  rewrite (find_system_no_system _ Hcontents). unfold truthy.
  destruct (decide (systemPrompt this = "")); reflexivity.
Qed.

Lemma reachable_history_is_sent_whole_witness :
  Forall (λ m, role m ≠ system) (getConversationHistory "s2" agent_two_sessions).
Proof.
  apply (reachable_history_is_sent_whole (λ _, "{}") agent_two_sessions "s2"
           sample_transcript sample_anthropic_provider).
  exists speech_up, llm_up, "You are a helpful assistant.",
    [call_startSession (config_with_id (Some "s1")) "uuid-1" 1000;
     call_startSession (config_with_id (Some "s2")) "uuid-2" 1100;
     call_processAudio "s2" sample_audio 1200].
  reflexivity.
Defined.

(** *** Closing the agent *)

Lemma stamp_end_again now now' session :
  stamp_end now' (set_status ENDED (stamp_end now (set_status ENDED session)))
  = stamp_end now' (set_status ENDED session).
Proof. reflexivity. Qed.

Lemma ended_all_cons clock round rounds store :
  ended_all clock (round :: rounds) store
  = ended_all clock rounds
      (alter (λ session, stamp_end (clock round.1) (set_status ENDED session))
             (session_id round.2) store).
Proof. reflexivity. Qed.

Lemma ended_all_other clock rounds : ∀ store id,
  id ∉ (λ round, session_id round.2) <$> rounds →
  ended_all clock rounds store !! id = store !! id.
Proof.
  induction rounds as [|round rounds IH]; intros store id Hid; [reflexivity|].
  rewrite fmap_cons in Hid. apply not_elem_of_cons in Hid as [Hne Hid].
  rewrite ended_all_cons.
  rewrite (IH _ _ Hid). apply lookup_alter_ne. congruence.
Qed.

Lemma ended_all_ended clock rounds : ∀ store id session,
  id ∈ (λ round, session_id round.2) <$> rounds →
  store !! id = Some session →
  ∃ i, i ∈ rounds.*1 ∧
       ended_all clock rounds store !! id
       = Some (stamp_end (clock i) (set_status ENDED session)).
Proof.
  induction rounds as [|round rounds IH]; intros store id session Hid Hstored.
  { apply elem_of_nil in Hid as []. }
  rewrite ended_all_cons.
  destruct (decide (id ∈ (λ round, session_id round.2) <$> rounds)) as [Hlater|Hlast].
  - destruct (decide (session_id round.2 = id)) as [Hhere|Hne].
    + destruct (IH (alter (λ session, stamp_end (clock round.1)
                                        (set_status ENDED session))
                          (session_id round.2) store)
                   id (stamp_end (clock round.1) (set_status ENDED session)) Hlater)
        as (i & Hi & Hended).
      { rewrite Hhere, lookup_alter_eq, Hstored. reflexivity. }
      exists i. split; [rewrite fmap_cons; right; exact Hi|].
      rewrite Hended, stamp_end_again. reflexivity.
    + destruct (IH (alter (λ session, stamp_end (clock round.1)
                                        (set_status ENDED session))
                          (session_id round.2) store)
                   id session Hlater)
        as (i & Hi & Hended).
      { rewrite lookup_alter_ne by exact Hne. exact Hstored. }
      exists i. split; [rewrite fmap_cons; right; exact Hi|exact Hended].
  - rewrite fmap_cons in Hid. apply elem_of_cons in Hid as [->|Hid];
      [|contradiction].
    exists round.1. split; [rewrite fmap_cons; left; reflexivity|].
    rewrite (ended_all_other _ _ _ _ Hlast), lookup_alter_eq, Hstored.
    reflexivity.
Qed.

Lemma ended_all_dom clock rounds store id :
  is_Some (ended_all clock rounds store !! id) ↔ is_Some (store !! id).
Proof.
  revert store.
  induction rounds as [|round rounds IH]; intros store; [reflexivity|].
  rewrite ended_all_cons.
  rewrite IH. rewrite lookup_alter.
  case_decide; [subst; rewrite fmap_is_Some|]; reflexivity.
Qed.

(** The loop of [close] on a store that holds every id it is run on. *)
Lemma close_loop clock rounds : ∀ this,
  (∀ round, round ∈ rounds →
            is_Some (sessions (sessionManager this) !! session_id round.2)) →
  for_of rounds
         (λ round, on_sessionManager
                     (endSession (session_id round.2) (clock round.1))) this
  = (inr tt,
     set_sessionManager
       {| sessions := ended_all clock rounds (sessions (sessionManager this)) |}
       this).
Proof.
  induction rounds as [|round rounds IH]; intros this Hstored.
  { destruct this as [speech llm [store] prompt ledger heap ls log]. reflexivity. }
  destruct this as [speech llm [store] prompt ledger heap ls log].
  cbn [sessionManager sessions] in *.
  destruct (Hstored round) as [session Hsession]; [left|].
  cbn [for_of].
  call_returns ltac:(apply on_sessionManager_run;
                     apply (endSession_found _ _ _ session); exact Hsession).
  flatten. rewrite IH.
  - flatten. cbn [sessions]. rewrite ended_all_cons. do 4 f_equal.
    apply map_eq. intros id'.
    rewrite lookup_insert, lookup_alter. case_decide; [|reflexivity].
    subst. rewrite Hsession. reflexivity.
  - intros round' Hround'. cbn [sessionManager sessions].
    rewrite lookup_insert. case_decide; [eexists; reflexivity|].
    apply Hstored. right. exact Hround'.
Qed.

Lemma startSession_sessions config uuid now this :
  ∃ session,
    session_id session = string_or (config_id config) uuid ∧
    sessions (sessionManager (startSession config uuid now this).2)
    = <[string_or (config_id config) uuid := session]>
        (sessions (sessionManager this)).
Proof.
  rewrite startSession_run. cbv zeta.
  destruct (emitEvent _ _) as [[thrown|[]] final] eqn:Hemit.
  all: apply emitEvent_log_grows in Hemit as [published ->].
  all: unfold session_filed; cbn [snd]; project; cbn [sessions].
  - exists (created_session config uuid now). split; reflexivity.
  - exists (set_status ACTIVE (created_session config uuid now)).
    split; [reflexivity|]. cbn [created_session session_id].
    apply insert_insert_eq.
Qed.

Lemma VoiceAgent_endSession_sessions sessionId now this :
  sessions (sessionManager (VoiceAgent_endSession sessionId now this).2)
  = match getSession sessionId (sessionManager this) with
    | Some session =>
        <[sessionId := stamp_end now (set_status ENDED session)]>
          (sessions (sessionManager this))
    | None => sessions (sessionManager this)
    end.
Proof.
  destruct (getSession sessionId (sessionManager this)) as [session|] eqn:Hfound.
  - rewrite (VoiceAgent_endSession_run _ _ _ _ Hfound).
    destruct (emitEvent _ _) as [r final] eqn:Hemit.
    apply emitEvent_log_grows in Hemit as [published ->].
    unfold session_closed. cbn [snd]. project. reflexivity.
  - unfold VoiceAgent_endSession, bind, get. rewrite Hfound. reflexivity.
Qed.

Lemma insert_keeps_keyed id session store :
  session_id session = id →
  keyed {| sessions := store |} →
  ∀ id' session', <[id := session]> store !! id' = Some session' →
                  session_id session' = id'.
Proof.
  intros Hid Hstore id' session'. rewrite lookup_insert. case_decide.
  - intros [= <-]. congruence.
  - apply Hstore.
Qed.

Lemma run_agent_op_keeps_keyed JSON_stringify op this :
  keyed (sessionManager this) →
  keyed (sessionManager (run_agent_op JSON_stringify op this)).
Proof.
  intros Hthis.
  assert (keyed {| sessions := sessions (sessionManager this) |}) as Hstore
    by exact Hthis.
  destruct op as [config uuid now | sessionId audio now
                 | sessionId toolCall result | sessionId now | listener];
    cbn [run_agent_op].
  - destruct (startSession_sessions config uuid now this) as (session & Hid & Hafter).
    intros id' session'. unfold getSession. rewrite Hafter.
    apply insert_keeps_keyed; assumption.
  - destruct (processAudio sessionId audio now this) as [r this'] eqn:Hrun.
    destruct (processAudio_effect _ _ _ _ _ _ Hrun) as (_ & Hsame & _).
    cbn [snd]. rewrite Hsame. exact Hthis.
  - destruct (sendToolResult JSON_stringify sessionId toolCall result this)
      as [r this'] eqn:Hrun.
    destruct (sendToolResult_effect _ _ _ _ _ _ _ Hrun) as (_ & Hsame & _).
    cbn [snd]. rewrite Hsame. exact Hthis.
  - intros id' session'. unfold getSession.
    rewrite VoiceAgent_endSession_sessions.
    destruct (getSession sessionId (sessionManager this)) as [session|] eqn:Hfound.
    + apply insert_keeps_keyed; [|exact Hstore].
      cbn [stamp_end set_status session_id]. exact (Hthis _ _ Hfound).
    + apply Hthis.
  - exact Hthis.
Qed.

Lemma reachable_agent_keyed JSON_stringify this :
  reachable_agent JSON_stringify this → keyed (sessionManager this).
Proof.
  intros (speech & llm & prompt & ops & ->).
  assert (∀ this, keyed (sessionManager this) →
                  keyed (sessionManager (run_agent_ops JSON_stringify ops this)))
    as Hops.
  { induction ops as [|op ops IH]; intros this Hthis; [exact Hthis|].
    simpl. apply IH, run_agent_op_keeps_keyed, Hthis. }
  apply Hops. intros id session. unfold getSession.
  cbn [sessionManager new_VoiceAgent new_SessionManager sessions].
  rewrite lookup_empty. discriminate.
Qed.

(** [close] when the providers have closed, on a store that holds every
    session under its own id. *)
Lemma VoiceAgent_close_run clock this :
  keyed (sessionManager this) →
  VoiceAgent_close None clock this
  = (inr tt,
     set_conversationHistory ∅
       (set_sessionManager
          {| sessions :=
               ended_all clock
                 (zip (seq 0 (List.length (getActiveSessions (sessionManager this))))
                      (getActiveSessions (sessionManager this)))
                 (sessions (sessionManager this)) |}
          this)).
Proof.
  intros Hkeyed. unfold VoiceAgent_close.
  call_returns ltac:(reflexivity).
  call_returns ltac:(apply close_loop).
  2: reflexivity.
  intros round Hround.
  assert (round.2 ∈ getActiveSessions (sessionManager this)) as Hactive.
  { destruct round as [i session]. apply elem_of_zip_r in Hround. exact Hround. }
  unfold getActiveSessions in Hactive.
  apply list_elem_of_filter in Hactive as [_ Hstored].
  apply session_values_elem in Hstored as [id Hstored].
  rewrite (Hkeyed _ _ Hstored). eexists. exact Hstored.
Qed.

(** X28: closing the agent. In every reachable agent, once the two
    providers have closed, [close] returns; every session that was
    [ACTIVE] or [CONNECTING] is then [ENDED], stamped with the clock
    reading of one of the rounds of the loop; every other session, an [IDLE] one
    included, is exactly as it was; no session is added or removed; no
    session is active any more; every history reads empty; and no event
    was published, so no [session:end] is delivered for the sessions
    [close] ends. The providers, the prompt and the listeners stay. When
    a provider fails to close, [close] throws what it threw and none of
    this is done. *)
Theorem VoiceAgent_close_ends_active_sessions
    (JSON_stringify : Json → string) (clock : nat → Z) (this : VoiceAgent) :
  reachable_agent JSON_stringify this →
  (∀ origin cause,
     VoiceAgent_close (Some (origin, cause)) clock this
     = (inl (Propagated origin cause), this)) ∧
  ∃ this',
    VoiceAgent_close None clock this = (inr tt, this') ∧
    (∀ id session,
       getSession id (sessionManager this) = Some session →
       if decide (status session = ACTIVE ∨ status session = CONNECTING)
       then ∃ i,
              (i < List.length (getActiveSessions (sessionManager this)))%nat ∧
              getSession id (sessionManager this')
              = Some (stamp_end (clock i) (set_status ENDED session))
       else getSession id (sessionManager this') = Some session) ∧
    (∀ id, getSession id (sessionManager this) = None →
           getSession id (sessionManager this') = None) ∧
    getActiveSessions (sessionManager this') = [] ∧
    (∀ id, getConversationHistory id this' = []) ∧
    emitted this' = emitted this ∧
    same_setup this this'.
Proof.
  intros Hreachable. split; [reflexivity|].
  pose proof (reachable_agent_keyed _ _ Hreachable) as Hkeyed.
  eexists. split; [apply VoiceAgent_close_run, Hkeyed|].
  set (active := getActiveSessions (sessionManager this)).
  set (rounds := zip (seq 0 (List.length active)) active).
  assert ((λ round : nat * VoiceSession, session_id round.2) <$> rounds
          = session_id <$> active) as Hids.
  { change ((session_id ∘ snd) <$> rounds = session_id <$> active).
    rewrite (list_fmap_compose snd session_id). unfold rounds.
    rewrite snd_zip; [reflexivity|]. rewrite length_seq. reflexivity. }
  assert (rounds.*1 = seq 0 (List.length active)) as Hrounds.
  { unfold rounds. rewrite fst_zip; [reflexivity|]. rewrite length_seq. reflexivity. }
  assert (∀ id session,
            getSession id (sessionManager this) = Some session →
            if decide (status session = ACTIVE ∨ status session = CONNECTING)
            then ∃ i, (i < List.length active)%nat ∧
                      ended_all clock rounds (sessions (sessionManager this)) !! id
                      = Some (stamp_end (clock i) (set_status ENDED session))
            else ended_all clock rounds (sessions (sessionManager this)) !! id
                 = Some session) as Hafter.
  { intros id session Hstored. case_decide as Hstatus.
    - destruct (ended_all_ended clock rounds (sessions (sessionManager this))
                  id session) as (i & Hi & Hended).
      + rewrite Hids. apply list_elem_of_fmap. exists session.
        split; [symmetry; exact (Hkeyed _ _ Hstored)|].
        unfold active, getActiveSessions. apply list_elem_of_filter.
        split; [exact Hstatus|]. apply session_values_elem.
        exists id. exact Hstored.
      + exact Hstored.
      + exists i. split; [|exact Hended].
        rewrite Hrounds in Hi. apply elem_of_seq in Hi. lia.
    - rewrite ended_all_other; [exact Hstored|].
      rewrite Hids. intros Hin. apply list_elem_of_fmap in Hin as (other & Hid & Hin).
      unfold active, getActiveSessions in Hin.
      apply list_elem_of_filter in Hin as [Hactive Hin].
      apply session_values_elem in Hin as [id' Hin].
      pose proof (Hkeyed _ _ Hin) as Hkey.
      assert (id' = id) as -> by congruence.
      unfold getSession in Hin, Hstored. rewrite Hstored in Hin.
      injection Hin as <-. contradiction. }
  project. cbn [sessions].
  split.
  { intros id session Hstored. specialize (Hafter _ _ Hstored).
    unfold getSession. cbn [sessions]. exact Hafter. }
  split.
  { intros id Hmissing. unfold getSession in *. cbn [sessions].
    destruct (ended_all clock rounds (sessions (sessionManager this)) !! id)
      as [session|] eqn:Hended; [|reflexivity].
    assert (is_Some (sessions (sessionManager this) !! id)) as [? Hstored].
    { apply (ended_all_dom clock rounds). eexists. exact Hended. }
    congruence. }
  split.
  { unfold getActiveSessions. cbn [sessions].
    destruct (filter _ _) as [|session rest] eqn:Hfilter; [reflexivity|].
    assert (session ∈ session :: rest) as Hin by left.
    rewrite <- Hfilter in Hin.
    apply list_elem_of_filter in Hin as [Hstatus Hin].
    apply (session_values_elem session
             {| sessions := ended_all clock rounds (sessions (sessionManager this)) |})
      in Hin as [id Hin].
    unfold getSession in Hin. cbn [sessions] in Hin.
    assert (is_Some (sessions (sessionManager this) !! id)) as [before Hstored].
    { apply (ended_all_dom clock rounds). eexists. exact Hin. }
    specialize (Hafter _ _ Hstored). case_decide as Hbefore.
    - destruct Hafter as (i & _ & Hended). rewrite Hended in Hin.
      injection Hin as <-. cbn [stamp_end set_status status] in Hstatus.
      destruct Hstatus; discriminate.
    - rewrite Hafter in Hin. injection Hin as <-. contradiction. }
  split.
  { intros id. unfold getConversationHistory. project.
    rewrite lookup_empty. reflexivity. }
  split; [reflexivity|]. repeat split.
Qed.

Lemma VoiceAgent_close_ends_active_sessions_witness :
  ∃ this',
    VoiceAgent_close None (λ i, 5000 + Z.of_nat i)%Z agent_two_sessions
    = (inr tt, this') ∧
    getActiveSessions (sessionManager this') = [].
Proof.
  destruct (VoiceAgent_close_ends_active_sessions (λ _, "{}")
              (λ i, 5000 + Z.of_nat i)%Z agent_two_sessions)
    as (_ & this' & Hrun & _ & _ & Hnone & _).
  - exists speech_up, llm_up, "You are a helpful assistant.",
      [call_startSession (config_with_id (Some "s1")) "uuid-1" 1000;
       call_startSession (config_with_id (Some "s2")) "uuid-2" 1100;
       call_processAudio "s2" sample_audio 1200].
    reflexivity.
  - exists this'. split; [exact Hrun|exact Hnone].
Defined.
